(** * EncryptedDuelGame: a shallow embedding of the duel contract

    The contract [contracts/EncryptedDuelGame.sol] keeps a registry of
    two-player games whose balances, scores and stakes are encrypted
    32-bit integers.  This file embeds the contract's storage, its four
    state-changing entry points, its views and the private settlement
    routine [_resolveRound], and proves properties of them.

    Conventions.
    - [uint256], [uint32], [address] and ciphertext handles are integers
      of [Z]; Solidity 0.8 checked arithmetic is written out ([Panic] on
      overflow), the wrap-around of the encrypted arithmetic is written
      out with [wrap32].
    - A reverted call leaves the storage as it was: an entry point maps a
      state to [inl error] or to [inr new_state].
    - [Game storage game = games[gameId]] is a read of the record, the
      assignments to its fields, and a write back of the record. *)

From Stdlib Require Import ZArith Lia String.
From stdpp Require Import gmap list list_numbers sorting.

Local Open Scope Z_scope.

(** ** Solidity value types *)

Definition address := Z.
Definition address0 : address := 0.

Definition uint32_max : Z := 2 ^ 32 - 1.
Definition uint256_max : Z := 2 ^ 256 - 1.

Definition is_uint32 (z : Z) : Prop := 0 <= z <= uint32_max.

(** Wrap-around of the encrypted 32-bit arithmetic. *)
Definition wrap32 (z : Z) : Z := z mod 2 ^ 32.

(** The reverts of the contract.  [revert_reason] gives the string the
    source passes to [require]. *)
Inductive Error :=
| NotFound
| AlreadyFull
| SelfJoin
| NotParticipant
| AlreadyStarted
| NoOpponent
| NotStarted
| DuplicateSubmission
| InvalidProof
| Panic.

Definition revert_reason (e : Error) : string :=
  match e with
  | NotFound => "Game not found"
  | AlreadyFull => "Game already has opponent"
  | SelfJoin => "Creator cannot join own game"
  | NotParticipant => "Not a participant"
  | AlreadyStarted => "Game already started"
  | NoOpponent => "Waiting for opponent"
  | NotStarted => "Game not started"
  | DuplicateSubmission => "Already submitted"
  | InvalidProof => "Invalid proof"
  | Panic => "Panic(0x11 / 0x32)"
  end.

Definition Result (A : Type) : Type := Error + A.

(** Checked addition of Solidity 0.8 on a type whose largest value is
    [max]. *)
Definition checked_add (max a b : Z) : Result Z :=
  if a + b <=? max then inr (a + b) else inl Panic.

(** ** The encrypted-integer capability *)

(** Modelled from the spec: the library [@fhevm/solidity/lib/FHE.sol] is
    not part of the repository.  Following the spec's External Interfaces
    section, a ciphertext is an opaque handle, [allowThis] and [allow]
    record grants per handle and are idempotent, and importing an
    external ciphertext fails when its proof does not verify.  The
    plaintext travels with the handle so that the arithmetic of the
    contract can be stated; the contract never inspects it.

    Handles.  The library derives the handle of a trivial encryption
    [asEuint32 v] from the constant [v] alone: two encryptions of the
    same constant are one handle, and a grant on one is a grant on the
    other.  [trivialHandle] gives that handle.  An imported ciphertext
    and the result of an operation on ciphertexts take the next handle of
    a counter that starts above the trivial handles. *)
Module FHE.

Record euint32 := Euint32 { handle : Z; plain : Z }.
Record ebool := Ebool { bhandle : Z; bplain : bool }.

(** The value of an uninitialised [euint32] storage slot. *)
Definition uninit : euint32 := Euint32 0 0.

Record Coprocessor := {
  nextHandle : Z;
  allowedThis : gset Z;
  allowedTo : gset (Z * address)
}.

(** The handle of the trivial encryption of [v]: handle 0 is the
    uninitialised slot, the constants take the handles 1 to [2^32]. *)
Definition trivialHandle (v : Z) : Z := wrap32 v + 1.

(** The first handle of the counter, above every trivial handle. *)
Definition firstHandle : Z := 2 ^ 32 + 1.

Definition fresh_coprocessor : Coprocessor :=
  {| nextHandle := firstHandle; allowedThis := ∅; allowedTo := ∅ |}.

Definition new32 (v : Z) (c : Coprocessor) : euint32 * Coprocessor :=
  (Euint32 (nextHandle c) v,
   {| nextHandle := nextHandle c + 1;
      allowedThis := allowedThis c;
      allowedTo := allowedTo c |}).

Definition newbool (b : bool) (c : Coprocessor) : ebool * Coprocessor :=
  (Ebool (nextHandle c) b,
   {| nextHandle := nextHandle c + 1;
      allowedThis := allowedThis c;
      allowedTo := allowedTo c |}).

Definition asEuint32 (v : Z) (c : Coprocessor) : euint32 * Coprocessor :=
  (Euint32 (trivialHandle v) (wrap32 v), c).
Definition add (a b : euint32) := new32 (wrap32 (plain a + plain b)).
Definition sub (a b : euint32) := new32 (wrap32 (plain a - plain b)).
Definition min (a b : euint32) := new32 (Z.min (plain a) (plain b)).
Definition gt (a b : euint32) := newbool (plain b <? plain a).
Definition select (c : ebool) (a b : euint32) :=
  new32 (if bplain c then plain a else plain b).

Definition allowThis (v : euint32) (c : Coprocessor) : Coprocessor :=
  {| nextHandle := nextHandle c;
     allowedThis := {[ handle v ]} ∪ allowedThis c;
     allowedTo := allowedTo c |}.

Definition allow (v : euint32) (account : address) (c : Coprocessor)
  : Coprocessor :=
  {| nextHandle := nextHandle c;
     allowedThis := allowedThis c;
     allowedTo := {[ (handle v, account) ]} ∪ allowedTo c |}.

(** An external ciphertext with its input proof.  The proof is
    represented by what the input verifier concludes from it:
    [Some v] when it attests that the external handle encrypts [v] for
    this contract and sender, [None] when it does not verify. *)
Record externalEuint32 := External { ext_handle : Z; inputProof : option Z }.

Definition fromExternal (x : externalEuint32) (c : Coprocessor)
  : Result (euint32 * Coprocessor) :=
  match inputProof x with
  | Some v => inr (new32 (wrap32 v) c)
  | None => inl InvalidProof
  end.

(** The grants a viewer or the contract holds. *)
Definition isAllowedThis (c : Coprocessor) (v : euint32) : Prop :=
  handle v ∈ allowedThis c.
Definition isAllowed (c : Coprocessor) (v : euint32) (a : address) : Prop :=
  (handle v, a) ∈ allowedTo c.

End FHE.

Import FHE.

(** ** Storage *)

Record Game := {
  creator : address;
  opponent : address;
  started : bool;
  round : Z;
  creatorBalance : euint32;
  opponentBalance : euint32;
  creatorScore : euint32;
  opponentScore : euint32;
  creatorStake : euint32;
  opponentStake : euint32;
  creatorSubmitted : bool;
  opponentSubmitted : bool
}.

Record GameState := {
  gs_creator : address;
  gs_opponent : address;
  gs_started : bool;
  gs_round : Z;
  gs_creatorSubmitted : bool;
  gs_opponentSubmitted : bool;
  gs_creatorBalance : euint32;
  gs_opponentBalance : euint32;
  gs_creatorScore : euint32;
  gs_opponentScore : euint32
}.

(** A storage slot nobody wrote to. *)
Definition emptyGame : Game :=
  {| creator := address0; opponent := address0; started := false; round := 0;
     creatorBalance := uninit; opponentBalance := uninit;
     creatorScore := uninit; opponentScore := uninit;
     creatorStake := uninit; opponentStake := uninit;
     creatorSubmitted := false; opponentSubmitted := false |}.

Inductive Event :=
| GameCreated (gameId : Z) (creator : address)
| GameJoined (gameId : Z) (opponent : address)
| GameStarted (gameId : Z)
| StakeSubmitted (gameId : Z) (player : address) (stake : euint32)
| RoundResolved (gameId : Z) (round : Z)
    (creatorBalance opponentBalance creatorScore opponentScore : euint32).

Record State := {
  nextGameId : Z;
  games : gmap Z Game;
  gamesByPlayer : gmap address (list Z);
  fhe : Coprocessor;
  events : list Event
}.

(** The contract right after deployment. *)
Definition init : State :=
  {| nextGameId := 0; games := ∅; gamesByPlayer := ∅;
     fhe := fresh_coprocessor; events := [] |}.

(** [games[gameId]] and [gamesByPlayer[player]]: a mapping reads the zero
    value at a key that was never written. *)
Definition getGame (s : State) (gameId : Z) : Game :=
  default emptyGame (games s !! gameId).

Definition playerGames (s : State) (player : address) : list Z :=
  default [] (gamesByPlayer s !! player).

(** ** Field assignments *)

Definition set_creator (v : address) (g : Game) : Game :=
  {| creator := v; opponent := opponent g; started := started g;
     round := round g; creatorBalance := creatorBalance g;
     opponentBalance := opponentBalance g; creatorScore := creatorScore g;
     opponentScore := opponentScore g; creatorStake := creatorStake g;
     opponentStake := opponentStake g;
     creatorSubmitted := creatorSubmitted g;
     opponentSubmitted := opponentSubmitted g |}.

Definition set_opponent (v : address) (g : Game) : Game :=
  {| creator := creator g; opponent := v; started := started g;
     round := round g; creatorBalance := creatorBalance g;
     opponentBalance := opponentBalance g; creatorScore := creatorScore g;
     opponentScore := opponentScore g; creatorStake := creatorStake g;
     opponentStake := opponentStake g;
     creatorSubmitted := creatorSubmitted g;
     opponentSubmitted := opponentSubmitted g |}.

Definition set_started (v : bool) (g : Game) : Game :=
  {| creator := creator g; opponent := opponent g; started := v;
     round := round g; creatorBalance := creatorBalance g;
     opponentBalance := opponentBalance g; creatorScore := creatorScore g;
     opponentScore := opponentScore g; creatorStake := creatorStake g;
     opponentStake := opponentStake g;
     creatorSubmitted := creatorSubmitted g;
     opponentSubmitted := opponentSubmitted g |}.

Definition set_round (v : Z) (g : Game) : Game :=
  {| creator := creator g; opponent := opponent g; started := started g;
     round := v; creatorBalance := creatorBalance g;
     opponentBalance := opponentBalance g; creatorScore := creatorScore g;
     opponentScore := opponentScore g; creatorStake := creatorStake g;
     opponentStake := opponentStake g;
     creatorSubmitted := creatorSubmitted g;
     opponentSubmitted := opponentSubmitted g |}.

Definition set_creatorBalance (v : euint32) (g : Game) : Game :=
  {| creator := creator g; opponent := opponent g; started := started g;
     round := round g; creatorBalance := v;
     opponentBalance := opponentBalance g; creatorScore := creatorScore g;
     opponentScore := opponentScore g; creatorStake := creatorStake g;
     opponentStake := opponentStake g;
     creatorSubmitted := creatorSubmitted g;
     opponentSubmitted := opponentSubmitted g |}.

Definition set_opponentBalance (v : euint32) (g : Game) : Game :=
  {| creator := creator g; opponent := opponent g; started := started g;
     round := round g; creatorBalance := creatorBalance g;
     opponentBalance := v; creatorScore := creatorScore g;
     opponentScore := opponentScore g; creatorStake := creatorStake g;
     opponentStake := opponentStake g;
     creatorSubmitted := creatorSubmitted g;
     opponentSubmitted := opponentSubmitted g |}.

Definition set_creatorScore (v : euint32) (g : Game) : Game :=
  {| creator := creator g; opponent := opponent g; started := started g;
     round := round g; creatorBalance := creatorBalance g;
     opponentBalance := opponentBalance g; creatorScore := v;
     opponentScore := opponentScore g; creatorStake := creatorStake g;
     opponentStake := opponentStake g;
     creatorSubmitted := creatorSubmitted g;
     opponentSubmitted := opponentSubmitted g |}.

Definition set_opponentScore (v : euint32) (g : Game) : Game :=
  {| creator := creator g; opponent := opponent g; started := started g;
     round := round g; creatorBalance := creatorBalance g;
     opponentBalance := opponentBalance g; creatorScore := creatorScore g;
     opponentScore := v; creatorStake := creatorStake g;
     opponentStake := opponentStake g;
     creatorSubmitted := creatorSubmitted g;
     opponentSubmitted := opponentSubmitted g |}.

Definition set_creatorStake (v : euint32) (g : Game) : Game :=
  {| creator := creator g; opponent := opponent g; started := started g;
     round := round g; creatorBalance := creatorBalance g;
     opponentBalance := opponentBalance g; creatorScore := creatorScore g;
     opponentScore := opponentScore g; creatorStake := v;
     opponentStake := opponentStake g;
     creatorSubmitted := creatorSubmitted g;
     opponentSubmitted := opponentSubmitted g |}.

Definition set_opponentStake (v : euint32) (g : Game) : Game :=
  {| creator := creator g; opponent := opponent g; started := started g;
     round := round g; creatorBalance := creatorBalance g;
     opponentBalance := opponentBalance g; creatorScore := creatorScore g;
     opponentScore := opponentScore g; creatorStake := creatorStake g;
     opponentStake := v;
     creatorSubmitted := creatorSubmitted g;
     opponentSubmitted := opponentSubmitted g |}.

Definition set_creatorSubmitted (v : bool) (g : Game) : Game :=
  {| creator := creator g; opponent := opponent g; started := started g;
     round := round g; creatorBalance := creatorBalance g;
     opponentBalance := opponentBalance g; creatorScore := creatorScore g;
     opponentScore := opponentScore g; creatorStake := creatorStake g;
     opponentStake := opponentStake g;
     creatorSubmitted := v;
     opponentSubmitted := opponentSubmitted g |}.

Definition set_opponentSubmitted (v : bool) (g : Game) : Game :=
  {| creator := creator g; opponent := opponent g; started := started g;
     round := round g; creatorBalance := creatorBalance g;
     opponentBalance := opponentBalance g; creatorScore := creatorScore g;
     opponentScore := opponentScore g; creatorStake := creatorStake g;
     opponentStake := opponentStake g;
     creatorSubmitted := creatorSubmitted g;
     opponentSubmitted := v |}.

(** ** The call monad

    A call runs against the record behind its [Game storage game]
    pointer, the coprocessor and the event log; it either reverts or
    returns a value and the new context. *)

Record Ctx := { game : Game; cop : Coprocessor; log : list Event }.

Definition M (A : Type) : Type := Ctx -> Result (A * Ctx).

Definition ret {A} (a : A) : M A := fun c => inr (a, c).

Definition bind {A B} (m : M A) (k : A -> M B) : M B :=
  fun c => match m c with
           | inl e => inl e
           | inr (a, c') => k a c'
           end.

Declare Scope call_scope.
Delimit Scope call_scope with call.
Notation "x <- m ;; k" := (bind m (fun x => k))
  (at level 100, m at next level, k at level 200, right associativity)
  : call_scope.
Notation "m ;; k" := (bind m (fun _ => k))
  (at level 100, k at level 200, right associativity) : call_scope.
Local Open Scope call_scope.

(** [require(cond, reason)] *)
Definition require (cond : bool) (e : Error) : M unit :=
  fun c => if cond then inr (tt, c) else inl e.

(** A read of [game.field]. *)
Definition load {A} (field : Game -> A) : M A :=
  fun c => inr (field (game c), c).

(** An assignment [game.field = v]. *)
Definition assign (upd : Game -> Game) : M unit :=
  fun c => inr (tt, {| game := upd (game c); cop := cop c; log := log c |}).

Definition emit (e : Event) : M unit :=
  fun c => inr (tt, {| game := game c; cop := cop c; log := log c ++ [e] |}).

(** Calls into the capability. *)
Definition fheop {A} (op : Coprocessor -> A * Coprocessor) : M A :=
  fun c => let '(a, k) := op (cop c) in
           inr (a, {| game := game c; cop := k; log := log c |}).

Definition fhedo (op : Coprocessor -> Coprocessor) : M unit :=
  fun c => inr (tt, {| game := game c; cop := op (cop c); log := log c |}).

Definition fhetry {A} (op : Coprocessor -> Result (A * Coprocessor)) : M A :=
  fun c => match op (cop c) with
           | inl e => inl e
           | inr (a, k) => inr (a, {| game := game c; cop := k; log := log c |})
           end.

Definition lift {A} (r : Result A) : M A :=
  fun c => match r with inl e => inl e | inr a => inr (a, c) end.

(** Runs a body on [games[gameId]] and writes the record back; a revert
    discards every effect of the body. *)
Definition onGame (gameId : Z) (body : M unit) (s : State) : Result State :=
  match body {| game := getGame s gameId; cop := fhe s; log := events s |} with
  | inl e => inl e
  | inr (_, c) =>
      inr {| nextGameId := nextGameId s;
             games := <[gameId := game c]> (games s);
             gamesByPlayer := gamesByPlayer s;
             fhe := cop c;
             events := log c |}
  end.

(** [gamesByPlayer[player].push(gameId)] *)
Definition pushPlayerGame (player : address) (gameId : Z) (s : State) : State :=
  {| nextGameId := nextGameId s;
     games := games s;
     gamesByPlayer := <[player := playerGames s player ++ [gameId]]> (gamesByPlayer s);
     fhe := fhe s;
     events := events s |}.

(** ** The contract *)

(** [modifier gameExists] *)
Definition gameExists : M unit :=
  c <- load creator ;;
  require (negb (c =? address0)) NotFound.

(** [modifier onlyParticipant] *)
Definition onlyParticipant (sender : address) : M unit :=
  c <- load creator ;;
  o <- load opponent ;;
  require ((sender =? c) || (sender =? o)) NotParticipant.

Definition _shareWithContract (value : euint32) : M unit :=
  fhedo (allowThis value).

Definition _allowTo (value : euint32) (account : address) : M unit :=
  if negb (account =? address0) then fhedo (allow value account) else ret tt.

(** [createGame()]; returns the new state and [gameId]. *)
Definition createGame (sender : address) (s : State) : Result (State * Z) :=
  let gameId := nextGameId s in
  match checked_add uint256_max (nextGameId s) 1 with
  | inl e => inl e
  | inr next =>
      let game := set_round 1 (set_creator sender (getGame s gameId)) in
      let s1 := {| nextGameId := next;
                   games := <[gameId := game]> (games s);
                   gamesByPlayer := gamesByPlayer s;
                   fhe := fhe s;
                   events := events s |} in
      let s2 := pushPlayerGame sender gameId s1 in
      inr ({| nextGameId := nextGameId s2;
              games := games s2;
              gamesByPlayer := gamesByPlayer s2;
              fhe := fhe s2;
              events := events s2 ++ [GameCreated gameId sender] |}, gameId)
  end.

Definition joinGame_body (sender : address) (gameId : Z) : M unit :=
  gameExists ;;
  o <- load opponent ;;
  require (o =? address0) AlreadyFull ;;
  c <- load creator ;;
  require (negb (c =? sender)) SelfJoin ;;
  assign (set_opponent sender).

(** [joinGame(gameId)] *)
Definition joinGame (sender : address) (gameId : Z) (s : State) : Result State :=
  match onGame gameId (joinGame_body sender gameId) s with
  | inl e => inl e
  | inr s1 =>
      let s2 := pushPlayerGame sender gameId s1 in
      inr {| nextGameId := nextGameId s2;
             games := games s2;
             gamesByPlayer := gamesByPlayer s2;
             fhe := fhe s2;
             events := events s2 ++ [GameJoined gameId sender] |}
  end.

Definition startGame_body (sender : address) (gameId : Z) : M unit :=
  gameExists ;;
  onlyParticipant sender ;;
  st <- load started ;;
  require (negb st) AlreadyStarted ;;
  o <- load opponent ;;
  require (negb (o =? address0)) NoOpponent ;;
  assign (set_started true) ;;
  v <- fheop (asEuint32 100) ;; assign (set_creatorBalance v) ;;
  v <- fheop (asEuint32 100) ;; assign (set_opponentBalance v) ;;
  v <- fheop (asEuint32 0) ;; assign (set_creatorScore v) ;;
  v <- fheop (asEuint32 0) ;; assign (set_opponentScore v) ;;
  v <- fheop (asEuint32 0) ;; assign (set_creatorStake v) ;;
  v <- fheop (asEuint32 0) ;; assign (set_opponentStake v) ;;
  assign (set_creatorSubmitted false) ;;
  assign (set_opponentSubmitted false) ;;
  v <- load creatorBalance ;; _shareWithContract v ;;
  v <- load opponentBalance ;; _shareWithContract v ;;
  v <- load creatorScore ;; _shareWithContract v ;;
  v <- load opponentScore ;; _shareWithContract v ;;
  v <- load creatorBalance ;; a <- load creator ;; _allowTo v a ;;
  v <- load opponentBalance ;; a <- load opponent ;; _allowTo v a ;;
  v <- load creatorScore ;; a <- load creator ;; _allowTo v a ;;
  v <- load creatorScore ;; a <- load opponent ;; _allowTo v a ;;
  v <- load opponentScore ;; a <- load creator ;; _allowTo v a ;;
  v <- load opponentScore ;; a <- load opponent ;; _allowTo v a ;;
  emit (GameStarted gameId).

(** [startGame(gameId)] *)
Definition startGame (sender : address) (gameId : Z) : State -> Result State :=
  onGame gameId (startGame_body sender gameId).

(** [_resolveRound(gameId)], on the record of the game. *)
Definition _resolveRound (gameId : Z) : M unit :=
  resolvedRound <- load round ;;
  a <- load creatorStake ;; b <- load creatorBalance ;;
  creatorStake' <- fheop (FHE.min a b) ;;
  a <- load opponentStake ;; b <- load opponentBalance ;;
  opponentStake' <- fheop (FHE.min a b) ;;
  creatorWins <- fheop (gt creatorStake' opponentStake') ;;
  opponentWins <- fheop (gt opponentStake' creatorStake') ;;
  (* game.creatorBalance = select(creatorWins, add, select(opponentWins, sub, old)) *)
  b <- load creatorBalance ;;
  won <- fheop (add b opponentStake') ;;
  b <- load creatorBalance ;;
  lost <- fheop (sub b creatorStake') ;;
  b <- load creatorBalance ;;
  inner <- fheop (select opponentWins lost b) ;;
  v <- fheop (select creatorWins won inner) ;;
  assign (set_creatorBalance v) ;;
  (* game.opponentBalance = select(opponentWins, add, select(creatorWins, sub, old)) *)
  b <- load opponentBalance ;;
  won <- fheop (add b creatorStake') ;;
  b <- load opponentBalance ;;
  lost <- fheop (sub b opponentStake') ;;
  b <- load opponentBalance ;;
  inner <- fheop (select creatorWins lost b) ;;
  v <- fheop (select opponentWins won inner) ;;
  assign (set_opponentBalance v) ;;
  (* scores *)
  sc <- load creatorScore ;;
  one <- fheop (asEuint32 1) ;;
  inc <- fheop (add sc one) ;;
  sc <- load creatorScore ;;
  v <- fheop (select creatorWins inc sc) ;;
  assign (set_creatorScore v) ;;
  sc <- load opponentScore ;;
  one <- fheop (asEuint32 1) ;;
  inc <- fheop (add sc one) ;;
  sc <- load opponentScore ;;
  v <- fheop (select opponentWins inc sc) ;;
  assign (set_opponentScore v) ;;
  (* grants *)
  v <- load creatorBalance ;; _shareWithContract v ;;
  v <- load opponentBalance ;; _shareWithContract v ;;
  v <- load creatorScore ;; _shareWithContract v ;;
  v <- load opponentScore ;; _shareWithContract v ;;
  v <- load creatorBalance ;; a <- load creator ;; _allowTo v a ;;
  v <- load opponentBalance ;; a <- load opponent ;; _allowTo v a ;;
  v <- load creatorScore ;; a <- load creator ;; _allowTo v a ;;
  v <- load creatorScore ;; a <- load opponent ;; _allowTo v a ;;
  v <- load opponentScore ;; a <- load creator ;; _allowTo v a ;;
  v <- load opponentScore ;; a <- load opponent ;; _allowTo v a ;;
  (* next round *)
  v <- fheop (asEuint32 0) ;; assign (set_creatorStake v) ;;
  v <- fheop (asEuint32 0) ;; assign (set_opponentStake v) ;;
  assign (set_creatorSubmitted false) ;;
  assign (set_opponentSubmitted false) ;;
  r <- load round ;;
  r' <- lift (checked_add uint32_max r 1) ;;
  assign (set_round r') ;;
  cb <- load creatorBalance ;; ob <- load opponentBalance ;;
  cs <- load creatorScore ;; os <- load opponentScore ;;
  emit (RoundResolved gameId resolvedRound cb ob cs os).

Definition submitStake_body (sender : address) (gameId : Z)
    (stake : externalEuint32) : M unit :=
  gameExists ;;
  onlyParticipant sender ;;
  st <- load started ;;
  require st NotStarted ;;
  encryptedStake <- fhetry (fromExternal stake) ;;
  _shareWithContract encryptedStake ;;
  _allowTo encryptedStake sender ;;
  c <- load creator ;;
  (if sender =? c then
     sub <- load creatorSubmitted ;;
     require (negb sub) DuplicateSubmission ;;
     assign (set_creatorStake encryptedStake) ;;
     assign (set_creatorSubmitted true)
   else
     sub <- load opponentSubmitted ;;
     require (negb sub) DuplicateSubmission ;;
     assign (set_opponentStake encryptedStake) ;;
     assign (set_opponentSubmitted true)) ;;
  emit (StakeSubmitted gameId sender encryptedStake) ;;
  cs <- load creatorSubmitted ;;
  os <- load opponentSubmitted ;;
  if cs && os then _resolveRound gameId else ret tt.

(** [submitStake(gameId, stakeHandle, inputProof)] *)
Definition submitStake (sender : address) (gameId : Z)
    (stake : externalEuint32) : State -> Result State :=
  onGame gameId (submitStake_body sender gameId stake).

(** ** Views *)

(** [getGameState(gameId)] *)
Definition getGameState (s : State) (gameId : Z) : Result GameState :=
  let game := getGame s gameId in
  if negb (creator game =? address0) then
    inr {| gs_creator := creator game;
           gs_opponent := opponent game;
           gs_started := started game;
           gs_round := round game;
           gs_creatorSubmitted := creatorSubmitted game;
           gs_opponentSubmitted := opponentSubmitted game;
           gs_creatorBalance := creatorBalance game;
           gs_opponentBalance := opponentBalance game;
           gs_creatorScore := creatorScore game;
           gs_opponentScore := opponentScore game |}
  else inl NotFound.

(** The test of both loops of [getOpenGames]. *)
Definition isOpen (game : Game) : bool :=
  negb (creator game =? address0) && (opponent game =? address0).

(** First loop: [count] over the identifiers [ids]. *)
Fixpoint countOpen (s : State) (ids : list Z) (count : Z) : Result Z :=
  match ids with
  | [] => inr count
  | i :: rest =>
      if isOpen (getGame s i) then
        match checked_add uint256_max count 1 with
        | inl e => inl e
        | inr count' => countOpen s rest count'
        end
      else countOpen s rest count
  end.

(** [openGames[index] = i] on a memory array: out of range panics. *)
Definition array_store (arr : list Z) (index v : Z) : Result (list Z) :=
  if (0 <=? index) && (index <? Z.of_nat (length arr))
  then inr (<[Z.to_nat index := v]> arr)
  else inl Panic.

(** Second loop: fills [openGames] from [index] on. *)
Fixpoint fillOpen (s : State) (ids : list Z) (openGames : list Z) (index : Z)
    : Result (list Z) :=
  match ids with
  | [] => inr openGames
  | i :: rest =>
      if isOpen (getGame s i) then
        match array_store openGames index i with
        | inl e => inl e
        | inr openGames' =>
            match checked_add uint256_max index 1 with
            | inl e => inl e
            | inr index' => fillOpen s rest openGames' index'
            end
        end
      else fillOpen s rest openGames index
  end.

(** [getOpenGames()] *)
Definition getOpenGames (s : State) : Result (list Z) :=
  let total := nextGameId s in
  match countOpen s (seqZ 0 total) 0 with
  | inl e => inl e
  | inr count =>
      let openGames := replicate (Z.to_nat count) 0 in
      fillOpen s (seqZ 0 total) openGames 0
  end.

(** [getPlayerGames(player)] *)
Definition getPlayerGames (s : State) (player : address) : list Z :=
  playerGames s player.

(** ** Transactions and reachable states *)

Inductive Call :=
| CreateGame
| JoinGame (gameId : Z)
| StartGame (gameId : Z)
| SubmitStake (gameId : Z) (stake : externalEuint32).

Definition exec (sender : address) (c : Call) (s : State) : Result State :=
  match c with
  | CreateGame =>
      match createGame sender s with inl e => inl e | inr (s', _) => inr s' end
  | JoinGame gameId => joinGame sender gameId s
  | StartGame gameId => startGame sender gameId s
  | SubmitStake gameId stake => submitStake sender gameId stake s
  end.

(** A state is reachable when transactions of non-zero senders lead to
    it from the deployed contract (no account signs as [address(0)]). *)
Inductive reachable : State -> Prop :=
| reach_init : reachable init
| reach_step s sender c s' :
    reachable s -> sender <> address0 -> exec sender c s = inr s' ->
    reachable s'.

(** Runs a list of transactions, stopping at the first revert. *)
Fixpoint run (txs : list (address * Call)) (s : State) : Result State :=
  match txs with
  | [] => inr s
  | (sender, c) :: rest =>
      match exec sender c s with
      | inl e => inl e
      | inr s' => run rest s'
      end
  end.

(** ** Plaintext reading of a settlement

    What [_resolveRound] computes, on the plaintexts: [own] and [other]
    are the effective stakes of the side and of the other side. *)

Definition effective (stake balance : Z) : Z := Z.min stake balance.

Definition settledBalance (balance own other : Z) : Z :=
  if other <? own then wrap32 (balance + other)
  else if own <? other then wrap32 (balance - own)
  else balance.

Definition settledScore (score own other : Z) : Z :=
  if other <? own then wrap32 (score + 1) else score.

(** The stakes a settlement works on when [sender]'s submission of the
    plaintext [v] completes the round of [g]. *)
Definition roundStakeOfCreator (g : Game) (sender : address) (v : Z) : Z :=
  if sender =? creator g then wrap32 v else plain (creatorStake g).

Definition roundStakeOfOpponent (g : Game) (sender : address) (v : Z) : Z :=
  if sender =? creator g then plain (opponentStake g) else wrap32 v.

(** [sender]'s submission is the second one of the round. *)
Definition completesRound (g : Game) (sender : address) : Prop :=
  started g = true /\
  ((sender = creator g /\ creatorSubmitted g = false /\
    opponentSubmitted g = true) \/
   (sender = opponent g /\ opponentSubmitted g = false /\
    creatorSubmitted g = true)).

(** [sender] has already submitted in the current round of [g]. *)
Definition alreadySubmitted (g : Game) (sender : address) : Prop :=
  started g = true /\
  ((sender = creator g /\ creatorSubmitted g = true) \/
   (sender = opponent g /\ opponentSubmitted g = true)).

(** ** Invariants of the reachable states *)

(** The plaintexts of a started game. *)
Definition ledger_ok (g : Game) : Prop :=
  plain (creatorBalance g) + plain (opponentBalance g) = 200 /\
  0 <= plain (creatorBalance g) /\ 0 <= plain (opponentBalance g) /\
  0 <= plain (creatorScore g) /\ 0 <= plain (opponentScore g) /\
  plain (creatorScore g) + plain (opponentScore g) < round g /\
  is_uint32 (plain (creatorStake g)) /\ is_uint32 (plain (opponentStake g)).

(** The grants on the balances and scores of a started game. *)
Definition ledger_granted (k : Coprocessor) (g : Game) : Prop :=
  isAllowedThis k (creatorBalance g) /\ isAllowedThis k (opponentBalance g) /\
  isAllowedThis k (creatorScore g) /\ isAllowedThis k (opponentScore g) /\
  isAllowed k (creatorBalance g) (creator g) /\
  isAllowed k (opponentBalance g) (opponent g) /\
  isAllowed k (creatorScore g) (creator g) /\
  isAllowed k (creatorScore g) (opponent g) /\
  isAllowed k (opponentScore g) (creator g) /\
  isAllowed k (opponentScore g) (opponent g).

(** The grants on the two stakes of a started game, submitted or
    encrypted-0: the contract's grant and the decrypt grant of the
    stake's own side. *)
Definition stakes_granted (k : Coprocessor) (g : Game) : Prop :=
  isAllowedThis k (creatorStake g) /\
  isAllowed k (creatorStake g) (creator g) /\
  isAllowedThis k (opponentStake g) /\
  isAllowed k (opponentStake g) (opponent g).

(** The encryption of 0 was granted to the contract and to both players
    when the game started, as the initial score. *)
Definition zero_granted (k : Coprocessor) (g : Game) : Prop :=
  trivialHandle 0 ∈ allowedThis k /\
  (trivialHandle 0, creator g) ∈ allowedTo k /\
  (trivialHandle 0, opponent g) ∈ allowedTo k.

(** The grants the six ciphertexts of a started game hold. *)
Definition grants_ok (k : Coprocessor) (g : Game) : Prop :=
  started g = true ->
  ledger_granted k g /\ stakes_granted k g /\ zero_granted k g.

Definition game_ok (n : Z) (k : Coprocessor) (id : Z) (g : Game) : Prop :=
  (creator g <> address0 <-> 0 <= id < n) /\
  (creator g = address0 -> g = emptyGame) /\
  (creator g <> address0 -> opponent g <> creator g) /\
  (creator g <> address0 -> 1 <= round g <= uint32_max) /\
  (started g = true -> opponent g <> address0) /\
  (started g = false ->
     creatorSubmitted g = false /\ opponentSubmitted g = false) /\
  (started g = true -> ledger_ok g) /\
  grants_ok k g.

(** Grants exist only on handles that were handed out. *)
Definition acl_below (k : Coprocessor) : Prop :=
  (forall h, h ∈ allowedThis k -> h < nextHandle k) /\
  (forall h a, (h, a) ∈ allowedTo k -> h < nextHandle k).

Definition lists_ok (s : State) (p : address) : Prop :=
  NoDup (playerGames s p) /\
  forall id, id ∈ playerGames s p ->
    p <> address0 /\
    (p = creator (getGame s id) \/ p = opponent (getGame s id)).

Record Inv (s : State) : Prop := {
  inv_next : 0 <= nextGameId s <= uint256_max;
  inv_game : forall id, game_ok (nextGameId s) (fhe s) id (getGame s id);
  inv_acl : acl_below (fhe s);
  inv_lists : forall p, lists_ok s p;
  inv_counter : firstHandle <= nextHandle (fhe s)
}.

(** One coprocessor state extends another: handles and grants only
    accumulate. *)
Definition extends (k k' : Coprocessor) : Prop :=
  nextHandle k <= nextHandle k' /\
  allowedThis k ⊆ allowedThis k' /\
  allowedTo k ⊆ allowedTo k'.

(** ** Concrete runs *)

Definition alice : address := 0xA11CE.
Definition bob : address := 0xB0B.

(** create, join. *)
Definition lobby : list (address * Call) :=
  [(alice, CreateGame); (bob, JoinGame 0)].

(** create, join, start. *)
Definition opening : list (address * Call) :=
  lobby ++ [(alice, StartGame 0)].

(** create, join, start, creator stakes 25, opponent stakes 10. *)
Definition duel : list (address * Call) :=
  opening ++
  [(alice, SubmitStake 0 (External 7 (Some 25)));
   (bob, SubmitStake 0 (External 8 (Some 10)))].

(** The state a run ends in ([init] when it reverts). *)
Definition after (txs : list (address * Call)) : State :=
  match run txs init with inr s => s | inl _ => init end.

(** ** What the two ciphertext-producing transitions leave

    [opened g k g' k'] describes the record [g'] and coprocessor [k']
    after [startGame] ran on [g] and [k]; [settled g k g' k'] does the
    same for [_resolveRound]. *)

Record opened (g : Game) (k : Coprocessor) (g' : Game) (k' : Coprocessor)
  : Prop := {
  op_creator : creator g' = creator g;
  op_opponent : opponent g' = opponent g;
  op_started : started g' = true;
  op_round : round g' = round g;
  op_cb : plain (creatorBalance g') = 100;
  op_ob : plain (opponentBalance g') = 100;
  op_cs : plain (creatorScore g') = 0;
  op_os : plain (opponentScore g') = 0;
  op_sc : plain (creatorStake g') = 0;
  op_so : plain (opponentStake g') = 0;
  op_csub : creatorSubmitted g' = false;
  op_osub : opponentSubmitted g' = false;
  op_hcb : handle (creatorBalance g') = trivialHandle 100;
  op_hob : handle (opponentBalance g') = trivialHandle 100;
  op_hcs : handle (creatorScore g') = trivialHandle 0;
  op_hos : handle (opponentScore g') = trivialHandle 0;
  op_hsc : handle (creatorStake g') = trivialHandle 0;
  op_hso : handle (opponentStake g') = trivialHandle 0;
  op_next : nextHandle k' = nextHandle k;
  op_this : allowedThis k' =
            {[handle (opponentScore g')]} ∪ ({[handle (creatorScore g')]} ∪
            ({[handle (opponentBalance g')]} ∪
            ({[handle (creatorBalance g')]} ∪ allowedThis k)));
  op_to : allowedTo k' =
          {[(handle (opponentScore g'), opponent g)]} ∪
          ({[(handle (opponentScore g'), creator g)]} ∪
          ({[(handle (creatorScore g'), opponent g)]} ∪
          ({[(handle (creatorScore g'), creator g)]} ∪
          ({[(handle (opponentBalance g'), opponent g)]} ∪
          ({[(handle (creatorBalance g'), creator g)]} ∪ allowedTo k)))))
}.

Record settled (g : Game) (k : Coprocessor) (g' : Game) (k' : Coprocessor)
  : Prop := {
  st_creator : creator g' = creator g;
  st_opponent : opponent g' = opponent g;
  st_started : started g' = started g;
  st_round : round g' = round g + 1;
  st_cb : plain (creatorBalance g') =
          settledBalance (plain (creatorBalance g))
            (effective (plain (creatorStake g)) (plain (creatorBalance g)))
            (effective (plain (opponentStake g)) (plain (opponentBalance g)));
  st_ob : plain (opponentBalance g') =
          settledBalance (plain (opponentBalance g))
            (effective (plain (opponentStake g)) (plain (opponentBalance g)))
            (effective (plain (creatorStake g)) (plain (creatorBalance g)));
  st_cs : plain (creatorScore g') =
          settledScore (plain (creatorScore g))
            (effective (plain (creatorStake g)) (plain (creatorBalance g)))
            (effective (plain (opponentStake g)) (plain (opponentBalance g)));
  st_os : plain (opponentScore g') =
          settledScore (plain (opponentScore g))
            (effective (plain (opponentStake g)) (plain (opponentBalance g)))
            (effective (plain (creatorStake g)) (plain (creatorBalance g)));
  st_sc : plain (creatorStake g') = 0;
  st_so : plain (opponentStake g') = 0;
  st_csub : creatorSubmitted g' = false;
  st_osub : opponentSubmitted g' = false;
  st_hcb : handle (creatorBalance g') = nextHandle k + 7;
  st_hob : handle (opponentBalance g') = nextHandle k + 11;
  st_hcs : handle (creatorScore g') = nextHandle k + 13;
  st_hos : handle (opponentScore g') = nextHandle k + 15;
  st_hsc : handle (creatorStake g') = trivialHandle 0;
  st_hso : handle (opponentStake g') = trivialHandle 0;
  st_next : nextHandle k' = nextHandle k + 16;
  st_this : allowedThis k' =
            {[handle (opponentScore g')]} ∪ ({[handle (creatorScore g')]} ∪
            ({[handle (opponentBalance g')]} ∪
            ({[handle (creatorBalance g')]} ∪ allowedThis k)));
  st_to : allowedTo k' =
          {[(handle (opponentScore g'), opponent g)]} ∪
          ({[(handle (opponentScore g'), creator g)]} ∪
          ({[(handle (creatorScore g'), opponent g)]} ∪
          ({[(handle (creatorScore g'), creator g)]} ∪
          ({[(handle (opponentBalance g'), opponent g)]} ∪
          ({[(handle (creatorBalance g'), creator g)]} ∪ allowedTo k)))))
}.

(** The record and coprocessor after [sender]'s stake [v] was imported,
    granted and stored, before any settlement. *)
Definition importedStake (k : Coprocessor) (v : Z) : euint32 :=
  Euint32 (nextHandle k) (wrap32 v).

Definition withStake (g : Game) (sender : address) (e : euint32) : Game :=
  if sender =? creator g
  then set_creatorSubmitted true (set_creatorStake e g)
  else set_opponentSubmitted true (set_opponentStake e g).

Definition withImport (k : Coprocessor) (sender : address) (v : Z)
  : Coprocessor :=
  allow (importedStake k v) sender
    (allowThis (importedStake k v) (snd (new32 (wrap32 v) k))).

(** Assembles a state. *)
Definition mkState (n : Z) (gs : gmap Z Game) (ps : gmap address (list Z))
    (k : Coprocessor) (l : list Event) : State :=
  {| nextGameId := n; games := gs; gamesByPlayer := ps; fhe := k; events := l |}.

(** The context of a call. *)
Definition ctx (g : Game) (k : Coprocessor) (l : list Event) : Ctx :=
  {| game := g; cop := k; log := l |}.

(** Revert semantics: the storage after a call. *)
Definition commit (s : State) (r : Result State) : State :=
  match r with inl _ => s | inr s' => s' end.

(** The identifiers among [ids] whose game is open, in the order of
    [ids]. *)
Fixpoint openIds (s : State) (ids : list Z) : list Z :=
  match ids with
  | [] => []
  | i :: rest =>
      if isOpen (getGame s i) then i :: openIds s rest else openIds s rest
  end.

Definition nonzero_senders (txs : list (address * Call)) : bool :=
  forallb (fun tx => negb (fst tx =? address0)) txs.

(** States of the concrete runs. *)
Definition created : State := after [(alice, CreateGame)].
Definition joined : State := after lobby.
Definition atStart : State := after opening.
Definition midRound : State :=
  after (opening ++ [(alice, SubmitStake 0 (External 7 (Some 25)))]).
Definition finished : State := after duel.

(** ** Further invariants of the reachable states *)

(** The six ciphertexts of a started game are initialised, on handles
    the coprocessor handed out. *)
Definition handles_issued (k : Coprocessor) (g : Game) : Prop :=
  started g = true ->
  Forall (fun v => 0 < handle v < nextHandle k)
    [creatorBalance g; opponentBalance g; creatorScore g; opponentScore g;
     creatorStake g; opponentStake g].

(** The players of the started games. *)
Definition plays (s : State) (a : address) : Prop :=
  a <> address0 /\
  exists gid, started (getGame s gid) = true /\
    (a = creator (getGame s gid) \/ a = opponent (getGame s gid)).


Record Inv2 (s : State) : Prop := {
  inv_handle : 0 < nextHandle (fhe s);
  inv_issued : forall gid, handles_issued (fhe s) (getGame s gid);
  inv_flags : forall gid,
    ~ (creatorSubmitted (getGame s gid) = true /\
       opponentSubmitted (getGame s gid) = true);
  inv_member : forall gid,
    (creator (getGame s gid) <> address0 ->
     gid ∈ playerGames s (creator (getGame s gid))) /\
    (opponent (getGame s gid) <> address0 ->
     gid ∈ playerGames s (opponent (getGame s gid)))
}.

(** One list is the beginning of the other. *)
Definition extends_list {A} (l l' : list A) : Prop :=
  exists suffix, l' = l ++ suffix.

(** The game record a transaction writes to. *)
Definition touched (c : Call) (s : State) : Z :=
  match c with
  | CreateGame => nextGameId s
  | JoinGame gameId => gameId
  | StartGame gameId => gameId
  | SubmitStake gameId _ => gameId
  end.

(** The creations recorded in an event log, oldest first. *)
Definition creationOf (e : Event) : option (Z * address) :=
  match e with
  | GameCreated gameId who => Some (gameId, who)
  | _ => None
  end.

Definition creations (l : list Event) : list (Z * address) :=
  omap creationOf l.

(** The duel of [midRound] with its round counter at the largest
    [uint32]. *)
Definition lastRound : State :=
  mkState (nextGameId midRound)
    (<[0 := set_round uint32_max (getGame midRound 0)]> (games midRound))
    (gamesByPlayer midRound) (fhe midRound) (events midRound).

(** * Proofs *)

(** ** Arithmetic *)

Lemma wrap32_small z : 0 <= z <= uint32_max -> wrap32 z = z.
Proof. unfold wrap32, uint32_max. intros H. apply Z.mod_small. lia. Qed.

Lemma wrap32_range z : is_uint32 (wrap32 z).
Proof.
  unfold is_uint32, wrap32, uint32_max.
  pose proof (Z.mod_pos_bound z (2 ^ 32) ltac:(lia)). lia.
Qed.

Lemma uint32_max_eq : uint32_max = 4294967295.
Proof. reflexivity. Qed.

Lemma trivialHandle_range v : 0 < trivialHandle v < firstHandle.
Proof.
  unfold trivialHandle, firstHandle, wrap32.
  pose proof (Z.mod_pos_bound v (2 ^ 32) ltac:(lia)). lia.
Qed.


(** ** Running a body statement by statement *)

Lemma bind_inr {A B} (m : M A) (k : A -> M B) c a c' r :
  m c = inr (a, c') -> k a c' = r -> bind m k c = r.
Proof. intros Hm Hk. unfold bind. rewrite Hm. exact Hk. Qed.

Lemma bind_inl {A B} (m : M A) (k : A -> M B) c e :
  m c = inl e -> bind m k c = inl e.
Proof. intros Hm. unfold bind. rewrite Hm. reflexivity. Qed.

(** [prim tac] evaluates one statement; [tac] settles a guard the
    evaluation is stuck on. *)
Ltac prim tac := cbn; first [ reflexivity | tac; cbn; reflexivity ].

Ltac run1 tac :=
  lazymatch goal with
  | |- bind _ _ _ = inl _ =>
      first [ eapply bind_inr; [ prim tac | cbv beta ]
            | apply bind_inl; prim tac ]
  | |- bind _ _ _ = _ => eapply bind_inr; [ prim tac | cbv beta ]
  end.

Ltac run tac := repeat (run1 tac).

(** Opens the record of a game whose two players are set, so that the
    guards on [address(0)] compute. *)
Ltac open_game g Hc Ho :=
  destruct g as [c o st r cb ob cs os sc so csub osub];
  cbn in Hc, Ho |- *; unfold address0 in Hc, Ho;
  destruct c as [|c|c]; [done| |];
  (destruct o as [|o|o]; [done| |]).

(** ** Settlement *)

Lemma resolveRound_ok gid g k l :
  creator g <> address0 -> opponent g <> address0 ->
  round g < uint32_max ->
  exists g' k' l',
    _resolveRound gid {| game := g; cop := k; log := l |}
    = inr (tt, {| game := g'; cop := k'; log := l' |}) /\
    settled g k g' k'.
Proof.
  intros Hc Ho Hr.
  open_game g Hc Ho; cbn in Hr;
    assert (Hle : (r + 1 <=? uint32_max) = true) by (apply Z.leb_le; lia);
    do 3 eexists; (split;
      [ unfold _resolveRound; run ltac:(unfold checked_add; rewrite Hle);
        cbn; reflexivity |]);
    constructor; cbn; try reflexivity; lia.
Qed.

Lemma resolveRound_panic gid g k l :
  creator g <> address0 -> opponent g <> address0 ->
  uint32_max <= round g ->
  _resolveRound gid {| game := g; cop := k; log := l |} = inl Panic.
Proof.
  intros Hc Ho Hr.
  open_game g Hc Ho; cbn in Hr;
    assert (Hle : (r + 1 <=? uint32_max) = false) by (apply Z.leb_gt; lia);
    unfold _resolveRound; run ltac:(unfold checked_add; rewrite Hle).
Qed.

(** ** The bodies of the entry points *)

Lemma joinGame_body_run sender gid g k l :
  joinGame_body sender gid (ctx g k l) =
  if creator g =? address0 then inl NotFound
  else if opponent g =? address0 then
    if creator g =? sender then inl SelfJoin
    else inr (tt, ctx (set_opponent sender g) k l)
  else inl AlreadyFull.
Proof.
  unfold joinGame_body, gameExists, bind, load, require, assign, ctx. cbn.
  destruct (creator g =? address0); cbn; [reflexivity|].
  destruct (opponent g =? address0); cbn; [|reflexivity].
  destruct (creator g =? sender); reflexivity.
Qed.

Lemma startGame_body_ok sender gid g k l :
  creator g <> address0 -> opponent g <> address0 ->
  sender = creator g \/ sender = opponent g ->
  started g = false ->
  exists g' k',
    startGame_body sender gid (ctx g k l)
    = inr (tt, ctx g' k' (l ++ [GameStarted gid])) /\
    opened g k g' k'.
Proof.
  intros Hc Ho Hp Hs. unfold ctx.
  assert (Hpart : (sender =? creator g) || (sender =? opponent g) = true).
  { destruct Hp as [->| ->]; rewrite Z.eqb_refl; [reflexivity|].
    apply orb_true_r. }
  open_game g Hc Ho; cbn in Hs, Hpart; subst st;
    do 2 eexists; (split;
      [ unfold startGame_body; run ltac:(rewrite Hpart); reflexivity |]);
    constructor; cbn; try reflexivity; lia.
Qed.

Lemma startGame_body_err sender gid g k l :
  (creator g = address0 ->
   startGame_body sender gid (ctx g k l) = inl NotFound) /\
  (creator g <> address0 -> sender <> creator g -> sender <> opponent g ->
   startGame_body sender gid (ctx g k l) = inl NotParticipant) /\
  (creator g <> address0 -> sender = creator g \/ sender = opponent g ->
   started g = true ->
   startGame_body sender gid (ctx g k l) = inl AlreadyStarted) /\
  (creator g <> address0 -> sender = creator g \/ sender = opponent g ->
   started g = false -> opponent g = address0 ->
   startGame_body sender gid (ctx g k l) = inl NoOpponent).
Proof.
  unfold ctx, address0.
  destruct g as [c o st r cb ob cs os sc so csub osub]; cbn.
  repeat split.
  - intros ->. unfold startGame_body. run idtac.
  - intros Hc H1 H2.
    assert (E0 : (c =? 0) = false) by (apply Z.eqb_neq; done).
    assert (E1 : (sender =? c) = false) by (apply Z.eqb_neq; done).
    assert (E2 : (sender =? o) = false) by (apply Z.eqb_neq; done).
    unfold startGame_body. run ltac:(unfold address0; rewrite ?E0, ?E1, ?E2).
  - intros Hc Hp ->.
    assert (E0 : (c =? 0) = false) by (apply Z.eqb_neq; done).
    assert (E1 : (sender =? c) || (sender =? o) = true).
    { destruct Hp as [->| ->]; rewrite Z.eqb_refl; [reflexivity|].
      apply orb_true_r. }
    unfold startGame_body. run ltac:(unfold address0; rewrite ?E0, ?E1).
  - intros Hc Hp -> ->.
    assert (E0 : (c =? 0) = false) by (apply Z.eqb_neq; done).
    assert (E1 : (sender =? c) || (sender =? 0) = true).
    { destruct Hp as [->| ->]; rewrite Z.eqb_refl; [reflexivity|].
      apply orb_true_r. }
    unfold startGame_body. run ltac:(unfold address0; rewrite ?E0, ?E1).
Qed.

Lemma participant_guard (sender c o : Z) :
  sender = c \/ sender = o -> (sender =? c) || (sender =? o) = true.
Proof.
  intros [->| ->]; rewrite Z.eqb_refl; [reflexivity|apply orb_true_r].
Qed.

Lemma settle_tail gid c :
  (if true && true then _resolveRound gid else ret tt) c
  = _resolveRound gid c.
Proof. reflexivity. Qed.

(** The stake is stored; what is left of the body is the test for a
    complete round. *)
Lemma submitStake_body_first sender gid x v g k l :
  creator g <> address0 -> sender <> address0 ->
  sender = creator g \/ sender = opponent g ->
  started g = true ->
  inputProof x = Some v ->
  (if sender =? creator g then creatorSubmitted g else opponentSubmitted g)
  = false ->
  (if sender =? creator g then opponentSubmitted g else creatorSubmitted g)
  = false ->
  submitStake_body sender gid x (ctx g k l) =
  inr (tt, ctx (withStake g sender (importedStake k v))
             (withImport k sender v)
             (l ++ [StakeSubmitted gid sender (importedStake k v)])).
Proof.
  intros Hc Hs Hp Hst Hx Hsub Hoth.
  apply participant_guard in Hp.
  unfold ctx, withStake, withImport, importedStake, address0 in *.
  destruct g as [c o st r cb ob cs os sc so csub osub]; cbn in *.
  destruct x as [h p]; cbn in Hx; subst p st.
  assert (E0 : (c =? 0) = false) by (apply Z.eqb_neq; done).
  assert (E1 : (sender =? 0) = false) by (apply Z.eqb_neq; done).
  destruct (sender =? c) eqn:E2; subst; cbn;
    unfold submitStake_body;
    run ltac:(unfold _allowTo, address0; rewrite ?E0, ?E1, ?E2, ?Hp);
    reflexivity.
Qed.

Lemma submitStake_body_second sender gid x v g k l :
  creator g <> address0 -> sender <> address0 ->
  sender = creator g \/ sender = opponent g ->
  started g = true ->
  inputProof x = Some v ->
  (if sender =? creator g then creatorSubmitted g else opponentSubmitted g)
  = false ->
  (if sender =? creator g then opponentSubmitted g else creatorSubmitted g)
  = true ->
  submitStake_body sender gid x (ctx g k l) =
  _resolveRound gid
    (ctx (withStake g sender (importedStake k v))
         (withImport k sender v)
         (l ++ [StakeSubmitted gid sender (importedStake k v)])).
Proof.
  intros Hc Hs Hp Hst Hx Hsub Hoth.
  apply participant_guard in Hp.
  unfold address0 in *.
  destruct g as [c o st r cb ob cs os sc so csub osub];
    cbn [creator opponent started creatorSubmitted opponentSubmitted] in *.
  destruct x as [h p]; cbn in Hx; subst p st.
  assert (E0 : (c =? 0) = false) by (apply Z.eqb_neq; done).
  assert (E1 : (sender =? 0) = false) by (apply Z.eqb_neq; done).
  destruct (sender =? c) eqn:E2; subst;
    unfold submitStake_body, ctx at 1;
    run ltac:(unfold _allowTo, address0; rewrite ?E0, ?E1, ?E2, ?Hp);
    rewrite settle_tail; f_equal;
    unfold ctx, withStake, withImport, importedStake;
    cbn [creator]; rewrite E2; reflexivity.
Qed.

Lemma submitStake_body_err sender gid x g k l :
  (creator g = address0 ->
   submitStake_body sender gid x (ctx g k l) = inl NotFound) /\
  (creator g <> address0 -> sender <> creator g -> sender <> opponent g ->
   submitStake_body sender gid x (ctx g k l) = inl NotParticipant) /\
  (creator g <> address0 -> sender = creator g \/ sender = opponent g ->
   started g = false ->
   submitStake_body sender gid x (ctx g k l) = inl NotStarted) /\
  (creator g <> address0 -> sender = creator g \/ sender = opponent g ->
   started g = true -> inputProof x = None ->
   submitStake_body sender gid x (ctx g k l) = inl InvalidProof) /\
  (creator g <> address0 -> sender = creator g \/ sender = opponent g ->
   started g = true -> sender <> address0 ->
   (exists v, inputProof x = Some v) ->
   (if sender =? creator g then creatorSubmitted g else opponentSubmitted g)
   = true ->
   submitStake_body sender gid x (ctx g k l) = inl DuplicateSubmission).
Proof.
  unfold ctx, address0.
  destruct g as [c o st r cb ob cs os sc so csub osub]; cbn.
  destruct x as [h p]; cbn.
  repeat split.
  - intros ->. unfold submitStake_body. run idtac.
  - intros Hc H1 H2.
    assert (E0 : (c =? 0) = false) by (apply Z.eqb_neq; done).
    assert (E1 : (sender =? c) = false) by (apply Z.eqb_neq; done).
    assert (E2 : (sender =? o) = false) by (apply Z.eqb_neq; done).
    unfold submitStake_body. run ltac:(unfold address0; rewrite ?E0, ?E1, ?E2).
  - intros Hc Hp ->. apply participant_guard in Hp.
    assert (E0 : (c =? 0) = false) by (apply Z.eqb_neq; done).
    unfold submitStake_body. run ltac:(unfold address0; rewrite ?E0, ?Hp).
  - intros Hc Hp -> ->. apply participant_guard in Hp.
    assert (E0 : (c =? 0) = false) by (apply Z.eqb_neq; done).
    unfold submitStake_body. run ltac:(unfold address0; rewrite ?E0, ?Hp).
  - intros Hc Hp -> Hs [v ->] Hsub. apply participant_guard in Hp.
    assert (E0 : (c =? 0) = false) by (apply Z.eqb_neq; done).
    assert (E1 : (sender =? 0) = false) by (apply Z.eqb_neq; done).
    destruct (sender =? c) eqn:E2; subst.
    + unfold submitStake_body.
      run ltac:(unfold _allowTo, address0; rewrite ?E0, ?E1, ?E2, ?Hp).
    + unfold submitStake_body.
      run ltac:(unfold _allowTo, address0; rewrite ?E0, ?E1, ?E2, ?Hp).
Qed.

(** ** Storage lemmas *)

Lemma getGame_insert n (m : gmap Z Game) p k l gid g id :
  getGame (mkState n (<[gid := g]> m) p k l) id =
  if decide (id = gid) then g else default emptyGame (m !! id).
Proof.
  unfold getGame, mkState; cbn. destruct (decide (id = gid)) as [->|Hne].
  - by rewrite lookup_insert_eq.
  - by rewrite lookup_insert_ne.
Qed.

Lemma onGame_ctx gid body s :
  onGame gid body s =
  match body (ctx (getGame s gid) (fhe s) (events s)) with
  | inl e => inl e
  | inr (_, c) =>
      inr (mkState (nextGameId s) (<[gid := game c]> (games s))
             (gamesByPlayer s) (cop c) (log c))
  end.
Proof. reflexivity. Qed.

(** ** The entry points, case by case *)

Lemma createGame_run sender s :
  createGame sender s =
  if nextGameId s + 1 <=? uint256_max then
    inr (mkState (nextGameId s + 1)
           (<[nextGameId s :=
                set_round 1 (set_creator sender (getGame s (nextGameId s)))]>
              (games s))
           (<[sender := playerGames s sender ++ [nextGameId s]]>
              (gamesByPlayer s))
           (fhe s)
           (events s ++ [GameCreated (nextGameId s) sender]),
         nextGameId s)
  else inl Panic.
Proof.
  unfold createGame, checked_add.
  destruct (nextGameId s + 1 <=? uint256_max); reflexivity.
Qed.

Lemma joinGame_run sender gid s :
  joinGame sender gid s =
  let g := getGame s gid in
  if creator g =? address0 then inl NotFound
  else if opponent g =? address0 then
    if creator g =? sender then inl SelfJoin
    else inr (mkState (nextGameId s)
                (<[gid := set_opponent sender g]> (games s))
                (<[sender := playerGames s sender ++ [gid]]>
                   (gamesByPlayer s))
                (fhe s)
                (events s ++ [GameJoined gid sender]))
  else inl AlreadyFull.
Proof.
  unfold joinGame. rewrite onGame_ctx, joinGame_body_run. cbn zeta.
  destruct (creator (getGame s gid) =? address0); [reflexivity|].
  destruct (opponent (getGame s gid) =? address0); [|reflexivity].
  destruct (creator (getGame s gid) =? sender); reflexivity.
Qed.

Lemma startGame_ok sender gid s :
  let g := getGame s gid in
  creator g <> address0 -> opponent g <> address0 ->
  sender = creator g \/ sender = opponent g ->
  started g = false ->
  exists g' k',
    startGame sender gid s =
    inr (mkState (nextGameId s) (<[gid := g']> (games s)) (gamesByPlayer s)
           k' (events s ++ [GameStarted gid])) /\
    opened g (fhe s) g' k'.
Proof.
  intros g Hc Ho Hp Hs.
  destruct (startGame_body_ok sender gid g (fhe s) (events s) Hc Ho Hp Hs)
    as (g' & k' & Hrun & Hop).
  exists g', k'. split; [|exact Hop].
  unfold startGame. rewrite onGame_ctx. fold g. rewrite Hrun. reflexivity.
Qed.

Lemma startGame_guards sender gid s s' :
  startGame sender gid s = inr s' ->
  let g := getGame s gid in
  creator g <> address0 /\ opponent g <> address0 /\
  (sender = creator g \/ sender = opponent g) /\ started g = false.
Proof.
  intros H g. unfold startGame in H. rewrite onGame_ctx in H. fold g in H.
  destruct (startGame_body_err sender gid g (fhe s) (events s))
    as (E1 & E2 & E3 & E4).
  destruct (decide (creator g = address0)) as [Hc|Hc].
  { rewrite (E1 Hc) in H. discriminate. }
  destruct (decide (sender = creator g)) as [Hsc|Hsc];
    destruct (decide (sender = opponent g)) as [Hso|Hso].
  all: try (rewrite (E2 Hc Hsc Hso) in H; discriminate).
  all: assert (Hp : sender = creator g \/ sender = opponent g) by tauto.
  all: destruct (started g) eqn:Hst;
    [rewrite (E3 Hc Hp eq_refl) in H; discriminate|].
  all: destruct (decide (opponent g = address0)) as [Ho|Ho];
    [rewrite (E4 Hc Hp eq_refl Ho) in H; discriminate|].
  all: done.
Qed.

Lemma startGame_inv sender gid s s' :
  startGame sender gid s = inr s' ->
  let g := getGame s gid in
  creator g <> address0 /\ opponent g <> address0 /\
  (sender = creator g \/ sender = opponent g) /\ started g = false /\
  exists g' k',
    s' = mkState (nextGameId s) (<[gid := g']> (games s)) (gamesByPlayer s)
           k' (events s ++ [GameStarted gid]) /\
    opened g (fhe s) g' k'.
Proof.
  intros H g.
  destruct (startGame_guards _ _ _ _ H) as (Hc & Ho & Hp & Hs).
  repeat (split; [assumption|]).
  destruct (startGame_ok sender gid s Hc Ho Hp Hs) as (g' & k' & E & Hop).
  exists g', k'. split; [congruence|exact Hop].
Qed.

Lemma withStake_fields g sender e :
  creator (withStake g sender e) = creator g /\
  opponent (withStake g sender e) = opponent g /\
  started (withStake g sender e) = started g /\
  round (withStake g sender e) = round g /\
  creatorBalance (withStake g sender e) = creatorBalance g /\
  opponentBalance (withStake g sender e) = opponentBalance g /\
  creatorScore (withStake g sender e) = creatorScore g /\
  opponentScore (withStake g sender e) = opponentScore g.
Proof. unfold withStake. destruct (sender =? creator g); cbn; done. Qed.

Lemma withStake_creator g e :
  creatorStake (withStake g (creator g) e) = e /\
  opponentStake (withStake g (creator g) e) = opponentStake g /\
  creatorSubmitted (withStake g (creator g) e) = true /\
  opponentSubmitted (withStake g (creator g) e) = opponentSubmitted g.
Proof. unfold withStake. rewrite Z.eqb_refl. cbn. done. Qed.

Lemma withStake_opponent g sender e :
  sender <> creator g ->
  creatorStake (withStake g sender e) = creatorStake g /\
  opponentStake (withStake g sender e) = e /\
  creatorSubmitted (withStake g sender e) = creatorSubmitted g /\
  opponentSubmitted (withStake g sender e) = true.
Proof.
  intros H. unfold withStake.
  destruct (Z.eqb_spec sender (creator g)); [done|]. cbn. done.
Qed.

Lemma submitStake_guards sender gid x s s' :
  submitStake sender gid x s = inr s' -> sender <> address0 ->
  let g := getGame s gid in
  creator g <> address0 /\ (sender = creator g \/ sender = opponent g) /\
  started g = true /\ (exists v, inputProof x = Some v) /\
  (if sender =? creator g then creatorSubmitted g else opponentSubmitted g)
  = false.
Proof.
  intros H Hs g. unfold submitStake in H. rewrite onGame_ctx in H. fold g in H.
  destruct (submitStake_body_err sender gid x g (fhe s) (events s))
    as (E1 & E2 & E3 & E4 & E5).
  destruct (decide (creator g = address0)) as [Hc|Hc].
  { rewrite (E1 Hc) in H. discriminate. }
  destruct (decide (sender = creator g)) as [Hsc|Hsc];
    destruct (decide (sender = opponent g)) as [Hso|Hso].
  all: try (rewrite (E2 Hc Hsc Hso) in H; discriminate).
  all: assert (Hp : sender = creator g \/ sender = opponent g) by tauto.
  all: destruct (started g) eqn:Hst;
    [|rewrite (E3 Hc Hp eq_refl) in H; discriminate].
  all: destruct (inputProof x) as [v|] eqn:Hx;
    [|rewrite (E4 Hc Hp eq_refl eq_refl) in H; discriminate].
  all: destruct (if sender =? creator g then creatorSubmitted g
                 else opponentSubmitted g) eqn:Hsub;
    [rewrite (E5 Hc Hp eq_refl Hs (ex_intro _ v eq_refl) eq_refl) in H;
     discriminate|].
  all: eauto 10.
Qed.

Lemma submitStake_first sender gid x v s :
  let g := getGame s gid in
  creator g <> address0 -> sender <> address0 ->
  sender = creator g \/ sender = opponent g ->
  started g = true ->
  inputProof x = Some v ->
  (if sender =? creator g then creatorSubmitted g else opponentSubmitted g)
  = false ->
  (if sender =? creator g then opponentSubmitted g else creatorSubmitted g)
  = false ->
  submitStake sender gid x s =
  inr (mkState (nextGameId s)
         (<[gid := withStake g sender (importedStake (fhe s) v)]> (games s))
         (gamesByPlayer s)
         (withImport (fhe s) sender v)
         (events s ++
          [StakeSubmitted gid sender (importedStake (fhe s) v)])).
Proof.
  intros g Hc Hs Hp Hst Hx Hsub Hoth.
  unfold submitStake. rewrite onGame_ctx. fold g.
  rewrite (submitStake_body_first _ _ _ v _ _ _ Hc Hs Hp Hst Hx Hsub Hoth).
  reflexivity.
Qed.

Lemma submitStake_second sender gid x v s :
  let g := getGame s gid in
  creator g <> address0 -> opponent g <> address0 -> sender <> address0 ->
  sender = creator g \/ sender = opponent g ->
  started g = true ->
  inputProof x = Some v ->
  (if sender =? creator g then creatorSubmitted g else opponentSubmitted g)
  = false ->
  (if sender =? creator g then opponentSubmitted g else creatorSubmitted g)
  = true ->
  (uint32_max <= round g /\ submitStake sender gid x s = inl Panic) \/
  (round g < uint32_max /\
   exists g' k' l',
     submitStake sender gid x s =
     inr (mkState (nextGameId s) (<[gid := g']> (games s)) (gamesByPlayer s)
            k' l') /\
     settled (withStake g sender (importedStake (fhe s) v))
       (withImport (fhe s) sender v) g' k').
Proof.
  intros g Hc Ho Hs Hp Hst Hx Hsub Hoth.
  unfold submitStake. rewrite onGame_ctx. fold g.
  rewrite (submitStake_body_second _ _ _ v _ _ _ Hc Hs Hp Hst Hx Hsub Hoth).
  set (e := importedStake (fhe s) v).
  destruct (withStake_fields g sender e) as (F1 & F2 & _ & F4 & _).
  destruct (Z_lt_le_dec (round g) uint32_max) as [Hr|Hr].
  - right. split; [exact Hr|].
    destruct (resolveRound_ok gid (withStake g sender e)
                (withImport (fhe s) sender v)
                (events s ++ [StakeSubmitted gid sender e]))
      as (g' & k' & l' & Hrun & Hset); try congruence.
    exists g', k', l'. unfold ctx. rewrite Hrun. split; [reflexivity|exact Hset].
  - left. split; [exact Hr|].
    unfold ctx. rewrite resolveRound_panic; [reflexivity|congruence..].
Qed.

(** ** The invariant holds in every reachable state *)

Lemma playerGames_insert n m (p : gmap address (list Z)) k l a v b :
  playerGames (mkState n m (<[a := v]> p) k l) b =
  if decide (b = a) then v else default [] (p !! b).
Proof.
  unfold playerGames, mkState; cbn. destruct (decide (b = a)) as [->|Hne].
  - by rewrite lookup_insert_eq.
  - by rewrite lookup_insert_ne.
Qed.

Lemma extends_refl k : extends k k.
Proof. unfold extends. split; [lia|]. split; set_solver. Qed.

Lemma extends_trans k1 k2 k3 : extends k1 k2 -> extends k2 k3 -> extends k1 k3.
Proof.
  unfold extends. intros (A1 & A2 & A3) (B1 & B2 & B3).
  split; [lia|]. split; set_solver.
Qed.

Lemma grants_ok_frame k k' g : extends k k' -> grants_ok k g -> grants_ok k' g.
Proof.
  unfold extends, grants_ok, ledger_granted, stakes_granted, zero_granted,
    isAllowedThis, isAllowed.
  intros (_ & Ht & Ha) G Hst. specialize (G Hst).
  intuition auto.
Qed.

Lemma game_ok_frame n k k' id g :
  extends k k' -> game_ok n k id g -> game_ok n k' id g.
Proof.
  unfold game_ok. intros He H. intuition eauto using grants_ok_frame.
Qed.

Lemma game_ok_empty n k id : ~ (0 <= id < n) -> game_ok n k id emptyGame.
Proof.
  intros Hid. unfold game_ok, grants_ok; cbn. unfold address0.
  intuition (try done; try lia).
Qed.

Lemma Inv_init : Inv init.
Proof.
  constructor.
  - cbn. unfold uint256_max. lia.
  - intros id. apply game_ok_empty. cbn. lia.
  - split; cbn; set_solver.
  - intros p. unfold lists_ok, playerGames; cbn. rewrite lookup_empty; cbn.
    split; [constructor|]. intros id H. by apply not_elem_of_nil in H.
  - cbn. lia.
Qed.

(** A transition that rewrites one record and keeps its players. *)
Lemma Inv_update s gid g' k' l' :
  Inv s -> extends (fhe s) k' -> acl_below k' ->
  game_ok (nextGameId s) k' gid g' ->
  creator g' = creator (getGame s gid) ->
  opponent g' = opponent (getGame s gid) ->
  Inv (mkState (nextGameId s) (<[gid := g']> (games s)) (gamesByPlayer s)
         k' l').
Proof.
  intros [Hn Hg Ha Hl Hk] He Hacl Hok Ec Eo. constructor.
  - exact Hn.
  - intros id. rewrite getGame_insert. destruct (decide (id = gid)) as [->|_].
    + exact Hok.
    + apply (game_ok_frame _ _ _ _ _ He), Hg.
  - exact Hacl.
  - intros p. destruct (Hl p) as [Hnd Hmem]. split; [exact Hnd|].
    intros id Hin. specialize (Hmem id Hin). rewrite getGame_insert.
    destruct (decide (id = gid)) as [->|_]; [|exact Hmem].
    rewrite Ec, Eo. exact Hmem.
  - cbn. destruct He as [He _]. lia.
Qed.

(** The encrypted-0 stakes share the handle of the encryption of 0 that
    was granted as the initial score. *)
Lemma zero_stakes_granted k g :
  handle (creatorStake g) = trivialHandle 0 ->
  handle (opponentStake g) = trivialHandle 0 ->
  zero_granted k g -> stakes_granted k g.
Proof.
  unfold zero_granted, stakes_granted, isAllowedThis, isAllowed.
  intros -> -> (Z1 & Z2 & Z3). auto.
Qed.

(** The grants [startGame] and [_resolveRound] issue, from the two
    equations on the access lists. *)
Lemma grants_issued k k' g g' :
  creator g' = creator g -> opponent g' = opponent g ->
  allowedThis k' =
    {[handle (opponentScore g')]} ∪ ({[handle (creatorScore g')]} ∪
    ({[handle (opponentBalance g')]} ∪
    ({[handle (creatorBalance g')]} ∪ allowedThis k))) ->
  allowedTo k' =
    {[(handle (opponentScore g'), opponent g)]} ∪
    ({[(handle (opponentScore g'), creator g)]} ∪
    ({[(handle (creatorScore g'), opponent g)]} ∪
    ({[(handle (creatorScore g'), creator g)]} ∪
    ({[(handle (opponentBalance g'), opponent g)]} ∪
    ({[(handle (creatorBalance g'), creator g)]} ∪ allowedTo k))))) ->
  ledger_granted k' g' /\
  allowedThis k ⊆ allowedThis k' /\ allowedTo k ⊆ allowedTo k'.
Proof.
  intros Ec Eo Et Ea.
  unfold ledger_granted, isAllowedThis, isAllowed.
  rewrite Et, Ea, Ec, Eo. clear. repeat split; set_solver +.
Qed.

Lemma acl_below_issued k k' g g' :
  acl_below k -> nextHandle k <= nextHandle k' ->
  handle (creatorBalance g') < nextHandle k' ->
  handle (opponentBalance g') < nextHandle k' ->
  handle (creatorScore g') < nextHandle k' ->
  handle (opponentScore g') < nextHandle k' ->
  allowedThis k' =
    {[handle (opponentScore g')]} ∪ ({[handle (creatorScore g')]} ∪
    ({[handle (opponentBalance g')]} ∪
    ({[handle (creatorBalance g')]} ∪ allowedThis k))) ->
  allowedTo k' =
    {[(handle (opponentScore g'), opponent g)]} ∪
    ({[(handle (opponentScore g'), creator g)]} ∪
    ({[(handle (creatorScore g'), opponent g)]} ∪
    ({[(handle (creatorScore g'), creator g)]} ∪
    ({[(handle (opponentBalance g'), opponent g)]} ∪
    ({[(handle (creatorBalance g'), creator g)]} ∪ allowedTo k))))) ->
  acl_below k'.
Proof.
  intros [A1 A2] Hn H1 H2 H3 H4 Et Ea. split.
  - intros h. rewrite Et, !elem_of_union, !elem_of_singleton.
    intros [->|[->|[->|[->|Hin]]]]; try assumption.
    specialize (A1 h Hin). lia.
  - intros h a. rewrite Ea, !elem_of_union, !elem_of_singleton.
    intros [E|[E|[E|[E|[E|[E|Hin]]]]]]; try (injection E as -> ->; assumption).
    specialize (A2 h a Hin). lia.
Qed.

(** *** Arithmetic of a settlement *)

Lemma settled_plain_exact cb ob sc so :
  0 <= cb -> 0 <= ob -> cb + ob <= uint32_max -> 0 <= sc -> 0 <= so ->
  let ec := effective sc cb in
  let eo := effective so ob in
  0 <= ec <= cb /\ 0 <= eo <= ob /\
  settledBalance cb ec eo =
    (if eo <? ec then cb + eo else if ec <? eo then cb - ec else cb) /\
  settledBalance ob eo ec =
    (if ec <? eo then ob + ec else if eo <? ec then ob - eo else ob).
Proof.
  intros Hcb Hob Hsum Hsc Hso ec eo.
  assert (Hec : 0 <= ec <= cb) by (unfold ec, effective; lia).
  assert (Heo : 0 <= eo <= ob) by (unfold eo, effective; lia).
  split; [exact Hec|]. split; [exact Heo|].
  unfold settledBalance.
  split; destruct (Z.ltb_spec eo ec), (Z.ltb_spec ec eo);
    try reflexivity; try lia; apply wrap32_small; lia.
Qed.

Lemma ledger_ok_settled g k g' k' :
  ledger_ok g -> round g < uint32_max -> settled g k g' k' -> ledger_ok g'.
Proof.
  intros (Hsum & Hcb & Hob & Hcs & Hos & Hsc & [Hs1 _] & [Hs2 _]) Hr S.
  pose proof uint32_max_eq as Hmax.
  destruct (settled_plain_exact (plain (creatorBalance g))
              (plain (opponentBalance g)) (plain (creatorStake g))
              (plain (opponentStake g))) as (Hec & Heo & Ecb & Eob);
    try lia.
  unfold ledger_ok.
  rewrite (st_cb _ _ _ _ S), (st_ob _ _ _ _ S), (st_cs _ _ _ _ S),
    (st_os _ _ _ _ S), (st_sc _ _ _ _ S), (st_so _ _ _ _ S),
    (st_round _ _ _ _ S), Ecb, Eob.
  unfold settledScore, is_uint32.
  set (ec := effective (plain (creatorStake g)) (plain (creatorBalance g))) in *.
  set (eo := effective (plain (opponentStake g)) (plain (opponentBalance g))) in *.
  destruct (Z.ltb_spec eo ec), (Z.ltb_spec ec eo);
    rewrite ?wrap32_small by lia; lia.
Qed.

(** *** Each entry point preserves the invariant *)

Lemma Inv_startGame sender gid s s' :
  Inv s -> startGame sender gid s = inr s' -> Inv s'.
Proof.
  intros Hinv H.
  destruct (startGame_inv _ _ _ _ H)
    as (Hc & Ho & Hp & Hs & g' & k' & -> & Hop).
  set (g := getGame s gid) in *.
  destruct (inv_game s Hinv gid) as (G1 & G2 & G3 & G4 & G5 & G6 & G7 & G8).
  fold g in G1, G2, G3, G4, G5, G6, G7, G8.
  destruct Hop as [Ec Eo Est Er Pcb Pob Pcs Pos Psc Pso Fc Fo
                     Hcb Hob Hcs Hos Hsc Hso Hn Et Ea].
  destruct (grants_issued (fhe s) k' g g' Ec Eo Et Ea) as (Hg & St & Sa).
  pose proof (inv_counter s Hinv) as Hk.
  pose proof (trivialHandle_range 0) as R0.
  pose proof (trivialHandle_range 100) as R100.
  assert (Hz : zero_granted k' g').
  { destruct Hg as (_ & _ & T3 & _ & _ & _ & D3 & D4 & _).
    unfold zero_granted. unfold isAllowedThis, isAllowed in T3, D3, D4.
    rewrite Hcs in T3, D3, D4. auto. }
  apply Inv_update; try assumption.
  - split; [lia|]. split; assumption.
  - apply (acl_below_issued (fhe s) k' g g'); try assumption; try lia.
    apply (inv_acl s Hinv).
  - pose proof uint32_max_eq. specialize (G4 Hc).
    refine (conj _ (conj _ (conj _ (conj _ (conj _ (conj _ (conj _ _))))))).
    + rewrite Ec. exact G1.
    + rewrite Ec. tauto.
    + rewrite Ec, Eo. exact G3.
    + rewrite Er. intros _. exact G4.
    + rewrite Eo. intros _. exact Ho.
    + rewrite Est. discriminate.
    + intros _. unfold ledger_ok, is_uint32.
      rewrite Pcb, Pob, Pcs, Pos, Psc, Pso, Er. lia.
    + intros _. split; [exact Hg|]. split; [|exact Hz].
      exact (zero_stakes_granted k' g' Hsc Hso Hz).
Qed.

Lemma withImport_facts k sender v :
  nextHandle (withImport k sender v) = nextHandle k + 1 /\
  allowedThis (withImport k sender v) = {[nextHandle k]} ∪ allowedThis k /\
  allowedTo (withImport k sender v) = {[(nextHandle k, sender)]} ∪ allowedTo k.
Proof. unfold withImport, importedStake; cbn. done. Qed.

Lemma withImport_extends k sender v :
  acl_below k ->
  extends k (withImport k sender v) /\ acl_below (withImport k sender v) /\
  isAllowedThis (withImport k sender v) (importedStake k v) /\
  isAllowed (withImport k sender v) (importedStake k v) sender.
Proof.
  intros [A1 A2].
  destruct (withImport_facts k sender v) as (En & Et & Ea).
  unfold extends, acl_below, isAllowedThis, isAllowed.
  rewrite En, Et, Ea. cbn.
  refine (conj (conj _ (conj _ _)) (conj (conj _ _) (conj _ _))).
  - lia.
  - apply union_subseteq_r.
  - apply union_subseteq_r.
  - intros h. rewrite elem_of_union, elem_of_singleton.
    intros [->|Hin]; [lia|]. specialize (A1 h Hin). lia.
  - intros h a. rewrite elem_of_union, elem_of_singleton.
    intros [E|Hin]; [injection E as -> ->; lia|].
    specialize (A2 h a Hin). lia.
  - apply elem_of_union_l, elem_of_singleton. reflexivity.
  - apply elem_of_union_l, elem_of_singleton. reflexivity.
Qed.

(** The record with the stake stored satisfies the invariant of a
    record, against the coprocessor that imported the stake. *)
Lemma game_ok_withStake n k gid g sender v :
  game_ok n k gid g -> acl_below k ->
  creator g <> address0 -> started g = true ->
  sender = creator g \/ sender = opponent g ->
  game_ok n (withImport k sender v) gid
    (withStake g sender (importedStake k v)).
Proof.
  intros (G1 & G2 & G3 & G4 & G5 & G6 & G7 & G8) Hacl Hc Hst Hp.
  destruct (withImport_extends k sender v Hacl) as (He & _ & Hthis & Hto).
  pose proof (grants_ok_frame _ _ _ He G8 Hst)
    as (Q1 & (Q2 & Q3 & Q4 & Q5) & Q6).
  set (e := importedStake k v) in *.
  destruct (withStake_fields g sender e)
    as (F1 & F2 & F3 & F4 & F5 & F6 & F7 & F8).
  specialize (G7 Hst).
  destruct G7 as (L1 & L2 & L3 & L4 & L5 & L6 & L7 & L8).
  assert (He32 : is_uint32 (plain e)) by apply wrap32_range.
  unfold game_ok, ledger_ok, grants_ok, ledger_granted, stakes_granted,
    zero_granted in *.
  rewrite F1, F2, F3, F4, F5, F6, F7, F8.
  destruct (decide (sender = creator g)) as [->|Hne].
  - destruct (withStake_creator g e) as (S1 & S2 & S3 & S4).
    rewrite S1, S2, S3, S4.
    repeat split; try tauto; try congruence; try apply He32; try apply L8.
  - destruct (withStake_opponent g sender e Hne) as (S1 & S2 & S3 & S4).
    assert (sender = opponent g) as -> by tauto.
    rewrite S1, S2, S3, S4.
    repeat split; try tauto; try congruence; try apply He32; try apply L7.
Qed.

Lemma settled_coprocessor g k g' k' :
  acl_below k -> settled g k g' k' ->
  extends k k' /\ acl_below k' /\ ledger_granted k' g'.
Proof.
  intros Hacl S.
  destruct S as [Ec Eo Est Er Pcb Pob Pcs Pos Psc Pso Fc Fo
                   Hcb Hob Hcs Hos Hsc Hso Hn Et Ea].
  destruct (grants_issued k k' g g' Ec Eo Et Ea) as (Hg & St & Sa).
  split; [|split].
  - split; [lia|]. split; assumption.
  - apply (acl_below_issued k k' g g'); try assumption; lia.
  - exact Hg.
Qed.

Lemma game_ok_settled n k gid g g' k' :
  game_ok n k gid g -> acl_below k ->
  creator g <> address0 -> started g = true -> round g < uint32_max ->
  settled g k g' k' ->
  game_ok n k' gid g'.
Proof.
  intros (G1 & G2 & G3 & G4 & G5 & G6 & G7 & G8) Hacl Hc Hst Hr S.
  destruct (settled_coprocessor g k g' k' Hacl S) as (He & _ & Hg).
  pose proof (ledger_ok_settled g k g' k' (G7 Hst) Hr S) as Hled.
  destruct (grants_ok_frame _ _ _ He G8 Hst) as (_ & _ & Hz).
  destruct S as [Ec Eo Est Er Pcb Pob Pcs Pos Psc Pso Fc Fo
                   Hcb Hob Hcs Hos Hsc Hso Hn Et Ea].
  assert (Hz' : zero_granted k' g').
  { unfold zero_granted in *. rewrite Ec, Eo. exact Hz. }
  specialize (G4 Hc).
  refine (conj _ (conj _ (conj _ (conj _ (conj _ (conj _ (conj _ _))))))).
  - rewrite Ec. exact G1.
  - rewrite Ec. tauto.
  - rewrite Ec, Eo. exact G3.
  - rewrite Er. intros _. lia.
  - rewrite Eo, Est. exact G5.
  - rewrite Est, Hst. discriminate.
  - intros _. exact Hled.
  - intros _. split; [exact Hg|]. split; [|exact Hz'].
    exact (zero_stakes_granted k' g' Hsc Hso Hz').
Qed.

Lemma Inv_submitStake sender gid x s s' :
  Inv s -> sender <> address0 ->
  submitStake sender gid x s = inr s' -> Inv s'.
Proof.
  intros Hinv Hs H.
  destruct (submitStake_guards _ _ _ _ _ H Hs)
    as (Hc & Hp & Hst & [v Hx] & Hsub).
  set (g := getGame s gid) in *.
  pose proof (inv_game s Hinv gid) as Hok. fold g in Hok.
  pose proof (inv_acl s Hinv) as Hacl.
  assert (Ho : opponent g <> address0).
  { destruct Hok as (_ & _ & _ & _ & G5 & _). exact (G5 Hst). }
  set (e := importedStake (fhe s) v).
  destruct (withStake_fields g sender e) as (F1 & F2 & F3 & F4 & _).
  destruct (withImport_extends (fhe s) sender v Hacl) as (He1 & Hacl1 & _).
  pose proof (game_ok_withStake _ _ _ _ sender v Hok Hacl Hc Hst Hp) as Hok1.
  fold e in Hok1.
  destruct (if sender =? creator g then opponentSubmitted g
            else creatorSubmitted g) eqn:Hoth.
  - destruct (submitStake_second sender gid x v s Hc Ho Hs Hp Hst Hx Hsub Hoth)
      as [[_ E]|(Hr & g' & k' & l' & E & S)]; [congruence|].
    fold g e in S. rewrite E in H. injection H as <-.
    destruct (settled_coprocessor _ _ _ _ Hacl1 S) as (He2 & Hacl2 & _).
    apply Inv_update; try assumption.
    + exact (extends_trans _ _ _ He1 He2).
    + apply (game_ok_settled _ _ _ _ _ _ Hok1 Hacl1 ltac:(congruence)
               ltac:(congruence) ltac:(rewrite F4; exact Hr) S).
    + rewrite (st_creator _ _ _ _ S). exact F1.
    + rewrite (st_opponent _ _ _ _ S). exact F2.
  - rewrite (submitStake_first sender gid x v s Hc Hs Hp Hst Hx Hsub Hoth) in H.
    injection H as <-. fold g e.
    apply Inv_update; assumption.
Qed.

Lemma joinGame_inv sender gid s s' :
  joinGame sender gid s = inr s' ->
  let g := getGame s gid in
  creator g <> address0 /\ opponent g = address0 /\ creator g <> sender /\
  s' = mkState (nextGameId s) (<[gid := set_opponent sender g]> (games s))
         (<[sender := playerGames s sender ++ [gid]]> (gamesByPlayer s))
         (fhe s) (events s ++ [GameJoined gid sender]).
Proof.
  intros H g. rewrite joinGame_run in H. cbn zeta in H. fold g in H.
  destruct (Z.eqb_spec (creator g) address0); [discriminate|].
  destruct (Z.eqb_spec (opponent g) address0); [|discriminate].
  destruct (Z.eqb_spec (creator g) sender); [discriminate|].
  injection H as <-. done.
Qed.

Lemma Inv_joinGame sender gid s s' :
  Inv s -> sender <> address0 -> joinGame sender gid s = inr s' -> Inv s'.
Proof.
  intros Hinv Hs H.
  destruct (joinGame_inv _ _ _ _ H) as (Hc & Ho & Hne & ->).
  set (g := getGame s gid) in *.
  destruct Hinv as [Hn Hg Ha Hl Hk].
  pose proof (Hg gid) as Hgid. fold g in Hgid.
  destruct Hgid as (G1 & G2 & G3 & G4 & G5 & G6 & G7 & G8).
  assert (Hst : started g = false).
  { destruct (started g) eqn:E; [|reflexivity]. destruct (G5 eq_refl Ho). }
  destruct (G6 Hst) as [Fc Fo].
  constructor.
  - exact Hn.
  - intros id. rewrite getGame_insert. destruct (decide (id = gid)) as [->|_].
    + refine (conj _ (conj _ (conj _ (conj _ (conj _ (conj _ (conj _ _)))))));
        cbn.
      * exact G1.
      * tauto.
      * intros _. congruence.
      * exact G4.
      * rewrite Hst. discriminate.
      * intros _. split; assumption.
      * rewrite Hst. discriminate.
      * unfold grants_ok; cbn. rewrite Hst. discriminate.
    + apply Hg.
  - exact Ha.
  - intros p. destruct (Hl p) as [Hnd Hmem]. unfold lists_ok.
    rewrite playerGames_insert. fold (playerGames s p).
    assert (Hold : forall id, id ∈ playerGames s p ->
              p <> address0 /\
              (p = creator (getGame (mkState (nextGameId s)
                     (<[gid := set_opponent sender g]> (games s))
                     (<[sender := playerGames s sender ++ [gid]]>
                        (gamesByPlayer s))
                     (fhe s) (events s ++ [GameJoined gid sender])) id) \/
               p = opponent (getGame (mkState (nextGameId s)
                     (<[gid := set_opponent sender g]> (games s))
                     (<[sender := playerGames s sender ++ [gid]]>
                        (gamesByPlayer s))
                     (fhe s) (events s ++ [GameJoined gid sender])) id))).
    { intros id Hin. destruct (Hmem id Hin) as [Hp0 Hcase].
      split; [exact Hp0|]. rewrite getGame_insert.
      destruct (decide (id = gid)) as [->|_]; [|exact Hcase]. cbn.
      fold g in Hcase. destruct Hcase as [E|E]; [left; exact E|].
      congruence. }
    destruct (decide (p = sender)) as [->|Hp].
    + split.
      * apply NoDup_app. split; [exact Hnd|]. split; [|apply NoDup_singleton].
        intros id Hin Hin'. apply list_elem_of_singleton in Hin'. subst id.
        destruct (Hmem gid Hin) as [_ [E|E]]; fold g in E; congruence.
      * intros id Hin. apply elem_of_app in Hin. destruct Hin as [Hin|Hin].
        -- apply Hold, Hin.
        -- apply list_elem_of_singleton in Hin. subst id.
           split; [exact Hs|]. right. rewrite getGame_insert.
           rewrite decide_True by reflexivity. reflexivity.
    + split; [exact Hnd|]. exact Hold.
  - exact Hk.
Qed.

Lemma createGame_inv sender s s' gid :
  createGame sender s = inr (s', gid) ->
  nextGameId s + 1 <= uint256_max /\ gid = nextGameId s /\
  s' = mkState (nextGameId s + 1)
         (<[nextGameId s :=
              set_round 1 (set_creator sender (getGame s (nextGameId s)))]>
            (games s))
         (<[sender := playerGames s sender ++ [nextGameId s]]>
            (gamesByPlayer s))
         (fhe s)
         (events s ++ [GameCreated (nextGameId s) sender]).
Proof.
  rewrite createGame_run.
  destruct (Z.leb_spec (nextGameId s + 1) uint256_max); [|discriminate].
  intros E. injection E as <- <-. done.
Qed.

Lemma Inv_createGame sender s s' gid :
  Inv s -> sender <> address0 ->
  createGame sender s = inr (s', gid) -> Inv s'.
Proof.
  intros Hinv Hs H.
  destruct (createGame_inv _ _ _ _ H) as (Hle & -> & ->).
  destruct Hinv as [Hn Hg Ha Hl Hk].
  set (n := nextGameId s) in *.
  assert (Hempty : getGame s n = emptyGame).
  { destruct (Hg n) as (G1 & G2 & _). fold n in G1. apply G2.
    destruct (decide (creator (getGame s n) = address0)) as [E|E];
      [exact E|]. apply G1 in E. lia. }
  rewrite Hempty.
  constructor.
  - cbn. lia.
  - intros id. rewrite getGame_insert. cbn [nextGameId fhe mkState].
    destruct (decide (id = n)) as [->|Hid].
    + unfold game_ok, grants_ok; cbn. unfold uint32_max.
      repeat split; try done; try lia.
    + destruct (Hg id) as (G1 & G2 & G3 & G4 & G5 & G6 & G7 & G8).
      fold (getGame s id). fold n in G1.
      refine (conj _ (conj _ (conj _ (conj _ (conj _ (conj _ (conj _ _)))))));
        try assumption.
      rewrite G1. lia.
  - exact Ha.
  - intros p. destruct (Hl p) as [Hnd Hmem]. unfold lists_ok.
    rewrite playerGames_insert. fold (playerGames s p).
    assert (Hfresh : forall q, n ∉ playerGames s q).
    { intros q Hin. destruct (Hl q) as [_ Hm].
      destruct (Hm n Hin) as [Hq [E|E]]; rewrite Hempty in E; cbn in E;
        congruence. }
    assert (Hold : forall id, id ∈ playerGames s p ->
              p <> address0 /\
              (p = creator (getGame (mkState (n + 1)
                     (<[n := set_round 1 (set_creator sender emptyGame)]>
                        (games s))
                     (<[sender := playerGames s sender ++ [n]]>
                        (gamesByPlayer s))
                     (fhe s) (events s ++ [GameCreated n sender])) id) \/
               p = opponent (getGame (mkState (n + 1)
                     (<[n := set_round 1 (set_creator sender emptyGame)]>
                        (games s))
                     (<[sender := playerGames s sender ++ [n]]>
                        (gamesByPlayer s))
                     (fhe s) (events s ++ [GameCreated n sender])) id))).
    { intros id Hin. destruct (Hmem id Hin) as [Hp0 Hcase].
      split; [exact Hp0|]. rewrite getGame_insert.
      destruct (decide (id = n)) as [->|_]; [|exact Hcase].
      destruct (Hfresh p Hin). }
    destruct (decide (p = sender)) as [->|Hp].
    + split.
      * apply NoDup_app. split; [exact Hnd|]. split; [|apply NoDup_singleton].
        intros id Hin Hin'. apply list_elem_of_singleton in Hin'. subst id.
        exact (Hfresh sender Hin).
      * intros id Hin. apply elem_of_app in Hin. destruct Hin as [Hin|Hin].
        -- apply Hold, Hin.
        -- apply list_elem_of_singleton in Hin. subst id.
           split; [exact Hs|]. left. rewrite getGame_insert.
           rewrite decide_True by reflexivity. reflexivity.
    + split; [exact Hnd|]. exact Hold.
  - exact Hk.
Qed.

Lemma Inv_exec sender c s s' :
  Inv s -> sender <> address0 -> exec sender c s = inr s' -> Inv s'.
Proof.
  intros Hinv Hs H. destruct c as [|gid|gid|gid x]; cbn in H.
  - destruct (createGame sender s) as [e|[s1 gid]] eqn:E; [discriminate|].
    injection H as <-. exact (Inv_createGame _ _ _ _ Hinv Hs E).
  - exact (Inv_joinGame _ _ _ _ Hinv Hs H).
  - exact (Inv_startGame _ _ _ _ Hinv H).
  - exact (Inv_submitStake _ _ _ _ _ Hinv Hs H).
Qed.

Lemma reachable_Inv s : reachable s -> Inv s.
Proof.
  induction 1 as [|s sender c s' _ IH Hs H]; [exact Inv_init|].
  exact (Inv_exec _ _ _ _ IH Hs H).
Qed.

(** ** Consequences of the invariant *)

Lemma started_players s gid :
  Inv s -> started (getGame s gid) = true ->
  creator (getGame s gid) <> address0 /\
  opponent (getGame s gid) <> address0 /\
  opponent (getGame s gid) <> creator (getGame s gid) /\
  ledger_ok (getGame s gid) /\
  1 <= round (getGame s gid) <= uint32_max.
Proof.
  intros Hinv Hst.
  destruct (inv_game s Hinv gid) as (G1 & G2 & G3 & G4 & G5 & G6 & G7 & G8).
  assert (Hc : creator (getGame s gid) <> address0).
  { intros E. rewrite (G2 E) in Hst. discriminate. }
  split; [exact Hc|]. split; [exact (G5 Hst)|]. split; [exact (G3 Hc)|].
  split; [exact (G7 Hst)|exact (G4 Hc)].
Qed.

Lemma completes_flags s gid sender :
  Inv s -> completesRound (getGame s gid) sender ->
  let g := getGame s gid in
  (sender = creator g \/ sender = opponent g) /\
  (if sender =? creator g then creatorSubmitted g else opponentSubmitted g)
  = false /\
  (if sender =? creator g then opponentSubmitted g else creatorSubmitted g)
  = true.
Proof.
  intros Hinv [Hst Hcase]. cbv zeta.
  destruct (started_players s gid Hinv Hst) as (_ & _ & Hne & _).
  destruct Hcase as [(-> & F1 & F2)|(-> & F1 & F2)].
  - rewrite Z.eqb_refl. split; [left; reflexivity|split; assumption].
  - destruct (Z.eqb_spec (opponent (getGame s gid)) (creator (getGame s gid)));
      [contradiction|].
    split; [right; reflexivity|split; assumption].
Qed.

(** The submission that completes a round, in a reachable state. *)
Lemma completing_submission s sender gid x v :
  reachable s -> sender <> address0 -> inputProof x = Some v ->
  completesRound (getGame s gid) sender ->
  let g := getGame s gid in
  let g1 := withStake g sender (importedStake (fhe s) v) in
  plain (creatorStake g1) = roundStakeOfCreator g sender v /\
  plain (opponentStake g1) = roundStakeOfOpponent g sender v /\
  ledger_ok g1 /\
  ((uint32_max <= round g /\ submitStake sender gid x s = inl Panic) \/
   (round g < uint32_max /\
    exists g' k' l',
      submitStake sender gid x s =
      inr (mkState (nextGameId s) (<[gid := g']> (games s))
             (gamesByPlayer s) k' l') /\
      settled g1 (withImport (fhe s) sender v) g' k')).
Proof.
  intros Hreach Hs Hx Hcompl g g1.
  pose proof (reachable_Inv s Hreach) as Hinv.
  pose proof Hcompl as [Hst _].
  destruct (started_players s gid Hinv Hst) as (Hc & Ho & Hne & Hled & Hr).
  destruct (completes_flags s gid sender Hinv Hcompl) as (Hp & Hsub & Hoth).
  fold g in Hc, Ho, Hne, Hled, Hr, Hp, Hsub, Hoth, Hst.
  pose proof (game_ok_withStake _ _ _ _ sender v (inv_game s Hinv gid)
                (inv_acl s Hinv) Hc Hst Hp) as Hok1.
  fold g g1 in Hok1.
  destruct (withStake_fields g sender (importedStake (fhe s) v))
    as (_ & _ & F3 & _).
  fold g1 in F3.
  assert (Hled1 : ledger_ok g1).
  { destruct Hok1 as (_ & _ & _ & _ & _ & _ & G7 & _). apply G7. congruence. }
  split; [|split; [|split; [exact Hled1|]]].
  - unfold g1, withStake, roundStakeOfCreator.
    destruct (sender =? creator g); reflexivity.
  - unfold g1, withStake, roundStakeOfOpponent.
    destruct (sender =? creator g); reflexivity.
  - exact (submitStake_second sender gid x v s Hc Ho Hs Hp Hst Hx Hsub Hoth).
Qed.

(** The plaintexts before and after the submission that completes a
    round. *)
Lemma completing_settles s sender gid x v :
  reachable s -> sender <> address0 -> inputProof x = Some v ->
  completesRound (getGame s gid) sender ->
  let g := getGame s gid in
  let cb := plain (creatorBalance g) in
  let ob := plain (opponentBalance g) in
  let ec := effective (roundStakeOfCreator g sender v) cb in
  let eo := effective (roundStakeOfOpponent g sender v) ob in
  (cb + ob = 200 /\ 0 <= ec <= cb /\ 0 <= eo <= ob /\
   0 <= plain (creatorScore g) /\ 0 <= plain (opponentScore g) /\
   plain (creatorScore g) + plain (opponentScore g) < round g) /\
  (round g < uint32_max ->
   exists s', submitStake sender gid x s = inr s') /\
  (forall s', submitStake sender gid x s = inr s' ->
     let g' := getGame s' gid in
     round g < uint32_max /\ round g' = round g + 1 /\
     started g' = true /\
     plain (creatorBalance g') =
       (if eo <? ec then cb + eo else if ec <? eo then cb - ec else cb) /\
     plain (opponentBalance g') =
       (if ec <? eo then ob + ec else if eo <? ec then ob - eo else ob) /\
     plain (creatorScore g') =
       (if eo <? ec then plain (creatorScore g) + 1
        else plain (creatorScore g)) /\
     plain (opponentScore g') =
       (if ec <? eo then plain (opponentScore g) + 1
        else plain (opponentScore g)) /\
     creatorSubmitted g' = false /\ opponentSubmitted g' = false).
Proof.
  intros Hreach Hs Hx Hcompl g cb ob ec eo.
  destruct (completing_submission s sender gid x v Hreach Hs Hx Hcompl)
    as (Esc & Eso & Hled1 & Hcase).
  fold g in Esc, Eso, Hled1, Hcase.
  set (g1 := withStake g sender (importedStake (fhe s) v)) in *.
  destruct (withStake_fields g sender (importedStake (fhe s) v))
    as (F1 & F2 & F3 & F4 & F5 & F6 & F7 & F8).
  fold g1 in F1, F2, F3, F4, F5, F6, F7, F8.
  pose proof Hled1 as (Hsum & Hcb & Hob & Hcs & Hos & Hsc & [Hs1 _] & [Hs2 _]).
  rewrite F5, F6 in Hsum. rewrite F5 in Hcb. rewrite F6 in Hob.
  rewrite F7 in Hcs. rewrite F8 in Hos. rewrite F7, F8, F4 in Hsc.
  rewrite Esc in Hs1. rewrite Eso in Hs2.
  fold cb ob in Hsum, Hcb, Hob.
  pose proof uint32_max_eq as Hmax.
  destruct (settled_plain_exact cb ob (roundStakeOfCreator g sender v)
              (roundStakeOfOpponent g sender v)) as (Hec & Heo & Ecb & Eob);
    try lia.
  fold ec eo in Hec, Heo, Ecb, Eob.
  pose proof Hcompl as [Hst _]. fold g in Hst.
  split; [|split].
  - repeat split; lia.
  - intros Hr. destruct Hcase as [[Hbad _]|(_ & g' & k' & l' & E & _)]; [lia|].
    eexists. exact E.
  - intros s' H g'.
    destruct Hcase as [[_ E]|(Hr & g2 & k' & l' & E & S)]; [congruence|].
    rewrite E in H. injection H as <-.
    assert (Eg : g' = g2).
    { unfold g'. rewrite getGame_insert. by rewrite decide_True. }
    rewrite Eg.
    rewrite (st_round _ _ _ _ S), (st_started _ _ _ _ S),
      (st_cb _ _ _ _ S), (st_ob _ _ _ _ S), (st_cs _ _ _ _ S),
      (st_os _ _ _ _ S), (st_csub _ _ _ _ S), (st_osub _ _ _ _ S).
    rewrite F3, F4, F5, F6, F7, F8, Esc, Eso.
    fold cb ob ec eo. rewrite Ecb, Eob.
    repeat split; try assumption; try reflexivity.
    + unfold settledScore. destruct (eo <? ec); [|reflexivity].
      apply wrap32_small. lia.
    + unfold settledScore. destruct (ec <? eo); [|reflexivity].
      apply wrap32_small. lia.
Qed.

(** The [uint32] round counter bounds a game: at round [2^32 - 1] the
    checked increment of the settlement reverts, and with it the
    submission that would complete the round. *)
Lemma completing_reverts_at_ceiling s sender gid x v :
  reachable s -> sender <> address0 -> inputProof x = Some v ->
  completesRound (getGame s gid) sender ->
  round (getGame s gid) = uint32_max ->
  submitStake sender gid x s = inl Panic /\
  commit s (submitStake sender gid x s) = s.
Proof.
  intros Hreach Hs Hx Hcompl Hr.
  destruct (completing_submission s sender gid x v Hreach Hs Hx Hcompl)
    as (_ & _ & _ & [[_ E]|[Hlt _]]); [|lia].
  split; [exact E|]. rewrite E. reflexivity.
Qed.

(** ** Concrete runs *)

Lemma run_reachable txs : forall s s',
  reachable s -> nonzero_senders txs = true -> run txs s = inr s' ->
  reachable s'.
Proof.
  induction txs as [|[a c] txs IH]; intros s s' Hs Hnz Hrun; cbn in *.
  - injection Hrun as <-. exact Hs.
  - apply andb_prop in Hnz. destruct Hnz as [Ha Hnz].
    destruct (exec a c s) as [e|s1] eqn:E; [discriminate|].
    apply (IH s1 s'); [|exact Hnz|exact Hrun].
    apply (reach_step s a c s1 Hs); [|exact E].
    apply negb_true_iff, Z.eqb_neq in Ha. exact Ha.
Qed.

Lemma after_reachable txs : nonzero_senders txs = true -> reachable (after txs).
Proof.
  intros Hnz. unfold after. destruct (run txs init) as [e|s] eqn:E.
  - exact reach_init.
  - exact (run_reachable txs init s reach_init Hnz E).
Qed.

Lemma alice_nonzero : alice <> address0.
Proof. discriminate. Qed.

Lemma bob_nonzero : bob <> address0.
Proof. discriminate. Qed.

(** ** Players and records across a transaction *)

(** What a successful [submitStake] does to the record of its game. *)
Lemma submitStake_inv sender gid x s s' :
  Inv s -> sender <> address0 ->
  submitStake sender gid x s = inr s' ->
  started (getGame s gid) = true /\
  exists g' k' l',
    s' = mkState (nextGameId s) (<[gid := g']> (games s)) (gamesByPlayer s)
           k' l' /\
    creator g' = creator (getGame s gid) /\
    opponent g' = opponent (getGame s gid) /\
    started g' = true.
Proof.
  intros Hinv Hs H.
  destruct (submitStake_guards _ _ _ _ _ H Hs)
    as (Hc & Hp & Hst & [v Hx] & Hsub).
  split; [exact Hst|].
  set (g := getGame s gid) in *.
  destruct (started_players s gid Hinv Hst) as (_ & Ho & _).
  fold g in Ho.
  set (e := importedStake (fhe s) v).
  destruct (withStake_fields g sender e) as (F1 & F2 & F3 & _).
  destruct (if sender =? creator g then opponentSubmitted g
            else creatorSubmitted g) eqn:Hoth.
  - destruct (submitStake_second sender gid x v s Hc Ho Hs Hp Hst Hx Hsub Hoth)
      as [[_ E]|(Hr & g' & k' & l' & E & S)]; [congruence|].
    fold g e in S. rewrite E in H. injection H as <-.
    exists g', k', l'. split; [reflexivity|].
    rewrite (st_creator _ _ _ _ S), (st_opponent _ _ _ _ S),
      (st_started _ _ _ _ S).
    split; [exact F1|]. split; [exact F2|congruence].
  - rewrite (submitStake_first sender gid x v s Hc Hs Hp Hst Hx Hsub Hoth) in H.
    injection H as <-. fold g e.
    do 3 eexists. split; [reflexivity|].
    split; [exact F1|]. split; [exact F2|congruence].
Qed.

(** No transaction changes the creator of an existing game or an
    opponent that is set. *)
Lemma exec_players sender c s s' gid :
  Inv s -> sender <> address0 -> exec sender c s = inr s' ->
  (creator (getGame s gid) <> address0 ->
   creator (getGame s' gid) = creator (getGame s gid)) /\
  (opponent (getGame s gid) <> address0 ->
   opponent (getGame s' gid) = opponent (getGame s gid)).
Proof.
  intros Hinv Hs H.
  destruct (inv_game s Hinv gid) as (G1 & G2 & _).
  assert (Hopp : opponent (getGame s gid) <> address0 ->
                 creator (getGame s gid) <> address0).
  { intros Ho Ec. rewrite (G2 Ec) in Ho. apply Ho. reflexivity. }
  destruct c as [|gid0|gid0|gid0 x]; cbn in H.
  - destruct (createGame sender s) as [e|[s1 gid1]] eqn:E; [discriminate|].
    injection H as <-.
    destruct (createGame_inv _ _ _ _ E) as (_ & _ & ->).
    rewrite getGame_insert.
    destruct (decide (gid = nextGameId s)) as [->|_]; [|done].
    assert (Hc : ~ creator (getGame s (nextGameId s)) <> address0).
    { rewrite G1. lia. }
    split; intros; exfalso; auto.
  - destruct (joinGame_inv _ _ _ _ H) as (Hc & Ho & _ & ->).
    rewrite getGame_insert.
    destruct (decide (gid = gid0)) as [->|_]; [|done].
    cbn. split; [reflexivity|]. intros; contradiction.
  - destruct (startGame_inv _ _ _ _ H)
      as (_ & _ & _ & _ & g' & k' & -> & Hop).
    rewrite getGame_insert.
    destruct (decide (gid = gid0)) as [->|_]; [|done].
    rewrite (op_creator _ _ _ _ Hop), (op_opponent _ _ _ _ Hop). done.
  - destruct (submitStake_inv _ _ _ _ _ Hinv Hs H)
      as (_ & g' & k' & l' & -> & Ec & Eo & _).
    rewrite getGame_insert.
    destruct (decide (gid = gid0)) as [->|_]; [|done].
    rewrite Ec, Eo. done.
Qed.

(** ** The shape of a successful transaction *)

(** The settlement again, with the event it emits: the round number in
    [RoundResolved] is the one read before the increment. *)
Lemma resolveRound_event gid g k l :
  creator g <> address0 -> opponent g <> address0 ->
  round g < uint32_max ->
  exists g' k' l',
    _resolveRound gid {| game := g; cop := k; log := l |}
    = inr (tt, {| game := g'; cop := k'; log := l' |}) /\
    settled g k g' k' /\
    l' = l ++ [RoundResolved gid (round g)
                 (creatorBalance g') (opponentBalance g')
                 (creatorScore g') (opponentScore g')].
Proof.
  intros Hc Ho Hr.
  open_game g Hc Ho; cbn in Hr;
    assert (Hle : (r + 1 <=? uint32_max) = true) by (apply Z.leb_le; lia);
    do 3 eexists; (split;
      [ unfold _resolveRound; run ltac:(unfold checked_add; rewrite Hle);
        cbn; reflexivity |]);
    (split; [constructor; cbn; try reflexivity; lia|cbn; reflexivity]).
Qed.

(** Every successful [submitStake]: the stake is imported and stored,
    and the round is settled exactly when the other side's stake was
    already there. *)
Lemma submitStake_shape sender gid x s s' :
  Inv s -> sender <> address0 ->
  submitStake sender gid x s = inr s' ->
  let g := getGame s gid in
  exists v,
    inputProof x = Some v /\ started g = true /\
    creator g <> address0 /\ opponent g <> address0 /\
    (sender = creator g \/ sender = opponent g) /\
    (if sender =? creator g then creatorSubmitted g else opponentSubmitted g)
    = false /\
    let e := importedStake (fhe s) v in
    let g1 := withStake g sender e in
    let k1 := withImport (fhe s) sender v in
    let l1 := events s ++ [StakeSubmitted gid sender e] in
    ((if sender =? creator g then opponentSubmitted g else creatorSubmitted g)
     = false /\
     s' = mkState (nextGameId s) (<[gid := g1]> (games s)) (gamesByPlayer s)
            k1 l1) \/
    ((if sender =? creator g then opponentSubmitted g else creatorSubmitted g)
     = true /\ round g < uint32_max /\
     exists g' k',
       s' = mkState (nextGameId s) (<[gid := g']> (games s)) (gamesByPlayer s)
              k' (l1 ++ [RoundResolved gid (round g)
                           (creatorBalance g') (opponentBalance g')
                           (creatorScore g') (opponentScore g')]) /\
       settled g1 k1 g' k').
Proof.
  intros Hinv Hs H g.
  destruct (submitStake_guards _ _ _ _ _ H Hs)
    as (Hc & Hp & Hst & [v Hx] & Hsub).
  fold g in Hc, Hp, Hst, Hsub.
  destruct (started_players s gid Hinv Hst) as (_ & Ho & _). fold g in Ho.
  exists v. repeat (split; [assumption|]). cbv zeta.
  set (e := importedStake (fhe s) v).
  destruct (withStake_fields g sender e) as (F1 & F2 & F3 & F4 & _).
  destruct (if sender =? creator g then opponentSubmitted g
            else creatorSubmitted g) eqn:Hoth.
  - right. split; [reflexivity|].
    unfold submitStake in H. rewrite onGame_ctx in H. fold g in H.
    rewrite (submitStake_body_second _ _ _ v _ _ _ Hc Hs Hp Hst Hx Hsub Hoth)
      in H.
    fold e in H.
    destruct (Z_lt_le_dec (round g) uint32_max) as [Hr|Hr].
    + split; [exact Hr|].
      destruct (resolveRound_event gid (withStake g sender e)
                  (withImport (fhe s) sender v)
                  (events s ++ [StakeSubmitted gid sender e]))
        as (g' & k' & l' & Hrun & Hset & ->); try congruence.
      unfold ctx in H. rewrite Hrun in H. injection H as <-.
      exists g', k'. rewrite F4. split; [reflexivity|exact Hset].
    + unfold ctx in H. rewrite resolveRound_panic in H;
        [discriminate|congruence..].
  - left. split; [reflexivity|].
    rewrite (submitStake_first sender gid x v s Hc Hs Hp Hst Hx Hsub Hoth) in H.
    injection H as <-. reflexivity.
Qed.

(** ** The second invariant *)

Lemma handles_issued_frame k k' g :
  nextHandle k <= nextHandle k' -> handles_issued k g -> handles_issued k' g.
Proof.
  intros Hn H Hst. specialize (H Hst).
  eapply Forall_impl; [exact H|]. cbn. intros v Hv. lia.
Qed.

(** A transition that rewrites one record, keeps its players and leaves
    the lists of games alone. *)
Lemma Inv2_update s gid g' k' l' :
  Inv2 s -> nextHandle (fhe s) <= nextHandle k' ->
  handles_issued k' g' ->
  ~ (creatorSubmitted g' = true /\ opponentSubmitted g' = true) ->
  creator g' = creator (getGame s gid) ->
  opponent g' = opponent (getGame s gid) ->
  Inv2 (mkState (nextGameId s) (<[gid := g']> (games s)) (gamesByPlayer s)
          k' l').
Proof.
  intros [Hh Hi Hf Hm] Hn Hi' Hf' Ec Eo. constructor.
  - cbn. lia.
  - intros id. rewrite getGame_insert. cbn [fhe mkState].
    destruct (decide (id = gid)) as [->|_]; [exact Hi'|].
    apply (handles_issued_frame (fhe s)); [exact Hn|apply Hi].
  - intros id. rewrite getGame_insert.
    destruct (decide (id = gid)) as [->|_]; [exact Hf'|apply Hf].
  - intros id. rewrite getGame_insert.
    change (playerGames (mkState (nextGameId s) (<[gid:=g']> (games s))
                           (gamesByPlayer s) k' l'))
      with (playerGames s).
    destruct (decide (id = gid)) as [->|_]; [|apply Hm].
    rewrite Ec, Eo. apply Hm.
Qed.

Lemma Inv2_init : Inv2 init.
Proof.
  constructor; cbn.
  - unfold firstHandle. lia.
  - intros gid Hst. discriminate.
  - intros gid [H _]. discriminate.
  - intros gid. split; intros H; exfalso; apply H; reflexivity.
Qed.

Lemma Inv2_startGame sender gid s s' :
  Inv s -> Inv2 s -> startGame sender gid s = inr s' -> Inv2 s'.
Proof.
  intros Hinv Hinv2 H.
  destruct (startGame_inv _ _ _ _ H)
    as (Hc & Ho & Hp & Hs & g' & k' & -> & Hop).
  set (g := getGame s gid) in *.
  pose proof (inv_counter s Hinv) as Hk.
  pose proof (trivialHandle_range 0) as R0.
  pose proof (trivialHandle_range 100) as R100.
  destruct Hop as [Ec Eo Est Er Pcb Pob Pcs Pos Psc Pso Fc Fo
                     Hcb Hob Hcs Hos Hsc Hso Hn Et Ea].
  apply Inv2_update; try assumption.
  - lia.
  - intros _. repeat (apply Forall_cons; split; [lia|]). apply Forall_nil. done.
  - rewrite Fc. intros [E _]. discriminate.
Qed.

Lemma issued_withStake k g sender v :
  0 < nextHandle k -> started g = true -> handles_issued k g ->
  handles_issued (withImport k sender v)
    (withStake g sender (importedStake k v)).
Proof.
  intros Hh Hst Hi _. specialize (Hi Hst). rewrite !Forall_cons in Hi.
  destruct Hi as (I1 & I2 & I3 & I4 & I5 & I6 & _).
  unfold withStake. destruct (sender =? creator g); cbn;
    repeat (apply Forall_cons; split; [cbn; lia|]); apply Forall_nil; done.
Qed.

Lemma Inv2_submitStake sender gid x s s' :
  Inv s -> Inv2 s -> sender <> address0 ->
  submitStake sender gid x s = inr s' -> Inv2 s'.
Proof.
  intros Hinv Hinv2 Hs H.
  destruct (submitStake_shape _ _ _ _ _ Hinv Hs H)
    as (v & Hx & Hst & Hc & Ho & Hp & Hsub & Hcase).
  set (g := getGame s gid) in *.
  pose proof (inv_counter s Hinv) as Hk.
  pose proof (trivialHandle_range 0) as R0.
  pose proof (inv_handle s Hinv2) as Hh.
  pose proof (inv_issued s Hinv2 gid) as Hi. fold g in Hi.
  pose proof (inv_flags s Hinv2 gid) as Hfl. fold g in Hfl.
  set (e := importedStake (fhe s) v) in *.
  set (k1 := withImport (fhe s) sender v) in *.
  destruct (withStake_fields g sender e) as (F1 & F2 & F3 & F4 & _).
  destruct (withImport_facts (fhe s) sender v) as (En1 & _). fold k1 in En1.
  pose proof (issued_withStake (fhe s) g sender v Hh Hst Hi) as Hi1.
  fold e k1 in Hi1.
  destruct Hcase as [[Hoth ->]|(Hoth & Hr & g' & k' & -> & S)].
  - apply Inv2_update; try assumption.
    + lia.
    + unfold withStake. destruct (sender =? creator g); cbn;
        rewrite Hoth; intros [E1 E2]; discriminate.
  - destruct S as [Ec Eo Est Er Pcb Pob Pcs Pos Psc Pso Fc Fo
                     Hcb Hob Hcs Hos Hsc Hso Hn Et Ea].
    apply Inv2_update; try assumption.
    + lia.
    + intros _. repeat (apply Forall_cons; split; [lia|]).
      apply Forall_nil. done.
    + rewrite Fc. intros [E _]. discriminate.
    + rewrite Ec. exact F1.
    + rewrite Eo. exact F2.
Qed.

Lemma Inv2_joinGame sender gid s s' :
  Inv s -> Inv2 s -> sender <> address0 ->
  joinGame sender gid s = inr s' -> Inv2 s'.
Proof.
  intros Hinv [Hh Hi Hf Hm] Hs H.
  destruct (joinGame_inv _ _ _ _ H) as (Hcr & Ho & Hne & ->).
  set (g := getGame s gid) in *.
  assert (Hst : started g = false).
  { destruct (started g) eqn:E; [|reflexivity].
    destruct (started_players s gid Hinv E) as (_ & Ho' & _).
    contradiction. }
  constructor.
  - exact Hh.
  - intros id. rewrite getGame_insert. cbn [fhe mkState].
    destruct (decide (id = gid)) as [->|_]; [|apply Hi].
    intros E. cbn in E. congruence.
  - intros id. rewrite getGame_insert.
    destruct (decide (id = gid)) as [->|_]; [|apply Hf]. cbn. apply Hf.
  - intros id. rewrite getGame_insert.
    assert (Hgrow : forall p, id ∈ playerGames s p ->
              id ∈ playerGames (mkState (nextGameId s)
                     (<[gid := set_opponent sender g]> (games s))
                     (<[sender := playerGames s sender ++ [gid]]>
                        (gamesByPlayer s))
                     (fhe s) (events s ++ [GameJoined gid sender])) p).
    { intros p Hin. rewrite playerGames_insert.
      destruct (decide (p = sender)) as [->|_]; [|exact Hin].
      apply elem_of_app. left. exact Hin. }
    destruct (decide (id = gid)) as [->|_]; cbn.
    + split.
      * intros _. apply Hgrow. apply (Hm gid). exact Hcr.
      * intros _. rewrite playerGames_insert, decide_True by reflexivity.
        apply elem_of_app. right. apply list_elem_of_singleton. reflexivity.
    + destruct (Hm id) as [M1 M2]. split; intros E; apply Hgrow; auto.
Qed.

Lemma Inv2_createGame sender s s' gid :
  Inv s -> Inv2 s -> sender <> address0 ->
  createGame sender s = inr (s', gid) -> Inv2 s'.
Proof.
  intros Hinv [Hh Hi Hf Hm] Hs H.
  destruct (createGame_inv _ _ _ _ H) as (Hle & -> & ->).
  set (n := nextGameId s) in *.
  assert (Hempty : getGame s n = emptyGame).
  { destruct (inv_game s Hinv n) as (G1 & G2 & _). fold n in G1. apply G2.
    destruct (decide (creator (getGame s n) = address0)) as [E|E];
      [exact E|]. apply G1 in E. lia. }
  rewrite Hempty.
  constructor.
  - exact Hh.
  - intros id. rewrite getGame_insert. cbn [fhe mkState].
    destruct (decide (id = n)) as [->|_]; [|apply Hi].
    intros E. discriminate.
  - intros id. rewrite getGame_insert.
    destruct (decide (id = n)) as [->|_]; [|apply Hf].
    cbn. intros [E _]. discriminate.
  - intros id. rewrite getGame_insert.
    assert (Hgrow : forall p, id ∈ playerGames s p ->
              id ∈ playerGames (mkState (n + 1)
                     (<[n := set_round 1 (set_creator sender emptyGame)]>
                        (games s))
                     (<[sender := playerGames s sender ++ [n]]>
                        (gamesByPlayer s))
                     (fhe s) (events s ++ [GameCreated n sender])) p).
    { intros p Hin. rewrite playerGames_insert.
      destruct (decide (p = sender)) as [->|_]; [|exact Hin].
      apply elem_of_app. left. exact Hin. }
    destruct (decide (id = n)) as [->|_]; cbn.
    + split.
      * intros _. rewrite playerGames_insert, decide_True by reflexivity.
        apply elem_of_app. right. apply list_elem_of_singleton. reflexivity.
      * intros E. exfalso. apply E. reflexivity.
    + destruct (Hm id) as [M1 M2]. split; intros E; apply Hgrow; auto.
Qed.

Lemma Inv2_exec sender c s s' :
  Inv s -> Inv2 s -> sender <> address0 -> exec sender c s = inr s' ->
  Inv2 s'.
Proof.
  intros Hinv Hinv2 Hs H. destruct c as [|gid|gid|gid x]; cbn in H.
  - destruct (createGame sender s) as [e|[s1 gid]] eqn:E; [discriminate|].
    injection H as <-. exact (Inv2_createGame _ _ _ _ Hinv Hinv2 Hs E).
  - exact (Inv2_joinGame _ _ _ _ Hinv Hinv2 Hs H).
  - exact (Inv2_startGame _ _ _ _ Hinv Hinv2 H).
  - exact (Inv2_submitStake _ _ _ _ _ Hinv Hinv2 Hs H).
Qed.

Lemma reachable_Inv2 s : reachable s -> Inv2 s.
Proof.
  induction 1 as [|s sender c s' Hr IH Hs H]; [exact Inv2_init|].
  exact (Inv2_exec _ _ _ _ (reachable_Inv s Hr) IH Hs H).
Qed.

(** ** What a transaction leaves in place *)

Lemma extends_list_refl {A} (l : list A) : extends_list l l.
Proof. exists []. symmetry. apply app_nil_r. Qed.

Lemma extends_list_app {A} (l m : list A) : extends_list l (l ++ m).
Proof. exists m. reflexivity. Qed.

Lemma extends_list_app2 {A} (l m1 m2 : list A) :
  extends_list l ((l ++ m1) ++ m2).
Proof. exists (m1 ++ m2). symmetry. apply app_assoc. Qed.

Lemma playerGames_grow n m (p : gmap address (list Z)) k l a gid b s :
  gamesByPlayer s = p ->
  extends_list (playerGames s b)
    (playerGames (mkState n m (<[a := playerGames s a ++ [gid]]> p) k l) b).
Proof.
  intros <-. rewrite playerGames_insert.
  destruct (decide (b = a)) as [->|_].
  - apply extends_list_app.
  - apply extends_list_refl.
Qed.

Lemma exec_frame sender c s s' :
  Inv s -> sender <> address0 -> exec sender c s = inr s' ->
  nextGameId s <= nextGameId s' <= nextGameId s + 1 /\
  extends (fhe s) (fhe s') /\
  extends_list (events s) (events s') /\
  (forall p, extends_list (playerGames s p) (playerGames s' p)) /\
  (forall gid,
     (started (getGame s gid) = true -> started (getGame s' gid) = true) /\
     (creator (getGame s gid) <> address0 ->
      round (getGame s' gid) = round (getGame s gid) \/
      round (getGame s' gid) = round (getGame s gid) + 1)).
Proof.
  intros Hinv Hs H.
  pose proof (inv_acl s Hinv) as Hacl.
  destruct c as [|gid0|gid0|gid0 x]; cbn in H.
  - destruct (createGame sender s) as [e|[s1 gid1]] eqn:E; [discriminate|].
    injection H as <-.
    destruct (createGame_inv _ _ _ _ E) as (_ & _ & ->).
    assert (Hempty : getGame s (nextGameId s) = emptyGame).
    { destruct (inv_game s Hinv (nextGameId s)) as (G1 & G2 & _). apply G2.
      destruct (decide (creator (getGame s (nextGameId s)) = address0))
        as [E0|E0]; [exact E0|]. apply G1 in E0. lia. }
    split; [cbn; lia|]. split; [apply extends_refl|].
    split; [apply extends_list_app|].
    split; [intros p; apply playerGames_grow; reflexivity|].
    intros gid. rewrite getGame_insert.
    destruct (decide (gid = nextGameId s)) as [->|_]; [|tauto].
    rewrite Hempty. cbn. split; [discriminate|]. intros E0. exfalso.
    apply E0. reflexivity.
  - destruct (joinGame_inv _ _ _ _ H) as (_ & _ & _ & ->).
    split; [cbn; lia|]. split; [apply extends_refl|].
    split; [apply extends_list_app|].
    split; [intros p; apply playerGames_grow; reflexivity|].
    intros gid. rewrite getGame_insert.
    destruct (decide (gid = gid0)) as [->|_]; cbn; tauto.
  - destruct (startGame_inv _ _ _ _ H)
      as (_ & _ & _ & _ & g' & k' & -> & Hop).
    destruct Hop as [Ec Eo Est Er Pcb Pob Pcs Pos Psc Pso Fc Fo
                       Hcb Hob Hcs Hos Hsc Hso Hn Et Ea].
    destruct (grants_issued (fhe s) k' _ g' Ec Eo Et Ea) as (_ & St & Sa).
    split; [cbn; lia|].
    split; [cbn; split; [lia|split; assumption]|].
    split; [apply extends_list_app|].
    split; [intros p; apply extends_list_refl|].
    intros gid. rewrite getGame_insert.
    destruct (decide (gid = gid0)) as [->|_]; [|tauto].
    rewrite Est, Er. tauto.
  - destruct (submitStake_shape _ _ _ _ _ Hinv Hs H)
      as (v & Hx & Hst & Hc & Ho & Hp & Hsub & Hcase).
    destruct (withStake_fields (getGame s gid0) sender
                (importedStake (fhe s) v)) as (F1 & F2 & F3 & F4 & _).
    destruct (withImport_extends (fhe s) sender v Hacl) as (He1 & Hacl1 & _).
    destruct Hcase as [[Hoth ->]|(Hoth & Hr & g' & k' & -> & S)].
    + split; [cbn; lia|]. split; [exact He1|].
      split; [apply extends_list_app|].
      split; [intros p; apply extends_list_refl|].
      intros gid. rewrite getGame_insert.
      destruct (decide (gid = gid0)) as [->|_]; [|tauto].
      rewrite F3, F4. tauto.
    + destruct (settled_coprocessor _ _ _ _ Hacl1 S) as (He2 & _ & _).
      split; [cbn; lia|]. split; [exact (extends_trans _ _ _ He1 He2)|].
      split; [apply extends_list_app2|].
      split; [intros p; apply extends_list_refl|].
      intros gid. rewrite getGame_insert.
      destruct (decide (gid = gid0)) as [->|_]; [|tauto].
      rewrite (st_started _ _ _ _ S), (st_round _ _ _ _ S), F3, F4. tauto.
Qed.

(** ** Who is granted, and what the log names *)

Lemma plays_intro s gid a :
  started (getGame s gid) = true -> a <> address0 ->
  a = creator (getGame s gid) \/ a = opponent (getGame s gid) ->
  plays s a.
Proof. intros Hst Ha Hcase. split; [exact Ha|]. exists gid. auto. Qed.

Lemma plays_step sender c s s' a :
  Inv s -> sender <> address0 -> exec sender c s = inr s' ->
  plays s a -> plays s' a.
Proof.
  intros Hinv Hs H [Ha (gid & Hst & Hcase)].
  destruct (started_players s gid Hinv Hst) as (Hc & Ho & _).
  destruct (exec_frame sender c s s' Hinv Hs H) as (_ & _ & _ & _ & Hg).
  destruct (exec_players sender c s s' gid Hinv Hs H) as [Ec Eo].
  apply (plays_intro s' gid a); [apply (Hg gid), Hst|exact Ha|].
  rewrite (Ec Hc), (Eo Ho). exact Hcase.
Qed.

(** The decrypt grants [startGame] and [_resolveRound] issue name the
    creator and the opponent, nobody else. *)
Lemma issued_grantees k k' (hcb hob hcs hos : Z) (c o : address) h a :
  allowedTo k' =
    {[(hos, o)]} ∪ ({[(hos, c)]} ∪ ({[(hcs, o)]} ∪ ({[(hcs, c)]} ∪
    ({[(hob, o)]} ∪ ({[(hcb, c)]} ∪ allowedTo k))))) ->
  (h, a) ∈ allowedTo k' -> (h, a) ∈ allowedTo k \/ a = c \/ a = o.
Proof.
  intros ->. rewrite !elem_of_union, !elem_of_singleton.
  intros [E|[E|[E|[E|[E|[E|Hin]]]]]]; [..|left; exact Hin];
    injection E; intros; subst; auto.
Qed.

(** Every decrypt grant names a player of a started game. *)
Lemma grantees_play s :
  reachable s -> forall h a, (h, a) ∈ allowedTo (fhe s) -> plays s a.
Proof.
  induction 1 as [|s sender c s' Hreach IH Hs H].
  - intros h a Hin. cbn in Hin. by apply not_elem_of_empty in Hin.
  - pose proof (reachable_Inv s Hreach) as Hinv.
    assert (Hold : forall h a, (h, a) ∈ allowedTo (fhe s) -> plays s' a).
    { intros h a Hin. exact (plays_step _ _ _ _ _ Hinv Hs H (IH h a Hin)). }
    intros h a Hin.
    destruct c as [|gid|gid|gid x]; cbn in H.
    + destruct (createGame sender s) as [e|[s1 gid1]] eqn:E; [discriminate|].
      injection H as <-.
      destruct (createGame_inv _ _ _ _ E) as (_ & _ & ->).
      exact (Hold h a Hin).
    + destruct (joinGame_inv _ _ _ _ H) as (_ & _ & _ & ->).
      exact (Hold h a Hin).
    + destruct (startGame_inv _ _ _ _ H)
        as (Hc & Ho & _ & _ & g' & k' & -> & Hop).
      cbn [fhe mkState] in Hin.
      destruct (issued_grantees _ _ _ _ _ _ _ _ _ _ (op_to _ _ _ _ Hop) Hin)
        as [Hin'|Hnew]; [exact (Hold h a Hin')|].
      apply (plays_intro _ gid a).
      * rewrite getGame_insert, decide_True by reflexivity.
        exact (op_started _ _ _ _ Hop).
      * destruct Hnew as [->| ->]; assumption.
      * rewrite getGame_insert, decide_True by reflexivity.
        rewrite (op_creator _ _ _ _ Hop), (op_opponent _ _ _ _ Hop).
        exact Hnew.
    + destruct (submitStake_shape _ _ _ _ _ Hinv Hs H)
        as (v & Hx & Hst & Hc & Ho & Hp & Hsub & Hcase).
      destruct (withStake_fields (getGame s gid) sender
                  (importedStake (fhe s) v)) as (F1 & F2 & F3 & _).
      destruct (withImport_facts (fhe s) sender v) as (_ & _ & Ea1).
      assert (Himp : forall h a,
                (h, a) ∈ allowedTo (withImport (fhe s) sender v) ->
                (h, a) ∈ allowedTo (fhe s) \/ a = sender).
      { intros h0 a0. rewrite Ea1, elem_of_union, elem_of_singleton.
        intros [E|Hin0]; [|left; exact Hin0].
        injection E; intros; subst; auto. }
      destruct Hcase as [[Hoth ->]|(Hoth & Hr & g' & k' & -> & S)];
        cbn [fhe mkState] in Hin.
      * destruct (Himp h a Hin) as [Hin'| ->]; [exact (Hold h a Hin')|].
        apply (plays_intro _ gid sender); [|exact Hs|];
          rewrite getGame_insert, decide_True by reflexivity.
        -- rewrite F3. exact Hst.
        -- rewrite F1, F2. exact Hp.
      * assert (Hsome : (h, a) ∈ allowedTo (fhe s) \/
                        a = creator (getGame s gid) \/
                        a = opponent (getGame s gid)).
        { destruct (issued_grantees _ _ _ _ _ _ _ _ _ _
                      (st_to _ _ _ _ S) Hin) as [Hin1|Hnew].
          - destruct (Himp h a Hin1) as [Hin'| ->]; [left; exact Hin'|].
            right. exact Hp.
          - right. rewrite F1, F2 in Hnew. exact Hnew. }
        destruct Hsome as [Hin'|Hnew]; [exact (Hold h a Hin')|].
        apply (plays_intro _ gid a);
          rewrite ?getGame_insert, ?decide_True by reflexivity.
        -- rewrite (st_started _ _ _ _ S), F3. exact Hst.
        -- destruct Hnew as [->| ->]; assumption.
        -- rewrite (st_creator _ _ _ _ S), (st_opponent _ _ _ _ S), F1, F2.
           exact Hnew.
Qed.



(** ** Settlement (claims C1 to C4) *)

(** C1. In every reachable state, when a submission completes the round
    of a started game, settlement works on the effective stakes, the
    minimum of each side's submitted stake and its current balance.  If
    the creator's effective stake is strictly greater, the creator's
    balance grows by the opponent's effective stake, the opponent's
    balance shrinks by it, the creator's score grows by exactly 1 and the
    opponent's score is unchanged; symmetrically when the opponent's
    effective stake is strictly greater.  The settlement succeeds whenever
    the [uint32] round counter can still be incremented, and advances it
    by 1.  From the deployed contract, create, join, start, creator
    stakes 25, opponent stakes 10 gives balances 110 and 90, scores 1 and
    0, round 2. *)
Theorem C1_settlement_transfer :
  (forall s sender gid x v,
     reachable s -> sender <> address0 -> inputProof x = Some v ->
     completesRound (getGame s gid) sender ->
     let g := getGame s gid in
     let cb := plain (creatorBalance g) in
     let ob := plain (opponentBalance g) in
     let ec := Z.min (roundStakeOfCreator g sender v) cb in
     let eo := Z.min (roundStakeOfOpponent g sender v) ob in
     (round g < uint32_max ->
      exists s', submitStake sender gid x s = inr s') /\
     (forall s', submitStake sender gid x s = inr s' ->
        let g' := getGame s' gid in
        round g' = round g + 1 /\
        (eo < ec ->
         plain (creatorBalance g') = cb + eo /\
         plain (opponentBalance g') = ob - eo /\
         plain (creatorScore g') = plain (creatorScore g) + 1 /\
         plain (opponentScore g') = plain (opponentScore g)) /\
        (ec < eo ->
         plain (opponentBalance g') = ob + ec /\
         plain (creatorBalance g') = cb - ec /\
         plain (opponentScore g') = plain (opponentScore g) + 1 /\
         plain (creatorScore g') = plain (creatorScore g)))) /\
  (run duel init = inr finished /\
   exists gs, getGameState finished 0 = inr gs /\
     plain (gs_creatorBalance gs) = 110 /\
     plain (gs_opponentBalance gs) = 90 /\
     plain (gs_creatorScore gs) = 1 /\
     plain (gs_opponentScore gs) = 0 /\
     gs_round gs = 2).
Proof.
  split.
  - intros s sender gid x v Hreach Hs Hx Hcompl g cb ob ec eo.
    destruct (completing_settles s sender gid x v Hreach Hs Hx Hcompl)
      as (_ & Hex & Hpost).
    split; [exact Hex|].
    intros s' H g'.
    destruct (Hpost s' H) as (_ & Er & _ & Ecb & Eob & Ecs & Eos & _).
    fold g g' cb ob in Er, Ecb, Eob, Ecs, Eos.
    unfold effective in Ecb, Eob, Ecs, Eos. fold ec eo in Ecb, Eob, Ecs, Eos.
    split; [exact Er|]. clear Hpost Hex H Hcompl. clearbody g' ec eo cb ob g.
    split; intros Hlt.
    + assert (E1 : (eo <? ec) = true) by (apply Z.ltb_lt; exact Hlt).
      assert (E2 : (ec <? eo) = false) by (apply Z.ltb_ge; lia).
      rewrite E1 in Ecb, Ecs. rewrite E2 in Eob, Eos. rewrite E1 in Eob.
      repeat split; assumption.
    + assert (E1 : (ec <? eo) = true) by (apply Z.ltb_lt; exact Hlt).
      assert (E2 : (eo <? ec) = false) by (apply Z.ltb_ge; lia).
      rewrite E1 in Eob, Eos. rewrite E2 in Ecb, Ecs. rewrite E1 in Ecb.
      repeat split; assumption.
  - split; [vm_compute; reflexivity|].
    eexists. split; [vm_compute; reflexivity|]. cbn. auto.
Qed.

Lemma C1_settlement_transfer_witness :
  reachable midRound /\ completesRound (getGame midRound 0) bob /\
  plain (creatorBalance (getGame finished 0)) = 110 /\
  plain (opponentBalance (getGame finished 0)) = 90.
Proof.
  assert (Hr : reachable midRound)
    by (apply after_reachable; vm_compute; reflexivity).
  assert (Hc : completesRound (getGame midRound 0) bob)
    by (split; [reflexivity|right; repeat split; reflexivity]).
  split; [exact Hr|]. split; [exact Hc|].
  destruct (proj1 C1_settlement_transfer midRound bob 0
              (External 8 (Some 10)) 10 Hr bob_nonzero eq_refl Hc)
    as [_ H].
  destruct (H finished ltac:(vm_compute; reflexivity)) as (_ & Hwin & _).
  destruct (Hwin ltac:(vm_compute; reflexivity)) as (E1 & E2 & _).
  rewrite E1, E2. split; vm_compute; reflexivity.
Defined.

(** C2. A settlement leaves the sum of the two balances as it was,
    [startGame] sets both balances to 100, and in every reachable state
    the balances of every started game add up to 200. *)
Theorem C2_balance_conservation :
  (forall s sender gid x v s',
     reachable s -> sender <> address0 -> inputProof x = Some v ->
     completesRound (getGame s gid) sender ->
     submitStake sender gid x s = inr s' ->
     plain (creatorBalance (getGame s' gid)) +
     plain (opponentBalance (getGame s' gid)) =
     plain (creatorBalance (getGame s gid)) +
     plain (opponentBalance (getGame s gid))) /\
  (forall s sender gid s',
     startGame sender gid s = inr s' ->
     plain (creatorBalance (getGame s' gid)) = 100 /\
     plain (opponentBalance (getGame s' gid)) = 100) /\
  (forall s gid,
     reachable s -> started (getGame s gid) = true ->
     plain (creatorBalance (getGame s gid)) +
     plain (opponentBalance (getGame s gid)) = 200).
Proof.
  split; [|split].
  - intros s sender gid x v s' Hreach Hs Hx Hcompl H.
    destruct (completing_settles s sender gid x v Hreach Hs Hx Hcompl)
      as (_ & _ & Hpost).
    destruct (Hpost s' H) as (_ & _ & _ & Ecb & Eob & _).
    rewrite Ecb, Eob.
    set (ec := effective (roundStakeOfCreator (getGame s gid) sender v)
                 (plain (creatorBalance (getGame s gid)))).
    set (eo := effective (roundStakeOfOpponent (getGame s gid) sender v)
                 (plain (opponentBalance (getGame s gid)))).
    destruct (Z.ltb_spec eo ec), (Z.ltb_spec ec eo); lia.
  - intros s sender gid s' H.
    destruct (startGame_inv _ _ _ _ H) as (_ & _ & _ & _ & g' & k' & -> & Hop).
    rewrite getGame_insert, decide_True by reflexivity.
    split; [exact (op_cb _ _ _ _ Hop)|exact (op_ob _ _ _ _ Hop)].
  - intros s gid Hreach Hst.
    destruct (started_players s gid (reachable_Inv s Hreach) Hst)
      as (_ & _ & _ & Hled & _).
    exact (proj1 Hled).
Qed.

Lemma C2_balance_conservation_witness :
  reachable finished /\ started (getGame finished 0) = true /\
  plain (creatorBalance (getGame finished 0)) +
  plain (opponentBalance (getGame finished 0)) = 200.
Proof.
  assert (Hr : reachable finished)
    by (apply after_reachable; vm_compute; reflexivity).
  split; [exact Hr|]. split; [reflexivity|].
  exact (proj2 (proj2 C2_balance_conservation) finished 0 Hr eq_refl).
Defined.

(** C3. Whatever stake completes a round, also one above the submitter's
    balance, each effective stake lies between 0 and its side's balance,
    so the subtraction [FHE.sub] of an effective stake from that balance
    does not wrap around, and after the settlement both balances are
    non-negative, the loser's balance being its old balance minus its own
    effective stake. *)
Theorem C3_no_negative_balance :
  forall s sender gid x v,
    reachable s -> sender <> address0 -> inputProof x = Some v ->
    completesRound (getGame s gid) sender ->
    let g := getGame s gid in
    let cb := plain (creatorBalance g) in
    let ob := plain (opponentBalance g) in
    let ec := Z.min (roundStakeOfCreator g sender v) cb in
    let eo := Z.min (roundStakeOfOpponent g sender v) ob in
    (0 <= ec <= cb /\ 0 <= eo <= ob) /\
    (forall h k,
       plain (fst (FHE.sub (creatorBalance g) (Euint32 h ec) k)) = cb - ec /\
       plain (fst (FHE.sub (opponentBalance g) (Euint32 h eo) k)) = ob - eo) /\
    (round g < uint32_max ->
     exists s', submitStake sender gid x s = inr s') /\
    (forall s', submitStake sender gid x s = inr s' ->
       let g' := getGame s' gid in
       0 <= plain (creatorBalance g') /\
       0 <= plain (opponentBalance g') /\
       (ec < eo -> plain (creatorBalance g') = cb - ec) /\
       (eo < ec -> plain (opponentBalance g') = ob - eo)).
Proof.
  intros s sender gid x v Hreach Hs Hx Hcompl g cb ob ec eo.
  destruct (completing_settles s sender gid x v Hreach Hs Hx Hcompl)
    as ((Hsum & Hec & Heo & _) & Hex & Hpost).
  fold g cb ob in Hsum, Hec, Heo, Hpost.
  unfold effective in Hec, Heo, Hpost. fold ec eo in Hec, Heo, Hpost.
  pose proof uint32_max_eq as Hmax.
  split; [split; assumption|]. split; [|split; [exact Hex|]].
  - intros h k. cbn. fold cb ob. split; apply wrap32_small; lia.
  - intros s' H g'.
    destruct (Hpost s' H) as (_ & _ & _ & Ecb & Eob & _).
    fold g' in Ecb, Eob. clear Hpost H Hcompl.
    clearbody g' ec eo cb ob g.
    rewrite Ecb, Eob.
    destruct (Z.ltb_spec eo ec), (Z.ltb_spec ec eo); repeat split; lia.
Qed.

(** The creator stakes more than the whole balance. *)
Lemma C3_no_negative_balance_witness :
  let s := after (opening ++
                  [(alice, SubmitStake 0 (External 7 (Some 4000000000)))]) in
  let x := External 8 (Some 5) in
  reachable s /\ completesRound (getGame s 0) bob /\
  exists s', submitStake bob 0 x s = inr s' /\
    0 <= plain (creatorBalance (getGame s' 0)) /\
    0 <= plain (opponentBalance (getGame s' 0)).
Proof.
  intros s x.
  assert (Hr : reachable s)
    by (apply after_reachable; vm_compute; reflexivity).
  assert (Hc : completesRound (getGame s 0) bob)
    by (split; [reflexivity|right; repeat split; reflexivity]).
  split; [exact Hr|]. split; [exact Hc|].
  destruct (C3_no_negative_balance s bob 0 x 5 Hr bob_nonzero eq_refl Hc)
    as (_ & _ & Hex & Hpost).
  destruct (Hex ltac:(vm_compute; reflexivity)) as [s' H].
  exists s'. split; [exact H|].
  destruct (Hpost s' H) as (H1 & H2 & _). split; assumption.
Defined.

(** C4. When the two effective stakes are equal, the settlement leaves
    the plaintexts of both balances and both scores as they were (neither
    comparison [FHE.gt] holds), advances the round counter by exactly 1
    and clears both submitted flags; it succeeds whenever the [uint32]
    round counter can still be incremented. *)
Theorem C4_tie_is_noop :
  forall s sender gid x v,
    reachable s -> sender <> address0 -> inputProof x = Some v ->
    completesRound (getGame s gid) sender ->
    let g := getGame s gid in
    let ec := Z.min (roundStakeOfCreator g sender v)
                (plain (creatorBalance g)) in
    let eo := Z.min (roundStakeOfOpponent g sender v)
                (plain (opponentBalance g)) in
    ec = eo ->
    (forall a b k,
       plain a = ec -> plain b = eo ->
       bplain (fst (FHE.gt a b k)) = false /\
       bplain (fst (FHE.gt b a k)) = false) /\
    (round g < uint32_max ->
     exists s', submitStake sender gid x s = inr s') /\
    (forall s', submitStake sender gid x s = inr s' ->
       let g' := getGame s' gid in
       plain (creatorBalance g') = plain (creatorBalance g) /\
       plain (opponentBalance g') = plain (opponentBalance g) /\
       plain (creatorScore g') = plain (creatorScore g) /\
       plain (opponentScore g') = plain (opponentScore g) /\
       round g' = round g + 1 /\
       creatorSubmitted g' = false /\ opponentSubmitted g' = false).
Proof.
  intros s sender gid x v Hreach Hs Hx Hcompl g ec eo Htie.
  destruct (completing_settles s sender gid x v Hreach Hs Hx Hcompl)
    as (_ & Hex & Hpost).
  fold g in Hex, Hpost.
  unfold effective in Hpost. fold ec eo in Hpost.
  split; [|split; [exact Hex|]].
  - intros a b k Ha Hb. cbn. rewrite Ha, Hb, Htie.
    split; apply Z.ltb_irrefl.
  - intros s' H g'.
    destruct (Hpost s' H) as (_ & Er & _ & Ecb & Eob & Ecs & Eos & Fc & Fo).
    fold g' in Er, Ecb, Eob, Ecs, Eos, Fc, Fo. clear Hpost H Hcompl Hex.
    clearbody g' ec eo g. subst eo.
    rewrite Z.ltb_irrefl in Ecb, Eob, Ecs, Eos.
    repeat split; assumption.
Qed.

(** Both sides stake 15. *)
Lemma C4_tie_is_noop_witness :
  let s := after (opening ++
                  [(alice, SubmitStake 0 (External 7 (Some 15)))]) in
  let x := External 8 (Some 15) in
  reachable s /\ completesRound (getGame s 0) bob /\
  exists s', submitStake bob 0 x s = inr s' /\
    plain (creatorBalance (getGame s' 0)) = 100 /\
    plain (opponentBalance (getGame s' 0)) = 100 /\
    round (getGame s' 0) = 2.
Proof.
  intros s x.
  assert (Hr : reachable s)
    by (apply after_reachable; vm_compute; reflexivity).
  assert (Hc : completesRound (getGame s 0) bob)
    by (split; [reflexivity|right; repeat split; reflexivity]).
  split; [exact Hr|]. split; [exact Hc|].
  destruct (C4_tie_is_noop s bob 0 x 15 Hr bob_nonzero eq_refl Hc
              ltac:(vm_compute; reflexivity))
    as (_ & Hex & Hpost).
  destruct (Hex ltac:(vm_compute; reflexivity)) as [s' H].
  exists s'. split; [exact H|].
  destruct (Hpost s' H) as (E1 & E2 & _ & _ & E3 & _).
  rewrite E1, E2, E3. repeat split; vm_compute; reflexivity.
Defined.

(** ** Grants (claim C5) *)



(** ** Duplicate submissions (claim C6) *)

(** C6 as stated fails: the stake is imported before the duplicate
    check, so a second submission whose input proof does not verify is
    rejected by the import, not with [DuplicateSubmission]. *)
Lemma C6_counterexample :
  reachable midRound /\ alreadySubmitted (getGame midRound 0) alice /\
  submitStake alice 0 (External 9 None) midRound = inl InvalidProof /\
  submitStake alice 0 (External 9 None) midRound <> inl DuplicateSubmission.
Proof.
  assert (E : submitStake alice 0 (External 9 None) midRound
              = inl InvalidProof) by (vm_compute; reflexivity).
  split; [apply after_reachable; vm_compute; reflexivity|].
  split; [split; [reflexivity|left; split; reflexivity]|].
  split; [exact E|]. rewrite E. discriminate.
Qed.

(** C6, amended.  In every reachable state a second submission from the
    same side in the same round is rejected and leaves the whole storage
    as it was; the error is [DuplicateSubmission] when the input proof of
    the call verifies, and the import's [InvalidProof] when it does
    not. *)
Theorem C6_second_submission_rejected :
  forall s sender gid x,
    reachable s -> sender <> address0 ->
    alreadySubmitted (getGame s gid) sender ->
    submitStake sender gid x s =
      inl (match inputProof x with
           | Some _ => DuplicateSubmission
           | None => InvalidProof
           end) /\
    commit s (submitStake sender gid x s) = s.
Proof.
  intros s sender gid x Hreach Hs [Hst Hcase].
  pose proof (reachable_Inv s Hreach) as Hinv.
  destruct (started_players s gid Hinv Hst) as (Hc & _ & Hne & _).
  set (g := getGame s gid) in *.
  assert (Hp : sender = creator g \/ sender = opponent g) by tauto.
  assert (Hsub : (if sender =? creator g then creatorSubmitted g
                  else opponentSubmitted g) = true).
  { destruct Hcase as [[-> F]|[-> F]].
    - rewrite Z.eqb_refl. exact F.
    - destruct (Z.eqb_spec (opponent g) (creator g)); [contradiction|exact F]. }
  destruct (submitStake_body_err sender gid x g (fhe s) (events s))
    as (_ & _ & _ & E4 & E5).
  assert (E : submitStake sender gid x s =
              inl (match inputProof x with
                   | Some _ => DuplicateSubmission
                   | None => InvalidProof
                   end)).
  { unfold submitStake. rewrite onGame_ctx. fold g.
    destruct (inputProof x) as [v|] eqn:Hx.
    - rewrite (E5 Hc Hp Hst Hs (ex_intro _ v eq_refl) Hsub). reflexivity.
    - rewrite (E4 Hc Hp Hst eq_refl). reflexivity. }
  split; [exact E|]. rewrite E. reflexivity.
Qed.

Lemma C6_second_submission_rejected_witness :
  reachable midRound /\ alreadySubmitted (getGame midRound 0) alice /\
  submitStake alice 0 (External 9 (Some 40)) midRound
  = inl DuplicateSubmission /\
  commit midRound (submitStake alice 0 (External 9 (Some 40)) midRound)
  = midRound.
Proof.
  assert (Hr : reachable midRound)
    by (apply after_reachable; vm_compute; reflexivity).
  assert (Ha : alreadySubmitted (getGame midRound 0) alice)
    by (split; [reflexivity|left; split; reflexivity]).
  split; [exact Hr|]. split; [exact Ha|].
  exact (C6_second_submission_rejected midRound alice 0
           (External 9 (Some 40)) Hr alice_nonzero Ha).
Defined.

(** ** Players of a game (claims C7 and C10) *)

(** C7. [joinGame] fails with [NotFound] on an identifier without a
    game, with [AlreadyFull] once an opponent is set, with [SelfJoin]
    when the caller is the creator, and otherwise sets the opponent and
    appends the identifier to the caller's list.  In every reachable
    state the identifiers without a game are exactly the unallocated
    ones, an opponent that is set differs from the creator, no
    transaction changes an opponent that is set, and every join of a
    game whose opponent is set fails with [AlreadyFull]. *)
Theorem C7_join_cases :
  (forall s sender gid,
     let g := getGame s gid in
     (creator g = address0 -> joinGame sender gid s = inl NotFound) /\
     (creator g <> address0 -> opponent g <> address0 ->
      joinGame sender gid s = inl AlreadyFull) /\
     (creator g <> address0 -> opponent g = address0 ->
      sender = creator g -> joinGame sender gid s = inl SelfJoin) /\
     (creator g <> address0 -> opponent g = address0 ->
      sender <> creator g ->
      exists s', joinGame sender gid s = inr s' /\
        opponent (getGame s' gid) = sender /\
        creator (getGame s' gid) = creator g /\
        getPlayerGames s' sender = getPlayerGames s sender ++ [gid])) /\
  (forall s gid, reachable s ->
     (creator (getGame s gid) = address0 <-> ~ (0 <= gid < nextGameId s))) /\
  (forall s gid, reachable s ->
     opponent (getGame s gid) <> address0 ->
     opponent (getGame s gid) <> creator (getGame s gid)) /\
  (forall s sender c s' gid,
     reachable s -> sender <> address0 -> exec sender c s = inr s' ->
     opponent (getGame s gid) <> address0 ->
     opponent (getGame s' gid) = opponent (getGame s gid)) /\
  (forall s sender gid, reachable s ->
     opponent (getGame s gid) <> address0 ->
     joinGame sender gid s = inl AlreadyFull).
Proof.
  split; [|split; [|split; [|split]]].
  - intros s sender gid g. rewrite joinGame_run. cbv zeta. fold g.
    assert (Eg : getGame s gid = g) by reflexivity. clearbody g.
    repeat split.
    + intros ->. reflexivity.
    + intros Hc Ho.
      destruct (Z.eqb_spec (creator g) address0); [contradiction|].
      destruct (Z.eqb_spec (opponent g) address0); [contradiction|].
      reflexivity.
    + intros Hc Ho ->. rewrite Ho.
      destruct (Z.eqb_spec (creator g) address0); [contradiction|].
      rewrite !Z.eqb_refl. reflexivity.
    + intros Hc Ho Hne. rewrite Ho.
      destruct (Z.eqb_spec (creator g) address0); [contradiction|].
      destruct (Z.eqb_spec (creator g) sender); [congruence|].
      cbn. eexists. split; [reflexivity|].
      rewrite getGame_insert, decide_True by reflexivity.
      unfold getPlayerGames. rewrite playerGames_insert.
      rewrite decide_True by reflexivity. cbn. done.
  - intros s gid Hreach.
    destruct (inv_game s (reachable_Inv s Hreach) gid) as (G1 & _).
    split.
    + intros E H. apply G1 in H. contradiction.
    + intros H. destruct (decide (creator (getGame s gid) = address0));
        [assumption|]. exfalso. apply H, G1. assumption.
  - intros s gid Hreach Ho.
    destruct (inv_game s (reachable_Inv s Hreach) gid) as (_ & G2 & G3 & _).
    apply G3. intros Ec. rewrite (G2 Ec) in Ho. apply Ho. reflexivity.
  - intros s sender c s' gid Hreach Hs H Ho.
    exact (proj2 (exec_players sender c s s' gid
                    (reachable_Inv s Hreach) Hs H) Ho).
  - intros s sender gid Hreach Ho.
    destruct (inv_game s (reachable_Inv s Hreach) gid) as (_ & G2 & _).
    assert (Hc : creator (getGame s gid) <> address0).
    { intros Ec. rewrite (G2 Ec) in Ho. apply Ho. reflexivity. }
    rewrite joinGame_run. cbv zeta.
    destruct (Z.eqb_spec (creator (getGame s gid)) address0); [contradiction|].
    destruct (Z.eqb_spec (opponent (getGame s gid)) address0);
      [contradiction|].
    reflexivity.
Qed.

Lemma C7_join_cases_witness :
  reachable joined /\ opponent (getGame joined 0) <> address0 /\
  opponent (getGame joined 0) <> creator (getGame joined 0) /\
  joinGame alice 0 joined = inl AlreadyFull.
Proof.
  assert (Hr : reachable joined)
    by (apply after_reachable; vm_compute; reflexivity).
  assert (Ho : opponent (getGame joined 0) <> address0) by discriminate.
  split; [exact Hr|]. split; [exact Ho|].
  split; [exact (proj1 (proj2 (proj2 C7_join_cases)) joined 0 Hr Ho)|].
  exact (proj2 (proj2 (proj2 (proj2 C7_join_cases))) joined alice 0 Hr Ho).
Defined.

(** C10. In every reachable state the list of games of every player has
    no duplicate identifier. *)
Theorem C10_player_games_nodup :
  forall s player, reachable s -> NoDup (getPlayerGames s player).
Proof.
  intros s player Hreach.
  exact (proj1 (inv_lists s (reachable_Inv s Hreach) player)).
Qed.

Lemma C10_player_games_nodup_witness :
  reachable finished /\ NoDup (getPlayerGames finished alice).
Proof.
  assert (Hr : reachable finished)
    by (apply after_reachable; vm_compute; reflexivity).
  split; [exact Hr|exact (C10_player_games_nodup finished alice Hr)].
Defined.

(** ** Starting a game (claim C8) *)

(** C8 as stated fails: the two balances of a started game are one
    ciphertext handle, the encryption of the constant 100, so the grant
    each player receives on their own balance is a grant on the other
    player's balance too. *)
Lemma C8_counterexample :
  reachable joined /\ startGame alice 0 joined = inr atStart /\
  creator (getGame atStart 0) = alice /\
  opponent (getGame atStart 0) = bob /\
  handle (opponentBalance (getGame atStart 0)) =
    handle (creatorBalance (getGame atStart 0)) /\
  isAllowed (fhe atStart) (creatorBalance (getGame atStart 0)) bob /\
  isAllowed (fhe atStart) (opponentBalance (getGame atStart 0)) alice.
Proof.
  split; [apply after_reachable; vm_compute; reflexivity|].
  split; [vm_compute; reflexivity|].
  split; [vm_compute; reflexivity|].
  split; [vm_compute; reflexivity|].
  split; [vm_compute; reflexivity|].
  unfold isAllowed. split; vm_compute; reflexivity.
Qed.

(** C8, amended.  In a reachable state [startGame] succeeds for a
    participant of a game that has an opponent and is not started.  A
    successful start sets the started flag, initialises both balances to
    encryptions of 100 and both scores to encryptions of 0, grants the
    contract access to all four, grants each player the decryption of
    their own balance and both players the decryption of both scores,
    and grants decryption to nobody else.  The two balances are one
    handle and the two scores another, so each player's grant on their
    own balance is also a grant on the other player's balance. *)
Theorem C8_start_initialises :
  forall s sender gid,
    reachable s ->
    let g := getGame s gid in
    (creator g <> address0 -> opponent g <> address0 ->
     sender = creator g \/ sender = opponent g -> started g = false ->
     exists s', startGame sender gid s = inr s') /\
    (forall s', startGame sender gid s = inr s' ->
       let g' := getGame s' gid in
       let k' := fhe s' in
       creator g' = creator g /\ opponent g' = opponent g /\
       started g' = true /\
       plain (creatorBalance g') = 100 /\
       plain (opponentBalance g') = 100 /\
       plain (creatorScore g') = 0 /\
       plain (opponentScore g') = 0 /\
       handle (opponentBalance g') = handle (creatorBalance g') /\
       handle (opponentScore g') = handle (creatorScore g') /\
       handle (creatorBalance g') <> handle (creatorScore g') /\
       isAllowedThis k' (creatorBalance g') /\
       isAllowedThis k' (opponentBalance g') /\
       isAllowedThis k' (creatorScore g') /\
       isAllowedThis k' (opponentScore g') /\
       isAllowed k' (creatorBalance g') (creator g') /\
       isAllowed k' (opponentBalance g') (opponent g') /\
       isAllowed k' (creatorScore g') (creator g') /\
       isAllowed k' (creatorScore g') (opponent g') /\
       isAllowed k' (opponentScore g') (creator g') /\
       isAllowed k' (opponentScore g') (opponent g') /\
       isAllowed k' (creatorBalance g') (opponent g') /\
       isAllowed k' (opponentBalance g') (creator g') /\
       (forall h a, (h, a) ∈ allowedTo k' ->
          (h, a) ∈ allowedTo (fhe s) \/
          a = creator g' \/ a = opponent g')).
Proof.
  intros s sender gid Hreach g.
  split.
  - intros Hc Ho Hp Hs.
    destruct (startGame_ok sender gid s Hc Ho Hp Hs) as (g' & k' & E & _).
    eexists. exact E.
  - intros s' H g' k'.
    destruct (startGame_inv _ _ _ _ H)
      as (Hc & Ho & _ & _ & g2 & k2 & Es & Hop).
    fold g in Hc, Ho, Hop.
    assert (Eg : g' = g2).
    { unfold g'. rewrite Es, getGame_insert. by rewrite decide_True. }
    assert (Ek : k' = k2) by (unfold k'; rewrite Es; reflexivity).
    clearbody g' k' g. subst g2 k2. clear Es H.
    destruct Hop as [Ec Eo Est Er Pcb Pob Pcs Pos Psc Pso Fc Fo
                       Hcb Hob Hcs Hos Hsc Hso Hn Et Ea].
    destruct (grants_issued (fhe s) k' g g' Ec Eo Et Ea)
      as ((T1 & T2 & T3 & T4 & D1 & D2 & D3 & D4 & D5 & D6) & _ & _).
    assert (X1 : isAllowed k' (creatorBalance g') (opponent g')).
    { unfold isAllowed in *. rewrite Hcb, <- Hob. exact D2. }
    assert (X2 : isAllowed k' (opponentBalance g') (creator g')).
    { unfold isAllowed in *. rewrite Hob, <- Hcb. exact D1. }
    repeat (split; [assumption|]).
    split; [rewrite Hob, Hcb; reflexivity|].
    split; [rewrite Hos, Hcs; reflexivity|].
    split; [rewrite Hcb, Hcs; discriminate|].
    repeat (split; [assumption|]).
    intros h a Hin. rewrite Ec, Eo.
    exact (issued_grantees _ _ _ _ _ _ _ _ _ _ Ea Hin).
Qed.

Lemma C8_start_initialises_witness :
  reachable joined /\
  exists s', startGame alice 0 joined = inr s' /\
    plain (creatorBalance (getGame s' 0)) = 100 /\
    isAllowed (fhe s') (creatorBalance (getGame s' 0)) alice /\
    isAllowed (fhe s') (opponentBalance (getGame s' 0)) bob.
Proof.
  assert (Hr : reachable joined)
    by (apply after_reachable; vm_compute; reflexivity).
  split; [exact Hr|].
  destruct (C8_start_initialises joined alice 0 Hr) as [Hex Hpost].
  destruct (Hex ltac:(vm_compute; discriminate) ltac:(vm_compute; discriminate)
              ltac:(left; vm_compute; reflexivity)
              ltac:(vm_compute; reflexivity)) as [s' H].
  exists s'. split; [exact H|].
  destruct (Hpost s' H)
    as (Ec & Eo & _ & Pcb & _ & _ & _ & _ & _ & _ & _ & _ & _ & _ & D1 & D2
        & _).
  split; [exact Pcb|].
  rewrite Ec in D1. rewrite Eo in D2. split; [exact D1|exact D2].
Defined.

(** ** Open games (claim C9) *)

Lemma isOpen_true g :
  isOpen g = true <-> creator g <> address0 /\ opponent g = address0.
Proof.
  unfold isOpen. rewrite andb_true_iff, negb_true_iff, Z.eqb_neq, Z.eqb_eq.
  reflexivity.
Qed.

Lemma elem_of_openIds s ids id :
  id ∈ openIds s ids <-> id ∈ ids /\ isOpen (getGame s id) = true.
Proof.
  induction ids as [|i ids IH]; cbn.
  - rewrite elem_of_nil. tauto.
  - destruct (isOpen (getGame s i)) eqn:E.
    + rewrite !elem_of_cons, IH. split.
      * intros [->|[H1 H2]]; auto.
      * intros [[->|H1] H2]; auto.
    + rewrite elem_of_cons, IH. split.
      * intros [H1 H2]; auto.
      * intros [[->|H1] H2]; [congruence|auto].
Qed.

Lemma openIds_sorted s ids :
  StronglySorted Z.lt ids -> StronglySorted Z.lt (openIds s ids).
Proof.
  induction 1 as [|i ids Hs IH Hall]; cbn; [constructor|].
  destruct (isOpen (getGame s i)); [|exact IH].
  constructor; [exact IH|].
  rewrite Forall_forall in Hall |- *.
  intros x Hx. apply elem_of_openIds in Hx. apply Hall, Hx.
Qed.

Lemma seqZ_sorted m n : StronglySorted Z.lt (seqZ m n).
Proof.
  remember (Z.to_nat n) as k eqn:Hk. revert m n Hk.
  induction k as [|k IH]; intros m n Hk.
  - rewrite seqZ_nil by lia. constructor.
  - rewrite seqZ_cons by lia. constructor.
    + apply IH. lia.
    + apply Forall_seqZ. intros x Hx. lia.
Qed.

Lemma countOpen_spec s ids : forall count,
  0 <= count -> count + Z.of_nat (length ids) <= uint256_max ->
  countOpen s ids count = inr (count + Z.of_nat (length (openIds s ids))).
Proof.
  induction ids as [|i ids IH]; intros count H0 Hmax; cbn in *.
  - f_equal. lia.
  - destruct (isOpen (getGame s i)).
    + unfold checked_add.
      destruct (Z.leb_spec (count + 1) uint256_max); [|lia].
      rewrite IH by lia. f_equal. cbn [length]. lia.
    + apply IH; lia.
Qed.

Lemma fillOpen_spec s ids : forall filled rest,
  length rest = length (openIds s ids) ->
  Z.of_nat (length filled) + Z.of_nat (length ids) <= uint256_max ->
  fillOpen s ids (filled ++ rest) (Z.of_nat (length filled))
  = inr (filled ++ openIds s ids).
Proof.
  induction ids as [|i ids IH]; intros filled rest Hlen Hmax; cbn in *.
  - destruct rest; [reflexivity|discriminate].
  - destruct (isOpen (getGame s i)).
    + destruct rest as [|r0 rest]; [discriminate|]. cbn in Hlen.
      unfold array_store.
      assert (Hin : (0 <=? Z.of_nat (length filled)) &&
                    (Z.of_nat (length filled) <?
                     Z.of_nat (length (filled ++ r0 :: rest))) = true).
      { rewrite length_app. cbn [length].
        apply andb_true_iff. split; [apply Z.leb_le|apply Z.ltb_lt]; lia. }
      rewrite Hin, Nat2Z.id.
      rewrite insert_app_r_alt by lia. rewrite Nat.sub_diag.
      change (<[0%nat:=i]> (r0 :: rest)) with (i :: rest).
      unfold checked_add.
      destruct (Z.leb_spec (Z.of_nat (length filled) + 1) uint256_max); [|lia].
      replace (Z.of_nat (length filled) + 1)
        with (Z.of_nat (length (filled ++ [i])))
        by (rewrite length_app; cbn [length]; lia).
      replace (filled ++ i :: rest) with ((filled ++ [i]) ++ rest)
        by (rewrite <- app_assoc; reflexivity).
      rewrite IH.
      * rewrite <- app_assoc. reflexivity.
      * lia.
      * rewrite length_app. cbn [length]. lia.
    + apply IH; [exact Hlen|lia].
Qed.

Lemma getOpenGames_spec s :
  0 <= nextGameId s <= uint256_max ->
  getOpenGames s = inr (openIds s (seqZ 0 (nextGameId s))).
Proof.
  intros Hn. unfold getOpenGames.
  rewrite countOpen_spec by (rewrite ?length_seqZ; lia).
  rewrite Z.add_0_l, Nat2Z.id.
  apply (fillOpen_spec s (seqZ 0 (nextGameId s)) []).
  - apply length_replicate.
  - rewrite length_seqZ. cbn [length]. lia.
Qed.

(** C9. In every reachable state [getOpenGames] returns, without
    reverting, a strictly ascending list whose members are exactly the
    identifiers of the games that have a creator and no opponent.  After
    one creation it returns the identifier 0 alone, and after that game
    is joined it returns the empty list. *)
Theorem C9_open_games :
  (forall s, reachable s ->
     exists l, getOpenGames s = inr l /\
       StronglySorted Z.lt l /\
       forall gid, gid ∈ l <->
         creator (getGame s gid) <> address0 /\
         opponent (getGame s gid) = address0) /\
  (run [(alice, CreateGame)] init = inr created /\
   getOpenGames created = inr [0] /\
   joinGame bob 0 created = inr joined /\
   getOpenGames joined = inr []).
Proof.
  split.
  - intros s Hreach.
    pose proof (reachable_Inv s Hreach) as Hinv.
    exists (openIds s (seqZ 0 (nextGameId s))).
    split; [exact (getOpenGames_spec s (inv_next s Hinv))|].
    split; [apply openIds_sorted, seqZ_sorted|].
    intros gid. rewrite elem_of_openIds, isOpen_true, elem_of_seqZ.
    destruct (inv_game s Hinv gid) as (G1 & _).
    split; [tauto|]. intros [Hc Ho]. split; [|tauto].
    apply G1 in Hc. lia.
  - repeat split; vm_compute; reflexivity.
Qed.

Lemma C9_open_games_witness :
  reachable created /\
  exists l, getOpenGames created = inr l /\ 0 ∈ l.
Proof.
  assert (Hr : reachable created)
    by (apply after_reachable; vm_compute; reflexivity).
  split; [exact Hr|].
  destruct (proj1 C9_open_games created Hr) as (l & E & _ & Hmem).
  exists l. split; [exact E|].
  apply Hmem. split; [discriminate|reflexivity].
Defined.

(** * Further properties of the contract *)

(** ** Grantees, flags and registry *)

(** X1. In every reachable state every decrypt grant names a player:
    the grantee is a non-zero address that is the creator or the
    opponent of a started game.  No grant names [address(0)], and no
    account that takes part in no started game holds one. *)
Theorem X1_grants_only_to_players :
  forall s v a,
    reachable s -> isAllowed (fhe s) v a ->
    a <> address0 /\
    exists gid, started (getGame s gid) = true /\
      (a = creator (getGame s gid) \/ a = opponent (getGame s gid)).
Proof.
  intros s v a Hreach Hin. exact (grantees_play s Hreach _ _ Hin).
Qed.

Lemma X1_grants_only_to_players_witness :
  reachable finished /\
  isAllowed (fhe finished) (opponentBalance (getGame finished 0)) bob /\
  bob <> address0 /\
  exists gid, started (getGame finished gid) = true /\
    (bob = creator (getGame finished gid) \/
     bob = opponent (getGame finished gid)).
Proof.
  assert (Hr : reachable finished)
    by (apply after_reachable; vm_compute; reflexivity).
  assert (Hin : isAllowed (fhe finished)
                  (opponentBalance (getGame finished 0)) bob)
    by (unfold isAllowed; vm_compute; reflexivity).
  split; [exact Hr|]. split; [exact Hin|].
  exact (X1_grants_only_to_players finished _ bob Hr Hin).
Defined.

(** X2. In every reachable state the two submitted flags of a game are
    never both set, and they are set only in a started game; a successful
    [submitStake] advances the round exactly when the other side's
    stake was already in, and leaves the round alone otherwise. *)
Theorem X2_settles_on_second_submission :
  (forall s gid, reachable s ->
     ~ (creatorSubmitted (getGame s gid) = true /\
        opponentSubmitted (getGame s gid) = true) /\
     (started (getGame s gid) = false ->
      creatorSubmitted (getGame s gid) = false /\
      opponentSubmitted (getGame s gid) = false)) /\
  (forall s sender gid x s',
     reachable s -> sender <> address0 ->
     submitStake sender gid x s = inr s' ->
     let g := getGame s gid in
     round (getGame s' gid) =
     if (if sender =? creator g then opponentSubmitted g
         else creatorSubmitted g)
     then round g + 1 else round g).
Proof.
  split.
  - intros s gid Hreach. split.
    + exact (inv_flags s (reachable_Inv2 s Hreach) gid).
    + destruct (inv_game s (reachable_Inv s Hreach) gid)
        as (_ & _ & _ & _ & _ & G6 & _). exact G6.
  - intros s sender gid x s' Hreach Hs H g.
    destruct (submitStake_shape _ _ _ _ _ (reachable_Inv s Hreach) Hs H)
      as (v & _ & _ & _ & _ & _ & _ & Hcase).
    fold g in Hcase.
    destruct (withStake_fields g sender (importedStake (fhe s) v))
      as (_ & _ & _ & F4 & _).
    destruct Hcase as [[Hoth ->]|(Hoth & _ & g' & k' & -> & S)];
      rewrite Hoth, getGame_insert, decide_True by reflexivity.
    + exact F4.
    + rewrite (st_round _ _ _ _ S), F4. reflexivity.
Qed.

Lemma X2_settles_on_second_submission_witness :
  reachable midRound /\
  ~ (creatorSubmitted (getGame midRound 0) = true /\
     opponentSubmitted (getGame midRound 0) = true) /\
  round (getGame finished 0) = round (getGame midRound 0) + 1.
Proof.
  assert (Hr : reachable midRound)
    by (apply after_reachable; vm_compute; reflexivity).
  split; [exact Hr|].
  split; [exact (proj1 (proj1 X2_settles_on_second_submission midRound 0 Hr))|].
  exact (proj2 X2_settles_on_second_submission midRound bob 0
           (External 8 (Some 10)) finished Hr bob_nonzero
           ltac:(vm_compute; reflexivity)).
Defined.

(** X3. In every reachable state [getPlayerGames] returns exactly the
    games the player takes part in: an identifier is in the list of a
    player if and only if the player is a non-zero address and is the
    creator or the opponent of that game. *)
Theorem X3_player_games_exact :
  forall s gid player,
    reachable s ->
    (gid ∈ getPlayerGames s player <->
     player <> address0 /\
     (player = creator (getGame s gid) \/
      player = opponent (getGame s gid))).
Proof.
  intros s gid player Hreach. unfold getPlayerGames. split.
  - intros Hin.
    exact (proj2 (inv_lists s (reachable_Inv s Hreach) player) gid Hin).
  - intros [Hp Hcase].
    destruct (inv_member s (reachable_Inv2 s Hreach) gid) as [M1 M2].
    destruct Hcase as [->| ->]; auto.
Qed.

Lemma X3_player_games_exact_witness :
  reachable joined /\ 0 ∈ getPlayerGames joined bob /\
  ~ 1 ∈ getPlayerGames joined bob.
Proof.
  assert (Hr : reachable joined)
    by (apply after_reachable; vm_compute; reflexivity).
  split; [exact Hr|]. split.
  - apply (X3_player_games_exact joined 0 bob Hr).
    split; [discriminate|right; vm_compute; reflexivity].
  - intros Hin. apply (X3_player_games_exact joined 1 bob Hr) in Hin.
    destruct Hin as [_ [E|E]]; vm_compute in E; discriminate E.
Defined.

(** X4. No successful transaction deletes, reassigns or restarts a
    game: the creator of an existing game stays, a started game stays
    started, the round of an existing game stays or advances by exactly
    1, and [nextGameId] stays or advances by exactly 1. *)
Theorem X4_lifecycle_monotone :
  forall s sender c s' gid,
    reachable s -> sender <> address0 -> exec sender c s = inr s' ->
    nextGameId s <= nextGameId s' <= nextGameId s + 1 /\
    (creator (getGame s gid) <> address0 ->
     creator (getGame s' gid) = creator (getGame s gid)) /\
    (started (getGame s gid) = true -> started (getGame s' gid) = true) /\
    (creator (getGame s gid) <> address0 ->
     round (getGame s' gid) = round (getGame s gid) \/
     round (getGame s' gid) = round (getGame s gid) + 1).
Proof.
  intros s sender c s' gid Hreach Hs H.
  pose proof (reachable_Inv s Hreach) as Hinv.
  destruct (exec_frame sender c s s' Hinv Hs H) as (Hn & _ & _ & _ & Hg).
  destruct (Hg gid) as [Hst Hr].
  destruct (exec_players sender c s s' gid Hinv Hs H) as [Hc _].
  auto.
Qed.

Lemma X4_lifecycle_monotone_witness :
  reachable midRound /\
  started (getGame finished 0) = true /\
  creator (getGame finished 0) = creator (getGame midRound 0).
Proof.
  assert (Hr : reachable midRound)
    by (apply after_reachable; vm_compute; reflexivity).
  split; [exact Hr|].
  destruct (X4_lifecycle_monotone midRound bob
              (SubmitStake 0 (External 8 (Some 10))) finished 0 Hr
              bob_nonzero ltac:(vm_compute; reflexivity))
    as (_ & Hc & Hst & _).
  split; [exact (Hst ltac:(vm_compute; reflexivity))
         |exact (Hc ltac:(vm_compute; discriminate))].
Defined.

(** X5. The contract only appends and only grants: after a successful
    transaction every player's list of games and the event log begin
    with what they were, and no grant, for the contract or for a player,
    is revoked. *)
Theorem X5_append_only :
  forall s sender c s',
    reachable s -> sender <> address0 -> exec sender c s = inr s' ->
    (forall player, exists suffix,
       getPlayerGames s' player = getPlayerGames s player ++ suffix) /\
    (exists suffix, events s' = events s ++ suffix) /\
    (forall v, isAllowedThis (fhe s) v -> isAllowedThis (fhe s') v) /\
    (forall v a, isAllowed (fhe s) v a -> isAllowed (fhe s') v a).
Proof.
  intros s sender c s' Hreach Hs H.
  destruct (exec_frame sender c s s' (reachable_Inv s Hreach) Hs H)
    as (_ & (_ & Ht & Ha) & He & Hl & _).
  split; [exact Hl|]. split; [exact He|].
  unfold isAllowedThis, isAllowed. split.
  - intros v Hin. apply Ht, Hin.
  - intros v a Hin. apply Ha, Hin.
Qed.

Lemma X5_append_only_witness :
  reachable midRound /\
  isAllowed (fhe finished) (creatorStake (getGame midRound 0)) alice /\
  exists suffix, events finished = events midRound ++ suffix.
Proof.
  assert (Hr : reachable midRound)
    by (apply after_reachable; vm_compute; reflexivity).
  split; [exact Hr|].
  destruct (X5_append_only midRound bob
              (SubmitStake 0 (External 8 (Some 10))) finished Hr
              bob_nonzero ltac:(vm_compute; reflexivity))
    as (_ & He & _ & Ha).
  split; [|exact He].
  apply Ha. unfold isAllowed. vm_compute. reflexivity.
Defined.

(** ** Rejections and the first submission of a round *)

(** X6. [startGame] rejects, in this order: an identifier without a game
    ([NotFound]), a caller who is neither creator nor opponent
    ([NotParticipant]), a game that is already started
    ([AlreadyStarted]), and a game without an opponent ([NoOpponent]).
    So a started game is never initialised a second time, whoever
    calls. *)
Theorem X6_startGame_rejections :
  forall s sender gid,
    let g := getGame s gid in
    (creator g = address0 -> startGame sender gid s = inl NotFound) /\
    (creator g <> address0 -> sender <> creator g -> sender <> opponent g ->
     startGame sender gid s = inl NotParticipant) /\
    (creator g <> address0 -> sender = creator g \/ sender = opponent g ->
     started g = true -> startGame sender gid s = inl AlreadyStarted) /\
    (creator g <> address0 -> sender = creator g \/ sender = opponent g ->
     started g = false -> opponent g = address0 ->
     startGame sender gid s = inl NoOpponent) /\
    (creator g <> address0 -> started g = true ->
     (startGame sender gid s = inl NotParticipant \/
      startGame sender gid s = inl AlreadyStarted) /\
     commit s (startGame sender gid s) = s).
Proof.
  intros s sender gid g.
  destruct (startGame_body_err sender gid g (fhe s) (events s))
    as (E1 & E2 & E3 & E4).
  assert (Hrun : forall e,
            startGame_body sender gid (ctx g (fhe s) (events s)) = inl e ->
            startGame sender gid s = inl e).
  { intros e He. unfold startGame. rewrite onGame_ctx. fold g.
    rewrite He. reflexivity. }
  repeat split.
  - intros H. apply Hrun. auto.
  - intros H1 H2 H3. apply Hrun. auto.
  - intros H1 H2 H3. apply Hrun. auto.
  - intros H1 H2 H3 H4. apply Hrun. auto.
  - destruct (decide (sender = creator g)) as [Hc|Hc];
      [right; apply Hrun; auto|].
    destruct (decide (sender = opponent g)) as [Ho|Ho];
      [right; apply Hrun; auto|].
    left. apply Hrun. auto.
  - destruct (decide (sender = creator g)) as [Hc|Hc];
      [rewrite (Hrun AlreadyStarted); auto|].
    destruct (decide (sender = opponent g)) as [Ho|Ho];
      [rewrite (Hrun AlreadyStarted); auto|].
    rewrite (Hrun NotParticipant); auto.
Qed.

Lemma X6_startGame_rejections_witness :
  startGame bob 0 atStart = inl AlreadyStarted /\
  startGame alice 0 created = inl NoOpponent /\
  startGame bob 0 created = inl NotParticipant.
Proof.
  split; [|split].
  - destruct (X6_startGame_rejections atStart bob 0) as (_ & _ & H & _).
    apply H; [vm_compute; discriminate|right; vm_compute; reflexivity
             |vm_compute; reflexivity].
  - destruct (X6_startGame_rejections created alice 0) as (_ & _ & _ & H & _).
    apply H; [vm_compute; discriminate|left; vm_compute; reflexivity
             |vm_compute; reflexivity|vm_compute; reflexivity].
  - destruct (X6_startGame_rejections created bob 0) as (_ & H & _).
    apply H; vm_compute; discriminate.
Defined.

(** X7. Before it looks at the submitted flag, [submitStake] rejects,
    in this order: an identifier without a game ([NotFound]), a caller
    who is not a participant ([NotParticipant]), a game that is not
    started ([NotStarted]), and an input whose proof does not verify
    ([InvalidProof]).  A rejected call leaves the storage as it was. *)
Theorem X7_submitStake_rejections :
  forall s sender gid x,
    let g := getGame s gid in
    ((creator g = address0 -> submitStake sender gid x s = inl NotFound) /\
     (creator g <> address0 -> sender <> creator g -> sender <> opponent g ->
      submitStake sender gid x s = inl NotParticipant) /\
     (creator g <> address0 -> sender = creator g \/ sender = opponent g ->
      started g = false -> submitStake sender gid x s = inl NotStarted) /\
     (creator g <> address0 -> sender = creator g \/ sender = opponent g ->
      started g = true -> inputProof x = None ->
      submitStake sender gid x s = inl InvalidProof)) /\
    (forall e, submitStake sender gid x s = inl e ->
       commit s (submitStake sender gid x s) = s).
Proof.
  intros s sender gid x g.
  destruct (submitStake_body_err sender gid x g (fhe s) (events s))
    as (E1 & E2 & E3 & E4 & _).
  assert (Hrun : forall e,
            submitStake_body sender gid x (ctx g (fhe s) (events s)) = inl e ->
            submitStake sender gid x s = inl e).
  { intros e He. unfold submitStake. rewrite onGame_ctx. fold g.
    rewrite He. reflexivity. }
  split.
  - repeat split.
    + intros H. apply Hrun. auto.
    + intros H1 H2 H3. apply Hrun. auto.
    + intros H1 H2 H3. apply Hrun. auto.
    + intros H1 H2 H3 H4. apply Hrun. auto.
  - intros e He. rewrite He. reflexivity.
Qed.

Lemma X7_submitStake_rejections_witness :
  submitStake alice 0 (External 7 (Some 25)) joined = inl NotStarted /\
  submitStake alice 1 (External 7 (Some 25)) joined = inl NotFound.
Proof.
  destruct (X7_submitStake_rejections joined alice 0 (External 7 (Some 25)))
    as ((_ & _ & H & _) & _).
  destruct (X7_submitStake_rejections joined alice 1 (External 7 (Some 25)))
    as ((H' & _) & _).
  split.
  - apply H; [vm_compute; discriminate|left; vm_compute; reflexivity
             |vm_compute; reflexivity].
  - apply H'. vm_compute. reflexivity.
Defined.

(** X8. In a reachable state the first valid submission of a round, by a
    participant of a started game who has not yet submitted, succeeds
    and only records the stake: the stake of the caller's side becomes a
    new ciphertext of the submitted value (modulo 2^32), only the
    caller's flag is set, balances, scores and round keep their handles
    and values, the new stake holds the contract's grant and the
    caller's decrypt grant and nobody else's, and the only event is
    [StakeSubmitted]. *)
Theorem X8_first_submission :
  forall s sender gid x v,
    reachable s -> sender <> address0 ->
    let g := getGame s gid in
    started g = true ->
    sender = creator g \/ sender = opponent g ->
    inputProof x = Some v ->
    creatorSubmitted g = false -> opponentSubmitted g = false ->
    exists s' stake,
      submitStake sender gid x s = inr s' /\
      let g' := getGame s' gid in
      plain stake = wrap32 v /\ nextHandle (fhe s) <= handle stake /\
      creatorStake g' = (if sender =? creator g then stake
                         else creatorStake g) /\
      opponentStake g' = (if sender =? creator g then opponentStake g
                          else stake) /\
      creatorSubmitted g' = (sender =? creator g) /\
      opponentSubmitted g' = negb (sender =? creator g) /\
      round g' = round g /\
      creatorBalance g' = creatorBalance g /\
      opponentBalance g' = opponentBalance g /\
      creatorScore g' = creatorScore g /\
      opponentScore g' = opponentScore g /\
      isAllowedThis (fhe s') stake /\
      (forall a, isAllowed (fhe s') stake a <-> a = sender) /\
      events s' = events s ++ [StakeSubmitted gid sender stake].
Proof.
  intros s sender gid x v Hreach Hs g Hst Hp Hx Fc Fo.
  pose proof (reachable_Inv s Hreach) as Hinv.
  destruct (started_players s gid Hinv Hst) as (Hc & _).
  fold g in Hc.
  pose proof (inv_acl s Hinv) as Hacl.
  assert (Hsub : (if sender =? creator g then creatorSubmitted g
                  else opponentSubmitted g) = false)
    by (destruct (sender =? creator g); assumption).
  assert (Hoth : (if sender =? creator g then opponentSubmitted g
                  else creatorSubmitted g) = false)
    by (destruct (sender =? creator g); assumption).
  exists (mkState (nextGameId s)
            (<[gid := withStake g sender (importedStake (fhe s) v)]> (games s))
            (gamesByPlayer s) (withImport (fhe s) sender v)
            (events s ++
             [StakeSubmitted gid sender (importedStake (fhe s) v)])),
    (importedStake (fhe s) v).
  split; [exact (submitStake_first sender gid x v s Hc Hs Hp Hst Hx Hsub Hoth)|].
  cbv zeta. rewrite getGame_insert, decide_True by reflexivity.
  cbn [fhe events mkState].
  destruct (withImport_extends (fhe s) sender v Hacl) as (_ & _ & Ht & Ha).
  destruct (withImport_facts (fhe s) sender v) as (_ & _ & Ea).
  split; [reflexivity|]. split; [cbn; lia|].
  assert (Hflags : forall b, (sender =? creator g) = b ->
            creatorStake (withStake g sender (importedStake (fhe s) v)) =
              (if b then importedStake (fhe s) v else creatorStake g) /\
            opponentStake (withStake g sender (importedStake (fhe s) v)) =
              (if b then opponentStake g else importedStake (fhe s) v) /\
            creatorSubmitted (withStake g sender (importedStake (fhe s) v))
              = b /\
            opponentSubmitted (withStake g sender (importedStake (fhe s) v))
              = negb b).
  { intros b Eb. unfold withStake. rewrite Eb. destruct b; cbn;
      rewrite ?Fc, ?Fo; done. }
  destruct (Hflags _ eq_refl) as (S1 & S2 & S3 & S4).
  destruct (withStake_fields g sender (importedStake (fhe s) v))
    as (_ & _ & _ & F4 & F5 & F6 & F7 & F8).
  repeat (split; [assumption|]).
  split; [|reflexivity].
  intros a. unfold isAllowed. rewrite Ea, elem_of_union, elem_of_singleton.
  cbn. split.
  - intros [E|Hin]; [injection E as ->; reflexivity|].
    destruct Hacl as [_ A]. specialize (A _ _ Hin). lia.
  - intros ->. left. reflexivity.
Qed.

Lemma X8_first_submission_witness :
  reachable atStart /\
  exists s' stake,
    submitStake alice 0 (External 7 (Some 25)) atStart = inr s' /\
    plain stake = 25 /\ creatorStake (getGame s' 0) = stake /\
    opponentSubmitted (getGame s' 0) = false /\
    forall a, isAllowed (fhe s') stake a <-> a = alice.
Proof.
  assert (Hr : reachable atStart)
    by (apply after_reachable; vm_compute; reflexivity).
  split; [exact Hr|].
  destruct (X8_first_submission atStart alice 0 (External 7 (Some 25)) 25
              Hr alice_nonzero ltac:(vm_compute; reflexivity)
              ltac:(left; vm_compute; reflexivity) eq_refl
              ltac:(vm_compute; reflexivity) ltac:(vm_compute; reflexivity))
    as (s' & stake & H & P & _ & S1 & _ & _ & S4 & _ & _ & _ & _ & _ & _
        & Ha & _).
  exists s', stake. split; [exact H|].
  split; [rewrite P; vm_compute; reflexivity|].
  split; [rewrite S1; vm_compute; reflexivity|].
  split; [rewrite S4; vm_compute; reflexivity|exact Ha].
Defined.

(** ** Scores, arithmetic and events of a settlement *)

(** X9. A settlement awards at most one point: each score stays or grows
    by exactly 1 and the two never grow together.  In every reachable
    state the scores of a started game are non-negative and add up to
    at most the number of rounds played, [round - 1]. *)
Theorem X9_scores_monotone :
  (forall s gid, reachable s -> started (getGame s gid) = true ->
     0 <= plain (creatorScore (getGame s gid)) /\
     0 <= plain (opponentScore (getGame s gid)) /\
     plain (creatorScore (getGame s gid)) +
     plain (opponentScore (getGame s gid)) <= round (getGame s gid) - 1) /\
  (forall s sender gid x v s',
     reachable s -> sender <> address0 -> inputProof x = Some v ->
     completesRound (getGame s gid) sender ->
     submitStake sender gid x s = inr s' ->
     let cs := plain (creatorScore (getGame s gid)) in
     let os := plain (opponentScore (getGame s gid)) in
     let cs' := plain (creatorScore (getGame s' gid)) in
     let os' := plain (opponentScore (getGame s' gid)) in
     cs <= cs' <= cs + 1 /\ os <= os' <= os + 1 /\
     cs' + os' <= cs + os + 1).
Proof.
  split.
  - intros s gid Hreach Hst.
    destruct (started_players s gid (reachable_Inv s Hreach) Hst)
      as (_ & _ & _ & (_ & _ & _ & Hcs & Hos & Hsum & _) & _).
    lia.
  - intros s sender gid x v s' Hreach Hs Hx Hcompl H cs os cs' os'.
    destruct (completing_settles s sender gid x v Hreach Hs Hx Hcompl)
      as (_ & _ & Hpost).
    destruct (Hpost s' H) as (_ & _ & _ & _ & _ & Ecs & Eos & _).
    fold cs os cs' os' in Ecs, Eos. clearbody cs os cs' os'.
    rewrite Ecs, Eos.
    set (ec := effective (roundStakeOfCreator (getGame s gid) sender v)
                 (plain (creatorBalance (getGame s gid)))).
    set (eo := effective (roundStakeOfOpponent (getGame s gid) sender v)
                 (plain (opponentBalance (getGame s gid)))).
    destruct (Z.ltb_spec eo ec), (Z.ltb_spec ec eo); lia.
Qed.

Lemma X9_scores_monotone_witness :
  reachable finished /\
  plain (creatorScore (getGame finished 0)) +
  plain (opponentScore (getGame finished 0)) <= round (getGame finished 0) - 1.
Proof.
  assert (Hr : reachable finished)
    by (apply after_reachable; vm_compute; reflexivity).
  split; [exact Hr|].
  exact (proj2 (proj2 (proj1 X9_scores_monotone finished 0 Hr
                         ltac:(vm_compute; reflexivity)))).
Defined.

(** X10. No addition of a settlement wraps around.  In every reachable
    state each balance of a started game lies between 0 and 200, so
    adding the other side's effective stake to a balance stays below
    2^32; and a score is below the round counter, so adding 1 to it does
    too. *)
Theorem X10_no_addition_wraps :
  (forall s gid, reachable s -> started (getGame s gid) = true ->
     0 <= plain (creatorBalance (getGame s gid)) <= 200 /\
     0 <= plain (opponentBalance (getGame s gid)) <= 200) /\
  (forall s sender gid x v h k,
     reachable s -> sender <> address0 -> inputProof x = Some v ->
     completesRound (getGame s gid) sender ->
     let g := getGame s gid in
     let ec := Z.min (roundStakeOfCreator g sender v)
                 (plain (creatorBalance g)) in
     let eo := Z.min (roundStakeOfOpponent g sender v)
                 (plain (opponentBalance g)) in
     plain (fst (FHE.add (creatorBalance g) (Euint32 h eo) k))
       = plain (creatorBalance g) + eo /\
     plain (fst (FHE.add (opponentBalance g) (Euint32 h ec) k))
       = plain (opponentBalance g) + ec /\
     plain (fst (FHE.add (creatorScore g) (fst (asEuint32 1 k)) k))
       = plain (creatorScore g) + 1 /\
     plain (fst (FHE.add (opponentScore g) (fst (asEuint32 1 k)) k))
       = plain (opponentScore g) + 1).
Proof.
  split.
  - intros s gid Hreach Hst.
    destruct (started_players s gid (reachable_Inv s Hreach) Hst)
      as (_ & _ & _ & (Hsum & Hcb & Hob & _) & _).
    lia.
  - intros s sender gid x v h k Hreach Hs Hx Hcompl g ec eo.
    destruct (completing_settles s sender gid x v Hreach Hs Hx Hcompl)
      as ((Hsum & Hec & Heo & Hcs & Hos & Hlt) & _ & _).
    fold g in Hsum, Hec, Heo, Hcs, Hos, Hlt.
    unfold effective in Hec, Heo. fold ec eo in Hec, Heo.
    pose proof Hcompl as [Hst _].
    destruct (started_players s gid (reachable_Inv s Hreach) Hst)
      as (_ & _ & _ & _ & Hr).
    fold g in Hr.
    pose proof uint32_max_eq as Hmax.
    cbn. repeat split; apply wrap32_small; lia.
Qed.

Lemma X10_no_addition_wraps_witness :
  reachable finished /\
  0 <= plain (creatorBalance (getGame finished 0)) <= 200.
Proof.
  assert (Hr : reachable finished)
    by (apply after_reachable; vm_compute; reflexivity).
  split; [exact Hr|].
  exact (proj1 (proj1 X10_no_addition_wraps finished 0 Hr
                  ltac:(vm_compute; reflexivity))).
Defined.

(** X11. The submission that completes a round appends exactly two
    events: [StakeSubmitted] with the imported stake, then
    [RoundResolved] carrying the number of the round just resolved (the
    value before the increment) and the four handles now stored in the
    game. *)
Theorem X11_settlement_events :
  forall s sender gid x v s',
    reachable s -> sender <> address0 -> inputProof x = Some v ->
    completesRound (getGame s gid) sender ->
    submitStake sender gid x s = inr s' ->
    let g := getGame s gid in
    let g' := getGame s' gid in
    exists stake,
      plain stake = wrap32 v /\
      events s' =
        events s ++
        [StakeSubmitted gid sender stake;
         RoundResolved gid (round g)
           (creatorBalance g') (opponentBalance g')
           (creatorScore g') (opponentScore g')] /\
      round g' = round g + 1.
Proof.
  intros s sender gid x v s' Hreach Hs Hx Hcompl H g g'.
  pose proof (reachable_Inv s Hreach) as Hinv.
  destruct (completes_flags s gid sender Hinv Hcompl) as (_ & _ & Hoth).
  destruct (submitStake_shape _ _ _ _ _ Hinv Hs H)
    as (v' & Hx' & _ & _ & _ & _ & _ & Hcase).
  assert (v' = v) as -> by congruence.
  fold g in Hoth, Hcase.
  destruct (withStake_fields g sender (importedStake (fhe s) v))
    as (_ & _ & _ & F4 & _).
  destruct Hcase as [[Hoth' _]|(_ & _ & g2 & k' & Es & S)]; [congruence|].
  assert (Eg : g' = g2).
  { unfold g'. rewrite Es, getGame_insert. by rewrite decide_True. }
  exists (importedStake (fhe s) v).
  split; [reflexivity|]. rewrite Eg. split.
  - rewrite Es. cbn [events mkState]. rewrite <- app_assoc. reflexivity.
  - rewrite (st_round _ _ _ _ S). rewrite F4. reflexivity.
Qed.

Lemma X11_settlement_events_witness :
  reachable midRound /\ completesRound (getGame midRound 0) bob /\
  exists stake,
    plain stake = 10 /\
    events finished =
      events midRound ++
      [StakeSubmitted 0 bob stake;
       RoundResolved 0 1
         (creatorBalance (getGame finished 0))
         (opponentBalance (getGame finished 0))
         (creatorScore (getGame finished 0))
         (opponentScore (getGame finished 0))].
Proof.
  assert (Hr : reachable midRound)
    by (apply after_reachable; vm_compute; reflexivity).
  assert (Hc : completesRound (getGame midRound 0) bob)
    by (split; [reflexivity|right; repeat split; reflexivity]).
  split; [exact Hr|]. split; [exact Hc|].
  destruct (X11_settlement_events midRound bob 0 (External 8 (Some 10)) 10
              finished Hr bob_nonzero eq_refl Hc
              ltac:(vm_compute; reflexivity))
    as (stake & P & E & _).
  exists stake. split; [rewrite P; vm_compute; reflexivity|].
  rewrite E. reflexivity.
Defined.

(** ** Creation and the views *)

(** X12. In a reachable state [createGame] hands out the identifier
    [nextGameId], which no game used before, and succeeds unless the
    [uint256] counter is at its maximum (then it panics).  The new game
    has the caller as creator, no opponent, is not started and is in
    round 1; the counter advances by 1, the identifier is appended to
    the caller's list, and every other game, every other list and the
    coprocessor are untouched. *)
Theorem X12_createGame_fresh :
  forall s sender,
    reachable s -> sender <> address0 ->
    creator (getGame s (nextGameId s)) = address0 /\
    (nextGameId s = uint256_max -> createGame sender s = inl Panic) /\
    (nextGameId s < uint256_max ->
     exists s',
       createGame sender s = inr (s', nextGameId s) /\
       nextGameId s' = nextGameId s + 1 /\
       creator (getGame s' (nextGameId s)) = sender /\
       opponent (getGame s' (nextGameId s)) = address0 /\
       started (getGame s' (nextGameId s)) = false /\
       round (getGame s' (nextGameId s)) = 1 /\
       (forall gid, gid <> nextGameId s -> getGame s' gid = getGame s gid) /\
       getPlayerGames s' sender = getPlayerGames s sender ++ [nextGameId s] /\
       (forall p, p <> sender -> getPlayerGames s' p = getPlayerGames s p) /\
       fhe s' = fhe s /\
       events s' = events s ++ [GameCreated (nextGameId s) sender]).
Proof.
  intros s sender Hreach Hs.
  pose proof (reachable_Inv s Hreach) as Hinv.
  assert (Hempty : getGame s (nextGameId s) = emptyGame).
  { destruct (inv_game s Hinv (nextGameId s)) as (G1 & G2 & _). apply G2.
    destruct (decide (creator (getGame s (nextGameId s)) = address0))
      as [E0|E0]; [exact E0|]. apply G1 in E0. lia. }
  split; [rewrite Hempty; reflexivity|].
  rewrite createGame_run. split.
  - intros E. destruct (Z.leb_spec (nextGameId s + 1) uint256_max); [lia|].
    reflexivity.
  - intros Hlt. destruct (Z.leb_spec (nextGameId s + 1) uint256_max); [|lia].
    eexists. split; [reflexivity|]. rewrite Hempty.
    rewrite getGame_insert, decide_True by reflexivity.
    cbn [nextGameId fhe events mkState].
    repeat (split; [reflexivity|]).
    split; [|split; [|split; [|split; reflexivity]]].
    + intros gid Hne. rewrite getGame_insert, decide_False by exact Hne.
      reflexivity.
    + unfold getPlayerGames. rewrite playerGames_insert.
      rewrite decide_True by reflexivity. reflexivity.
    + intros p Hne. unfold getPlayerGames. rewrite playerGames_insert.
      rewrite decide_False by exact Hne. reflexivity.
Qed.

Lemma X12_createGame_fresh_witness :
  reachable joined /\
  exists s', createGame bob joined = inr (s', 1) /\
    creator (getGame s' 1) = bob /\
    getPlayerGames s' bob = [0; 1].
Proof.
  assert (Hr : reachable joined)
    by (apply after_reachable; vm_compute; reflexivity).
  split; [exact Hr|].
  destruct (X12_createGame_fresh joined bob Hr bob_nonzero) as (_ & _ & H).
  destruct (H ltac:(vm_compute; reflexivity))
    as (s' & E & _ & Hc & _ & _ & _ & _ & Hl & _).
  exists s'. split; [exact E|]. split; [exact Hc|].
  rewrite Hl. vm_compute. reflexivity.
Defined.

Lemma getOpenGames_mem s :
  Inv s ->
  exists l, getOpenGames s = inr l /\
    forall gid, gid ∈ l <->
      creator (getGame s gid) <> address0 /\
      opponent (getGame s gid) = address0.
Proof.
  intros Hinv. exists (openIds s (seqZ 0 (nextGameId s))).
  split; [exact (getOpenGames_spec s (inv_next s Hinv))|].
  intros gid. rewrite elem_of_openIds, isOpen_true, elem_of_seqZ.
  destruct (inv_game s Hinv gid) as (G1 & _).
  split; [tauto|]. intros [Hc Ho]. split; [|tauto].
  apply G1 in Hc. lia.
Qed.

(** X13. How the transactions move the list of open games, in a
    reachable state: a creation adds exactly the new identifier, a join
    removes exactly the joined game, and starting a game or submitting a
    stake changes nothing; [getOpenGames] never reverts. *)
Theorem X13_open_games_step :
  forall s sender c s',
    reachable s -> sender <> address0 -> exec sender c s = inr s' ->
    exists l l',
      getOpenGames s = inr l /\ getOpenGames s' = inr l' /\
      forall gid,
        gid ∈ l' <->
        match c with
        | CreateGame => gid ∈ l \/ gid = nextGameId s
        | JoinGame joined => gid ∈ l /\ gid <> joined
        | StartGame _ => gid ∈ l
        | SubmitStake _ _ => gid ∈ l
        end.
Proof.
  intros s sender c s' Hreach Hs H.
  pose proof (reachable_Inv s Hreach) as Hinv.
  pose proof (Inv_exec _ _ _ _ Hinv Hs H) as Hinv'.
  destruct (getOpenGames_mem s Hinv) as (l & El & Hl).
  destruct (getOpenGames_mem s' Hinv') as (l' & El' & Hl').
  exists l, l'. split; [exact El|]. split; [exact El'|].
  intros gid. rewrite Hl'. clear El El' Hl' Hinv'.
  destruct c as [|gid0|gid0|gid0 x]; cbn in H; rewrite Hl; clear Hl.
  - destruct (createGame sender s) as [e|[s1 gid1]] eqn:E; [discriminate|].
    injection H as <-.
    destruct (createGame_inv _ _ _ _ E) as (_ & _ & ->).
    assert (Hempty : getGame s (nextGameId s) = emptyGame).
    { destruct (inv_game s Hinv (nextGameId s)) as (G1 & G2 & _). apply G2.
      destruct (decide (creator (getGame s (nextGameId s)) = address0))
        as [E0|E0]; [exact E0|]. apply G1 in E0. lia. }
    rewrite getGame_insert.
    destruct (decide (gid = nextGameId s)) as [->|Hne].
    + rewrite Hempty. cbn. tauto.
    + fold (getGame s gid). tauto.
  - destruct (joinGame_inv _ _ _ _ H) as (Hc & Ho & Hne & ->).
    rewrite getGame_insert.
    destruct (decide (gid = gid0)) as [->|Hne'].
    + cbn. split; [|tauto]. intros [_ E]. contradiction.
    + fold (getGame s gid). tauto.
  - destruct (startGame_inv _ _ _ _ H)
      as (_ & _ & _ & _ & g' & k' & -> & Hop).
    rewrite getGame_insert.
    destruct (decide (gid = gid0)) as [->|_]; [|reflexivity].
    rewrite (op_creator _ _ _ _ Hop), (op_opponent _ _ _ _ Hop). reflexivity.
  - destruct (submitStake_inv _ _ _ _ _ Hinv Hs H)
      as (_ & g' & k' & l0 & -> & Ec & Eo & _).
    rewrite getGame_insert.
    destruct (decide (gid = gid0)) as [->|_]; [|reflexivity].
    rewrite Ec, Eo. reflexivity.
Qed.

Lemma X13_open_games_step_witness :
  reachable created /\
  exists l', getOpenGames joined = inr l' /\ ~ 0 ∈ l'.
Proof.
  assert (Hr : reachable created)
    by (apply after_reachable; vm_compute; reflexivity).
  split; [exact Hr|].
  destruct (X13_open_games_step created bob (JoinGame 0) joined Hr
              bob_nonzero ltac:(vm_compute; reflexivity))
    as (l & l' & _ & E' & Hmem).
  exists l'. split; [exact E'|].
  intros Hin. apply Hmem in Hin. destruct Hin as [_ Hne]. apply Hne.
  reflexivity.
Defined.

(** X14. In every reachable state [getGameState] fails with [NotFound]
    exactly on the identifiers [createGame] has not handed out; on the
    others it returns the stored creator, opponent, flags, round and the
    four balance and score handles, with a round of at least 1, and an
    opponent whenever the game is started. *)
Theorem X14_getGameState_allocated :
  forall s gid,
    reachable s ->
    (getGameState s gid = inl NotFound <-> ~ (0 <= gid < nextGameId s)) /\
    (0 <= gid < nextGameId s ->
     exists gs,
       getGameState s gid = inr gs /\
       gs_creator gs = creator (getGame s gid) /\
       gs_creator gs <> address0 /\
       gs_opponent gs = opponent (getGame s gid) /\
       gs_started gs = started (getGame s gid) /\
       gs_round gs = round (getGame s gid) /\
       1 <= gs_round gs <= uint32_max /\
       (gs_started gs = true -> gs_opponent gs <> address0) /\
       gs_creatorSubmitted gs = creatorSubmitted (getGame s gid) /\
       gs_opponentSubmitted gs = opponentSubmitted (getGame s gid) /\
       gs_creatorBalance gs = creatorBalance (getGame s gid) /\
       gs_opponentBalance gs = opponentBalance (getGame s gid) /\
       gs_creatorScore gs = creatorScore (getGame s gid) /\
       gs_opponentScore gs = opponentScore (getGame s gid)).
Proof.
  intros s gid Hreach.
  destruct (inv_game s (reachable_Inv s Hreach) gid)
    as (G1 & _ & _ & G4 & G5 & _).
  unfold getGameState.
  destruct (Z.eqb_spec (creator (getGame s gid)) address0) as [E|E]; cbn.
  - split; [|intros H; apply G1 in H; contradiction].
    split; [|reflexivity]. intros _ H. apply G1 in H. contradiction.
  - split.
    + split; [discriminate|]. intros H. exfalso. apply H, G1, E.
    + intros _. eexists. split; [reflexivity|]. cbn.
      repeat split; auto; apply (G4 E).
Qed.

Lemma X14_getGameState_allocated_witness :
  reachable joined /\ getGameState joined 5 = inl NotFound /\
  exists gs, getGameState joined 0 = inr gs /\ gs_round gs = 1.
Proof.
  assert (Hr : reachable joined)
    by (apply after_reachable; vm_compute; reflexivity).
  split; [exact Hr|].
  destruct (X14_getGameState_allocated joined 5 Hr) as [[_ H] _].
  split; [apply H; vm_compute; intros [_ E]; discriminate E|].
  destruct (X14_getGameState_allocated joined 0 Hr) as [_ H0].
  destruct (H0 ltac:(vm_compute; split; [discriminate|reflexivity]))
    as (gs & E & _ & _ & _ & _ & Er & _).
  exists gs. split; [exact E|]. rewrite Er. vm_compute. reflexivity.
Defined.

(** X15. In every reachable state all six ciphertexts of a started game,
    the two stakes included, are initialised: their handles are
    non-zero and were handed out by the coprocessor, so a settlement
    never reads an uninitialised value.  Grants exist only on handles
    that were handed out. *)
Theorem X15_handles_initialised :
  forall s gid,
    reachable s ->
    (started (getGame s gid) = true ->
     Forall (fun v => 0 < handle v < nextHandle (fhe s))
       [creatorBalance (getGame s gid); opponentBalance (getGame s gid);
        creatorScore (getGame s gid); opponentScore (getGame s gid);
        creatorStake (getGame s gid); opponentStake (getGame s gid)]) /\
    (forall v, isAllowedThis (fhe s) v -> handle v < nextHandle (fhe s)) /\
    (forall v a, isAllowed (fhe s) v a -> handle v < nextHandle (fhe s)).
Proof.
  intros s gid Hreach.
  destruct (inv_acl s (reachable_Inv s Hreach)) as [A1 A2].
  split; [exact (inv_issued s (reachable_Inv2 s Hreach) gid)|].
  split.
  - intros v Hin. exact (A1 _ Hin).
  - intros v a Hin. exact (A2 _ _ Hin).
Qed.

Lemma X15_handles_initialised_witness :
  reachable finished /\
  0 < handle (creatorStake (getGame finished 0)) /\
  0 < handle (opponentBalance (getGame finished 0)).
Proof.
  assert (Hr : reachable finished)
    by (apply after_reachable; vm_compute; reflexivity).
  split; [exact Hr|].
  destruct (X15_handles_initialised finished 0 Hr) as (H & _).
  specialize (H ltac:(vm_compute; reflexivity)).
  rewrite !Forall_cons in H.
  destruct H as (_ & H2 & _ & _ & H5 & _).
  split; [apply H5|apply H2].
Defined.

(** ** The round counter, isolation of games and the event log *)

(** X16. The submission that completes a round panics exactly when the
    round counter holds the largest [uint32]: the checked [round += 1]
    is the only operation of a settlement that can fail, the encrypted
    arithmetic never does.  Below the ceiling the call succeeds and
    advances the round by 1. *)
Theorem X16_round_ceiling :
  forall s sender gid x v,
    let g := getGame s gid in
    creator g <> address0 -> opponent g <> address0 ->
    sender <> address0 -> sender = creator g \/ sender = opponent g ->
    started g = true -> inputProof x = Some v ->
    (if sender =? creator g then creatorSubmitted g else opponentSubmitted g)
    = false ->
    (if sender =? creator g then opponentSubmitted g else creatorSubmitted g)
    = true ->
    (submitStake sender gid x s = inl Panic <-> uint32_max <= round g) /\
    (round g < uint32_max ->
     exists s', submitStake sender gid x s = inr s' /\
       round (getGame s' gid) = round g + 1).
Proof.
  intros s sender gid x v g Hc Ho Hs Hp Hst Hx Hown Hother.
  destruct (submitStake_second sender gid x v s Hc Ho Hs Hp Hst Hx Hown Hother)
    as [[Hr E]|(Hr & g' & k' & l' & E & Hset)]; fold g in Hr.
  - split; [split; [intros _; exact Hr|intros _; exact E]|]. lia.
  - split.
    + rewrite E. split; [discriminate|lia].
    + intros _. eexists. split; [exact E|].
      rewrite getGame_insert, decide_True by reflexivity.
      rewrite (st_round _ _ _ _ Hset).
      unfold withStake. destruct (sender =? creator (getGame s gid));
        reflexivity.
Qed.

Lemma X16_round_ceiling_witness :
  submitStake bob 0 (External 8 (Some 10)) lastRound = inl Panic /\
  exists s', submitStake bob 0 (External 8 (Some 10)) midRound = inr s' /\
    round (getGame s' 0) = 2.
Proof.
  split.
  - apply (X16_round_ceiling lastRound bob 0 (External 8 (Some 10)) 10);
      try (vm_compute; first [reflexivity | discriminate]).
    right. vm_compute. reflexivity.
  - destruct (X16_round_ceiling midRound bob 0 (External 8 (Some 10)) 10)
      as [_ H]; try (vm_compute; first [reflexivity | discriminate]).
    + right. vm_compute. reflexivity.
    + destruct (H ltac:(vm_compute; reflexivity)) as (s' & E & Er).
      exists s'. split; [exact E|]. rewrite Er. vm_compute. reflexivity.
Defined.

(** X17. Games are isolated: a successful transaction in a reachable
    state rewrites at most the one game record it names (for a creation,
    the record at [nextGameId]) and leaves every other game, with its
    ciphertexts, identical.  Only the sender's list of games can change,
    and starting a game or submitting a stake changes no list and not
    the game counter. *)
Theorem X17_games_isolated :
  forall s sender c s',
    reachable s -> sender <> address0 -> exec sender c s = inr s' ->
    (forall gid, gid <> touched c s -> getGame s' gid = getGame s gid) /\
    (forall p, p <> sender -> getPlayerGames s' p = getPlayerGames s p) /\
    match c with
    | CreateGame | JoinGame _ => True
    | StartGame _ | SubmitStake _ _ =>
        nextGameId s' = nextGameId s /\
        forall p, getPlayerGames s' p = getPlayerGames s p
    end.
Proof.
  intros s sender c s' Hreach Hs H.
  pose proof (reachable_Inv s Hreach) as Hinv.
  unfold getPlayerGames.
  destruct c as [|gid0|gid0|gid0 x]; cbn [touched]; cbn in H.
  - destruct (createGame sender s) as [e|[s1 gid1]] eqn:E; [discriminate|].
    injection H as <-.
    destruct (createGame_inv _ _ _ _ E) as (_ & _ & ->).
    split; [|split; [|exact I]].
    + intros gid Hne. rewrite getGame_insert, decide_False by exact Hne.
      reflexivity.
    + intros p Hne. rewrite playerGames_insert, decide_False by exact Hne.
      reflexivity.
  - destruct (joinGame_inv _ _ _ _ H) as (_ & _ & _ & ->).
    split; [|split; [|exact I]].
    + intros gid Hne. rewrite getGame_insert, decide_False by exact Hne.
      reflexivity.
    + intros p Hne. rewrite playerGames_insert, decide_False by exact Hne.
      reflexivity.
  - destruct (startGame_inv _ _ _ _ H)
      as (_ & _ & _ & _ & g' & k' & -> & _).
    split; [|split; [|split]]; try reflexivity.
    intros gid Hne. rewrite getGame_insert, decide_False by exact Hne.
    reflexivity.
  - destruct (submitStake_inv _ _ _ _ _ Hinv Hs H)
      as (_ & g' & k' & l0 & -> & _).
    split; [|split; [|split]]; try reflexivity.
    intros gid Hne. rewrite getGame_insert, decide_False by exact Hne.
    reflexivity.
Qed.

Lemma X17_games_isolated_witness :
  reachable (after (lobby ++ [(alice, CreateGame)])) /\
  getGame (after (lobby ++ [(alice, CreateGame); (bob, StartGame 0)])) 1 =
  getGame (after (lobby ++ [(alice, CreateGame)])) 1.
Proof.
  assert (Hr : reachable (after (lobby ++ [(alice, CreateGame)])))
    by (apply after_reachable; vm_compute; reflexivity).
  split; [exact Hr|].
  destruct (X17_games_isolated _ bob (StartGame 0)
              (after (lobby ++ [(alice, CreateGame); (bob, StartGame 0)]))
              Hr bob_nonzero ltac:(vm_compute; reflexivity))
    as (H & _).
  apply H. discriminate.
Defined.

Lemma getGame_init gid : getGame init gid = emptyGame.
Proof. reflexivity. Qed.

Lemma creations_snoc l e :
  creations (l ++ [e]) = creations l ++ creations [e].
Proof. unfold creations. apply omap_app. Qed.

(** X18. The event log records the state.  In every reachable state the
    [GameCreated] events list the identifiers [0 .. nextGameId - 1] in
    order, each with the creator stored for that game; a [GameJoined]
    event for a game and an address is in the log exactly when that
    address is the game's opponent; and a [GameStarted] event for a game
    is in the log exactly when the game's [started] flag is set. *)
Theorem X18_log_records_state :
  forall s,
    reachable s ->
    creations (events s) =
      (fun id => (id, creator (getGame s id))) <$> seqZ 0 (nextGameId s) /\
    (forall gid p,
       GameJoined gid p ∈ events s <->
       p <> address0 /\ opponent (getGame s gid) = p) /\
    (forall gid,
       GameStarted gid ∈ events s <-> started (getGame s gid) = true).
Proof.
  induction 1 as [|s sender c s' Hreach IH Hs H].
  - split; [reflexivity|]. split.
    + intros gid p. rewrite getGame_init. cbn. rewrite elem_of_nil.
      split; [tauto|]. intros [Hp E]. apply Hp. symmetry. exact E.
    + intros gid. rewrite getGame_init. cbn. rewrite elem_of_nil.
      split; [tauto|discriminate].
  - destruct IH as (IA & IB & IC).
    pose proof (reachable_Inv s Hreach) as Hinv.
    destruct c as [|gid0|gid0|gid0 x]; cbn in H.
    + destruct (createGame sender s) as [e|[s1 gid1]] eqn:E; [discriminate|].
      injection H as <-.
      destruct (createGame_inv _ _ _ _ E) as (Hn & _ & ->).
      pose proof (inv_next s Hinv) as Hnext.
      assert (Hempty : getGame s (nextGameId s) = emptyGame).
      { destruct (inv_game s Hinv (nextGameId s)) as (G1 & G2 & _). apply G2.
        destruct (decide (creator (getGame s (nextGameId s)) = address0))
          as [E0|E0]; [exact E0|]. apply G1 in E0. lia. }
      cbn [events nextGameId mkState]. split; [|split].
      * rewrite creations_snoc, IA.
        rewrite (seqZ_app 0 (nextGameId s) 1) by lia.
        rewrite fmap_app. f_equal.
        -- apply Forall_fmap_ext, Forall_forall. intros id Hin.
           apply elem_of_seqZ in Hin.
           rewrite getGame_insert, decide_False by lia. reflexivity.
        -- change (seqZ (0 + nextGameId s) 1) with [nextGameId s].
           cbn [fmap list_fmap].
           rewrite getGame_insert, decide_True by reflexivity.
           reflexivity.
      * intros gid p. rewrite elem_of_app, list_elem_of_singleton, IB.
        rewrite getGame_insert.
        destruct (decide (gid = nextGameId s)) as [->|Hne].
        -- rewrite Hempty. cbn. split; [intros [Hl|Hl]; [exact Hl|discriminate]|tauto].
        -- fold (getGame s gid).
           split; [intros [Hl|Hl]; [exact Hl|discriminate]|tauto].
      * intros gid. rewrite elem_of_app, list_elem_of_singleton, IC.
        rewrite getGame_insert.
        destruct (decide (gid = nextGameId s)) as [->|Hne].
        -- rewrite Hempty. cbn. split; [intros [Hl|Hl]; [exact Hl|discriminate]|tauto].
        -- fold (getGame s gid).
           split; [intros [Hl|Hl]; [exact Hl|discriminate]|tauto].
    + destruct (joinGame_inv _ _ _ _ H) as (Hc & Ho & Hne & ->).
      cbn [events nextGameId mkState]. split; [|split].
      * rewrite creations_snoc, IA. cbn. rewrite app_nil_r.
        apply Forall_fmap_ext, Forall_forall. intros id Hin.
        rewrite getGame_insert.
        destruct (decide (id = gid0)) as [->|_]; reflexivity.
      * intros gid p. rewrite elem_of_app, list_elem_of_singleton, IB.
        rewrite getGame_insert.
        destruct (decide (gid = gid0)) as [->|Hne'].
        -- cbn. rewrite Ho. split.
           ++ intros [[Hp Hl]|Hl]; [congruence|].
              injection Hl as ->. split; [exact Hs|reflexivity].
           ++ intros [_ <-]. right. reflexivity.
        -- fold (getGame s gid). split; [|tauto].
           intros [Hl|Hl]; [exact Hl|]. injection Hl as -> _. contradiction.
      * intros gid. rewrite elem_of_app, list_elem_of_singleton, IC.
        rewrite getGame_insert.
        destruct (decide (gid = gid0)) as [->|_].
        -- cbn. split; [intros [Hl|Hl]; [exact Hl|discriminate]|tauto].
        -- fold (getGame s gid).
           split; [intros [Hl|Hl]; [exact Hl|discriminate]|tauto].
    + destruct (startGame_inv _ _ _ _ H)
        as (Hc & Ho & _ & Hst & g' & k' & -> & Hop).
      cbn [events nextGameId mkState]. split; [|split].
      * rewrite creations_snoc, IA. cbn. rewrite app_nil_r.
        apply Forall_fmap_ext, Forall_forall. intros id Hin.
        rewrite getGame_insert.
        destruct (decide (id = gid0)) as [->|_]; [|reflexivity].
        rewrite (op_creator _ _ _ _ Hop). reflexivity.
      * intros gid p. rewrite elem_of_app, list_elem_of_singleton, IB.
        rewrite getGame_insert.
        destruct (decide (gid = gid0)) as [->|_].
        -- rewrite (op_opponent _ _ _ _ Hop).
           split; [intros [Hl|Hl]; [exact Hl|discriminate]|tauto].
        -- fold (getGame s gid).
           split; [intros [Hl|Hl]; [exact Hl|discriminate]|tauto].
      * intros gid. rewrite elem_of_app, list_elem_of_singleton, IC.
        rewrite getGame_insert.
        destruct (decide (gid = gid0)) as [->|Hne].
        -- rewrite (op_started _ _ _ _ Hop). split; [reflexivity|].
           intros _. right. reflexivity.
        -- fold (getGame s gid). split; [|tauto].
           intros [Hl|Hl]; [exact Hl|]. injection Hl as ->. contradiction.
    + destruct (submitStake_shape _ _ _ _ _ Hinv Hs H)
        as (v & _ & Hst & _ & _ & _ & _ & Hcase).
      assert (Hshape : exists g' k' l1,
                 s' = mkState (nextGameId s) (<[gid0 := g']> (games s))
                        (gamesByPlayer s) k' (events s ++ l1) /\
                 creator g' = creator (getGame s gid0) /\
                 opponent g' = opponent (getGame s gid0) /\
                 started g' = true /\
                 creations l1 = [] /\
                 (forall gid p, ~ GameJoined gid p ∈ l1) /\
                 (forall gid, ~ GameStarted gid ∈ l1)).
      { destruct Hcase as [[_ ->]|(_ & _ & g' & k' & -> & Hset)].
        - eexists _, _, _. split; [reflexivity|].
          unfold withStake.
          destruct (sender =? creator (getGame s gid0)); cbn;
            (repeat split; try assumption; try reflexivity;
             intros; rewrite list_elem_of_singleton; discriminate).
        - rewrite <- app_assoc. eexists _, _, _. split; [reflexivity|].
          rewrite (st_creator _ _ _ _ Hset), (st_opponent _ _ _ _ Hset),
            (st_started _ _ _ _ Hset).
          unfold withStake.
          destruct (sender =? creator (getGame s gid0)); cbn;
            (repeat split; try assumption; try reflexivity;
             intros; rewrite !elem_of_cons, elem_of_nil;
             intros [?|[?|[]]]; discriminate). }
      destruct Hshape as (g' & k' & l1 & -> & Ec & Eo & Est & L1 & L2 & L3).
      cbn [events nextGameId mkState]. split; [|split].
      * unfold creations in *. rewrite omap_app, L1, app_nil_r, IA.
        apply Forall_fmap_ext, Forall_forall. intros id Hin.
        rewrite getGame_insert.
        destruct (decide (id = gid0)) as [->|_]; [|reflexivity].
        rewrite Ec. reflexivity.
      * intros gid p. rewrite elem_of_app, IB, getGame_insert.
        destruct (decide (gid = gid0)) as [->|_].
        -- rewrite Eo. split; [intros [Hl|Hl]; [exact Hl|]|tauto].
           exfalso. exact (L2 _ _ Hl).
        -- fold (getGame s gid). split; [intros [Hl|Hl]; [exact Hl|]|tauto].
           exfalso. exact (L2 _ _ Hl).
      * intros gid. rewrite elem_of_app, IC, getGame_insert.
        destruct (decide (gid = gid0)) as [->|_].
        -- rewrite Est, Hst. split; [reflexivity|]. intros _. left.
           reflexivity.
        -- fold (getGame s gid). split; [intros [Hl|Hl]; [exact Hl|]|tauto].
           exfalso. exact (L3 _ Hl).
Qed.

Lemma X18_log_records_state_witness :
  reachable finished /\
  creations (events finished) = [(0, alice)] /\
  GameJoined 0 bob ∈ events finished /\
  GameStarted 0 ∈ events finished.
Proof.
  assert (Hr : reachable finished)
    by (apply after_reachable; vm_compute; reflexivity).
  split; [exact Hr|].
  destruct (X18_log_records_state finished Hr) as (A & B & C).
  split; [rewrite A; vm_compute; reflexivity|]. split.
  - apply B. split; [exact bob_nonzero|vm_compute; reflexivity].
  - apply C. vm_compute. reflexivity.
Defined.
